(** * Bengio et al.'s neural language model: preprocessing, sampling, model
      shapes, training loop and evaluation of [bengio_nn.py].

    The development follows the script top to bottom.  Python values are
    modelled as follows:
    - a word is a [string]; a sentence a [list string]; the corpus a list of
      sentences;
    - a [dict] is an insertion-ordered association list with unique keys
      (module [Dict]), which is what CPython's dictionaries are;
    - an exception is a value of [exn]; code that can raise returns a
      [result];
    - in-place mutation is explicit state passing: a function that mutates
      its argument returns the new value of that argument;
    - a [torch.float32] scalar is a [spec_float] operated on with the
      IEEE 754 binary32 instance of the Standard Library's [SpecFloat]. *)

From Stdlib Require Import String Ascii Arith ZArith NArith Lia Bool.
From Stdlib Require Import List.
From Stdlib Require Import Permutation Sorted Mergesort Orders.
From Stdlib Require Import SpecFloat.
Import ListNotations.

Open Scope string_scope.
Open Scope nat_scope.
Open Scope list_scope.

(** ** Exceptions and results *)

Inductive exn : Type :=
| KeyError (key : string)
| IndexError
| RuntimeError
| ZeroDivisionError.

Inductive result (A : Type) : Type :=
| Ok (a : A)
| Raise (e : exn).

Arguments Ok {A} a.
Arguments Raise {A} e.

Definition bind {A B : Type} (r : result A) (k : A -> result B) : result B :=
  match r with
  | Ok a => k a
  | Raise e => Raise e
  end.

Notation "x <- r ;; k" := (bind r (fun x => k))
  (at level 61, r at next level, right associativity).

(** [mapM f l] runs [f] over [l] from left to right and stops at the first
    exception, as a Python loop does. *)
Fixpoint mapM {A B : Type} (f : A -> result B) (l : list A) : result (list B) :=
  match l with
  | [] => Ok []
  | a :: l' => b <- f a ;; bs <- mapM f l' ;; Ok (b :: bs)
  end.

(** ** Python dictionaries *)

Module Dict.
Section WithValue.
Context {V : Type}.

Definition t : Type := list (string * V).

Definition empty : t := [].

(** [d.get(k)] *)
Fixpoint get (d : t) (k : string) : option V :=
  match d with
  | [] => None
  | (k', v) :: d' => if (k' =? k)%string then Some v else get d' k
  end.

(** [k in d] *)
Definition contains (d : t) (k : string) : bool :=
  match get d k with
  | Some _ => true
  | None => false
  end.

(** [d[k]], which raises [KeyError] on a missing key *)
Definition lookup (d : t) (k : string) : result V :=
  match get d k with
  | Some v => Ok v
  | None => Raise (KeyError k)
  end.

(** [d[k] = v]: an existing key keeps its position, a new key goes last *)
Fixpoint set (d : t) (k : string) (v : V) : t :=
  match d with
  | [] => [(k, v)]
  | (k', v') :: d' =>
      if (k' =? k)%string then (k', v) :: d' else (k', v') :: set d' k v
  end.

Definition keys (d : t) : list string := map fst d.

Definition len (d : t) : nat := length d.
End WithValue.
Arguments t : clear implicits.
End Dict.

(** ** Loading and preprocessing *)

(** [str.lower] is a builtin; it is an argument of the model. *)
Definition lowercase_corpus (lower : string -> string)
    (original_corpus : list (list string)) : list (list string) :=
  map (fun sent => map lower sent) original_corpus.

(** One iteration of the inner loop of [get_word_counts]. *)
Definition count_word (vocab_dict : Dict.t nat) (word : string) : Dict.t nat :=
  if negb (Dict.contains vocab_dict word) then
    Dict.set vocab_dict word
      (match Dict.get vocab_dict word with Some c => c | None => 0 end + 1)
  else
    match Dict.get vocab_dict word with
    | Some c => Dict.set vocab_dict word (c + 1)
    | None => vocab_dict
    end.

Definition get_word_counts (corpus : list (list string)) : Dict.t nat :=
  fold_left (fun d sent => fold_left count_word sent d) corpus Dict.empty.

(** [replace_rare_words] rewrites the corpus in place; the new corpus is
    returned.  The test [word_counts[word] is 1] compares with the cached
    small integer [1] of CPython, which every integer of value one is. *)
Definition replace_word (word_counts : Dict.t nat) (word : string)
    : result string :=
  c <- Dict.lookup word_counts word ;;
  Ok (if c =? 1 then "<unk>" else word).

Definition replace_rare_words (corpus : list (list string))
    (word_counts : Dict.t nat) : result (list (list string)) :=
  mapM (fun sent => mapM (replace_word word_counts) sent) corpus.

(** Code-point order on strings, the order of [list.sort] on [str]. *)
Module StringOrder <: TotalLeBool.
Definition t := string.
Definition leb := String.leb.
Theorem leb_total : forall a1 a2, leb a1 a2 = true \/ leb a2 a1 = true.
Proof. exact String.leb_total. Qed.
End StringOrder.

Module StringSort := Sort StringOrder.

(** Lines 101-103: the keys, the two boundary markers, sorted. *)
Definition vocabulary_list (new_word_counts : Dict.t nat) : list string :=
  StringSort.sort (Dict.keys new_word_counts ++ ["<s>"; "</s>"]).

(** Line 115: [{vocabulary[i]: i for i in range(len(vocabulary))}]. *)
Definition index_words (start : nat) (words : list string)
    (d : Dict.t nat) : Dict.t nat :=
  fold_left (fun d iw => Dict.set d (snd iw) (fst iw))
            (combine (seq start (length words)) words) d.

Definition vocabulary_dict (vocabulary : list string) : Dict.t nat :=
  index_words 0 vocabulary Dict.empty.

(** The preprocessing of the script from the lowercased corpus on: the
    rewritten corpus and the word-to-index dictionary. *)
Definition build_vocabulary (corpus : list (list string))
    : result (list (list string) * Dict.t nat) :=
  corpus' <- replace_rare_words corpus (get_word_counts corpus) ;;
  Ok (corpus', vocabulary_dict (vocabulary_list (get_word_counts corpus'))).

(** ** One-hot vectors and the training pairs *)

(** A [torch.float32] scalar. *)
Definition float : Type := spec_float.
Definition prec : Z := 24.
Definition emax : Z := 128.
Definition fzero : float := S754_zero false.
Definition fone : float := S754_finite false 8388608 (-23).
Definition fadd : float -> float -> float := SFadd prec emax.
Definition fsub : float -> float -> float := SFsub prec emax.
Definition fmul : float -> float -> float := SFmul prec emax.
Definition fdiv : float -> float -> float := SFdiv prec emax.
Definition fsqrt : float -> float := SFsqrt prec emax.
Definition fneg : float -> float := SFopp.

(** A two-dimensional tensor: its shape and its rows. *)
Record tensor : Type := mkTensor {
  nrows : nat;
  ncols : nat;
  entries : list (list float)
}.

Definition shape (a : tensor) : nat * nat := (nrows a, ncols a).

(** The rows are as many and as long as the shape says. *)
Definition well_shaped (a : tensor) : Prop :=
  length (entries a) = nrows a /\
  Forall (fun row => length row = ncols a) (entries a).

(** [l[i] = x] for [i < len(l)] *)
Fixpoint list_set {A : Type} (l : list A) (i : nat) (x : A) : list A :=
  match l, i with
  | [], _ => []
  | _ :: l', 0 => x :: l'
  | a :: l', S i' => a :: list_set l' i' x
  end.

(** [torch.zeros([r, c])] *)
Definition zeros (r c : nat) : tensor :=
  mkTensor r c (repeat (repeat fzero c) r).

Definition convert_to_one_hot (word : string) (vocabulary : Dict.t nat)
    : result tensor :=
  let n := Dict.len vocabulary in
  let one_hot_vec := zeros 1 n in
  word_idx <- Dict.lookup vocabulary word ;;
  if word_idx <? n then
    Ok (mkTensor 1 n (map (fun row => list_set row word_idx fone)
                          (entries one_hot_vec)))
  else Raise IndexError.

(** The source of randomness of Python's [random] module: the tape of the
    raw draws to come.  [randbelow n] is a draw in [0, n). *)
Definition rng : Type := list nat.

Definition randbelow (n : nat) (tape : rng) : nat * rng :=
  match tape with
  | [] => (0, [])
  | r :: tape' => (r mod n, tape')
  end.

(** [x[i], x[j] = x[j], x[i]] *)
Definition swap {A : Type} (x : list A) (i j : nat) : list A :=
  match nth_error x i, nth_error x j with
  | Some xi, Some xj => list_set (list_set x i xj) j xi
  | _, _ => x
  end.

(** [random.shuffle]: for [i] from [len(x) - 1] down to [1], swap [x[i]]
    with [x[randbelow(i + 1)]]. *)
Fixpoint shuffle_down {A : Type} (i : nat) (x : list A) (tape : rng)
    : list A * rng :=
  match i with
  | 0 => (x, tape)
  | S i' =>
      let (j, tape') := randbelow (i + 1) tape in
      shuffle_down i' (swap x i j) tape'
  end.

Definition shuffle {A : Type} (x : list A) (tape : rng) : list A * rng :=
  shuffle_down (length x - 1) x tape.

(** [l[i]] for a Python integer [i]: a negative index counts from the end. *)
Definition py_index {A : Type} (l : list A) (i : Z) : result A :=
  let n := Z.of_nat (length l) in
  let j := if (i <? 0)%Z then (n + i)%Z else i in
  if ((0 <=? j) && (j <? n))%Z then
    match nth_error l (Z.to_nat j) with
    | Some a => Ok a
    | None => Raise IndexError
    end
  else Raise IndexError.

(** [range(a, b)] *)
Definition py_range (a b : Z) : list Z :=
  map (fun d => (a + Z.of_nat d)%Z) (seq 0 (Z.to_nat (b - a))).

(** What a generator does when it is run to its end: the items it yields,
    and the exception that ends it if one does. *)
Definition generated (A : Type) : Type := list A * option exn.

Definition training_pair : Type := nat * list tensor.

(** The body of the inner loop at a position that is not a start marker. *)
Definition pair_at (vocabulary : Dict.t nat) (k : nat) (sent : list string)
    (index : nat) (word : string) : result training_pair :=
  word_idx <- Dict.lookup vocabulary word ;;
  context_vec <-
    mapM (fun i => w <- py_index sent i ;; convert_to_one_hot w vocabulary)
         (py_range (Z.of_nat index - Z.of_nat k) (Z.of_nat index)) ;;
  Ok (word_idx, context_vec).

(** The inner loop over [enumerate(sent)], [sent] being the padded one. *)
Fixpoint pairs_of_positions (vocabulary : Dict.t nat) (k : nat)
    (sent : list string) (positions : list (nat * string))
    : generated training_pair :=
  match positions with
  | [] => ([], None)
  | (index, word) :: rest =>
      if negb (word =? "<s>")%string then
        match pair_at vocabulary k sent index word with
        | Ok p =>
            let (ps, stop) := pairs_of_positions vocabulary k sent rest in
            (p :: ps, stop)
        | Raise e => ([], Some e)
        end
      else pairs_of_positions vocabulary k sent rest
  end.

Definition enumerate {A : Type} (l : list A) : list (nat * A) :=
  combine (seq 0 (length l)) l.

Definition pad_sentence (k : nat) (sent : list string) : list string :=
  repeat "<s>" k ++ sent ++ ["</s>"].

Definition pairs_of_sentence (vocabulary : Dict.t nat) (k : nat)
    (sent : list string) : generated training_pair :=
  let sent := pad_sentence k sent in
  pairs_of_positions vocabulary k sent (enumerate sent).

(** The outer loop: sentence after sentence until one raises. *)
Fixpoint pairs_of_corpus (vocabulary : Dict.t nat) (k : nat)
    (corpus : list (list string)) : generated training_pair :=
  match corpus with
  | [] => ([], None)
  | sent :: corpus' =>
      match pairs_of_sentence vocabulary k sent with
      | (ps, None) =>
          let (qs, stop) := pairs_of_corpus vocabulary k corpus' in
          (ps ++ qs, stop)
      | (ps, Some e) => (ps, Some e)
      end
  end.

(** The state a run of the generator leaves behind and what it yields.
    [random.shuffle(corpus)] works on the caller's list, so the first
    component is the caller's corpus afterwards. *)
Record sampled : Type := mkSampled {
  corpus_after : list (list string);
  tape_after : rng;
  yielded : generated training_pair
}.

Definition generate_training_pairs (corpus : list (list string))
    (vocabulary : Dict.t nat) (k : nat) (tape : rng) : sampled :=
  let (corpus, tape) := shuffle corpus tape in
  mkSampled corpus tape (pairs_of_corpus vocabulary k corpus).

(** ** Tensor operations *)

Fixpoint zip_with {A B C : Type} (f : A -> B -> C) (l : list A) (m : list B)
    : list C :=
  match l, m with
  | a :: l', b :: m' => f a b :: zip_with f l' m'
  | _, _ => []
  end.

Definition tabulate (r c : nat) (f : nat -> nat -> float) : list (list float) :=
  map (fun i => map (fun j => f i j) (seq 0 c)) (seq 0 r).

Definition entry (a : tensor) (i j : nat) : float :=
  nth j (nth i (entries a) []) fzero.

Definition column (a : tensor) (j : nat) : list float :=
  map (fun row => nth j row fzero) (entries a).

(** [torch.transpose(a, 0, 1)] *)
Definition transpose (a : tensor) : tensor :=
  mkTensor (ncols a) (nrows a) (map (column a) (seq 0 (ncols a))).

Definition dot_list (u v : list float) : float :=
  fold_left fadd (zip_with fmul u v) fzero.

(** [torch.matmul] of two matrices: the inner dimensions must agree. *)
Definition matmul (a b : tensor) : result tensor :=
  if ncols a =? nrows b then
    Ok (mkTensor (nrows a) (ncols b)
          (map (fun row => map (fun j => dot_list row (column b j))
                               (seq 0 (ncols b)))
               (entries a)))
  else Raise RuntimeError.

(** [torch.cat((a, b), 0)]: the column counts must agree. *)
Definition cat0 (a b : tensor) : result tensor :=
  if ncols a =? ncols b then
    Ok (mkTensor (nrows a + nrows b) (ncols a) (entries a ++ entries b))
  else Raise RuntimeError.

(** Broadcasting of one dimension: equal sizes, or one of them is 1. *)
Definition broadcast_dim (m n : nat) : option nat :=
  if m =? n then Some m
  else if m =? 1 then Some n
  else if n =? 1 then Some m
  else None.

Definition broadcast_entry (a : tensor) (i j : nat) : float :=
  entry a (if nrows a =? 1 then 0 else i) (if ncols a =? 1 then 0 else j).

(** [torch.add(a, b)] *)
Definition tensor_add (a b : tensor) : result tensor :=
  match broadcast_dim (nrows a) (nrows b),
        broadcast_dim (ncols a) (ncols b) with
  | Some r, Some c =>
      Ok (mkTensor r c
            (tabulate r c (fun i j =>
               fadd (broadcast_entry a i j) (broadcast_entry b i j))))
  | _, _ => Raise RuntimeError
  end.

Definition tensor_map (f : float -> float) (a : tensor) : tensor :=
  mkTensor (nrows a) (ncols a) (map (map f) (entries a)).

(** An elementwise operation on two tensors of one shape, in place on the
    first. *)
Definition tensor_zip (f : float -> float -> float) (a b : tensor) : tensor :=
  mkTensor (nrows a) (ncols a) (zip_with (zip_with f) (entries a) (entries b)).

(** [a[i]]: row [i] of a matrix, a one-dimensional tensor. *)
Definition row_at (a : tensor) (i : nat) : result (list float) :=
  if i <? nrows a then
    match nth_error (entries a) i with
    | Some row => Ok row
    | None => Raise IndexError
    end
  else Raise IndexError.

(** [a[:, j]]: column [j] of a matrix, a one-dimensional tensor. *)
Definition column_at (a : tensor) (j : nat) : result (list float) :=
  if j <? ncols a then Ok (column a j) else Raise IndexError.

(** ** The network *)

(** The five tensors of the model, or a gradient for each of them. *)
Record weights : Type := mkWeights {
  wE : tensor;
  ww1 : tensor;
  wb1 : tensor;
  ww2 : tensor;
  wb2 : tensor
}.

(** An [NLM] object: its parameters and their [.grad] attributes, which
    are [None] until the first [backward()]. *)
Record NLM : Type := mkNLM {
  embedding_length : nat;
  params : weights;
  grads : option weights
}.

Definition E (self : NLM) : tensor := wE (params self).
Definition w1 (self : NLM) : tensor := ww1 (params self).
Definition b1 (self : NLM) : tensor := wb1 (params self).
Definition w2 (self : NLM) : tensor := ww2 (params self).
Definition b2 (self : NLM) : tensor := wb2 (params self).

Definition weights_map (f : tensor -> tensor) (w : weights) : weights :=
  mkWeights (f (wE w)) (f (ww1 w)) (f (wb1 w)) (f (ww2 w)) (f (wb2 w)).

Definition weights_zip (f : tensor -> tensor -> tensor) (w g : weights)
    : weights :=
  mkWeights (f (wE w) (wE g)) (f (ww1 w) (ww1 g)) (f (wb1 w) (wb1 g))
            (f (ww2 w) (ww2 g)) (f (wb2 w) (wb2 g)).

Section Network.

(** What the script takes from PyTorch and SciPy as given:
    - [normal_draw fan_in fan_out n], the [n]-th variate of torch's
      generator, scaled by [xavier_normal_] for these fans;
    - [tanh_f], [exp_f] and [log_f], the float32 kernels;
    - [torch_dot] and [torch_norm], the reductions of [torch.dot] and
      [torch.norm]: the order in which they add and the precision they
      accumulate in are the library's;
    - [differentiate loss w], reverse-mode differentiation: the gradient of
      [loss] at [w], one tensor per parameter and of its shape;
    - [spearmanr], with the type of what it returns. *)
Variable normal_draw : nat -> nat -> nat -> float.
Variables tanh_f exp_f log_f : float -> float.
Variable torch_dot : list float -> list float -> float.
Variable torch_norm : list float -> float.
Variable differentiate : (weights -> result float) -> weights -> weights.
Variable SpearmanrResult : Type.
Variable spearmanr : list float -> list float -> result SpearmanrResult.

(** [torch.randn] draws the tensor and [xavier_normal_] draws it again,
    with standard deviation [sqrt(2 / (fan_in + fan_out))], a division
    by zero when both fans are zero.  [g] counts the variates drawn. *)
Definition initialize_parameter (parameter_size : nat * nat) (g : nat)
    : result (tensor * nat) :=
  let (r, c) := parameter_size in
  let g := g + r * c in
  let fan_in := c in
  let fan_out := r in
  if fan_in + fan_out =? 0 then Raise ZeroDivisionError
  else
    Ok (mkTensor r c
          (tabulate r c (fun i j => normal_draw fan_in fan_out (g + i * c + j))),
        g + r * c).

(** [NLM.__init__]; [k] is not used. *)
Definition NLM_init (vocabulary_size embedding_length k : nat) (g : nat)
    : result (NLM * nat) :=
  Eg <- initialize_parameter (embedding_length, vocabulary_size) g ;;
  w1g <- initialize_parameter (256, 256) (snd Eg) ;;
  b1g <- initialize_parameter (256, 1) (snd w1g) ;;
  w2g <- initialize_parameter (vocabulary_size, 256) (snd b1g) ;;
  b2g <- initialize_parameter (vocabulary_size, 1) (snd w2g) ;;
  Ok (mkNLM embedding_length
            (mkWeights (fst Eg) (fst w1g) (fst b1g) (fst w2g) (fst b2g))
            None,
      snd b2g).

(** The loop of [forward_pass] that builds [X]; [index is 0] holds of the
    integer zero only. *)
Fixpoint embed_context (Emat : tensor) (X : tensor)
    (context : list (nat * tensor)) : result tensor :=
  match context with
  | [] => Ok X
  | (index, c) :: rest =>
      let c := transpose c in
      if index =? 0 then
        ej <- matmul Emat c ;;
        embed_context Emat ej rest
      else
        ej <- matmul Emat c ;;
        X <- cat0 X ej ;;
        embed_context Emat X rest
  end.

Definition fmax (a b : float) : float := if SFltb a b then b else a.

(** [log_softmax] of one column: the maximum is subtracted before the
    exponentials are summed. *)
Definition log_softmax_list (xs : list float) : list float :=
  let m := fold_left fmax xs (S754_infinity true) in
  let shifted := map (fun x => fsub x m) xs in
  let total := fold_left fadd (map exp_f shifted) fzero in
  map (fun d => fsub d (log_f total)) shifted.

(** [torch.nn.functional.log_softmax(a, dim=0)] *)
Definition log_softmax0 (a : tensor) : tensor :=
  let cols := map (fun j => log_softmax_list (column a j)) (seq 0 (ncols a)) in
  mkTensor (nrows a) (ncols a)
    (tabulate (nrows a) (ncols a) (fun i j => nth i (nth j cols []) fzero)).

(** [forward_pass] as a function of the parameter values. *)
Definition forward (embedding_length : nat) (w : weights)
    (context : list tensor) : result tensor :=
  let X := mkTensor embedding_length 0 (repeat [] embedding_length) in
  X <- embed_context (wE w) X (enumerate context) ;;
  h_a <- matmul (ww1 w) X ;;
  h_a <- tensor_add h_a (wb1 w) ;;
  let h := tensor_map tanh_f h_a in
  y_a <- matmul (ww2 w) h ;;
  y_a <- tensor_add y_a (wb2 w) ;;
  let y_hat := log_softmax0 y_a in
  Ok y_hat.

Definition forward_pass (self : NLM) (context : list tensor) : result tensor :=
  forward (embedding_length self) (params self) context.

(** ** Training *)

(** [loss = -log_y[word_idx]]; [backward()] wants a single element. *)
Definition loss_of (embedding_length : nat) (word_context : training_pair)
    (w : weights) : result float :=
  log_y <- forward embedding_length w (snd word_context) ;;
  row <- row_at log_y (fst word_context) ;;
  match map fneg row with
  | [loss] => Ok loss
  | _ => Raise RuntimeError
  end.

(** [backward()] adds the gradient to each [.grad], or sets it when it is
    [None]. *)
Definition accumulate (old : option weights) (g : weights) : weights :=
  match old with
  | None => g
  | Some acc => weights_zip (tensor_zip fadd) acc g
  end.

(** [p -= learning_rate * p.grad] *)
Definition descend (learning_rate : float) (p g : tensor) : tensor :=
  tensor_zip fsub p (tensor_map (fmul learning_rate) g).

(** [p.grad.zero_()] *)
Definition zero_ (g : tensor) : tensor := tensor_map (fun _ => fzero) g.

(** The body of the loop of [train]. *)
Definition train_step (learning_rate : float) (model : NLM)
    (word_context : training_pair) : result NLM :=
  let loss := loss_of (embedding_length model) word_context in
  _ <- loss (params model) ;;
  let g := accumulate (grads model) (differentiate loss (params model)) in
  Ok (mkNLM (embedding_length model)
            (weights_zip (descend learning_rate) (params model) g)
            (Some (weights_map zero_ g))).

(** The loop of [train] over the pairs the generator yields: the model
    after each example, and the exception that ends the loop if any. *)
Fixpoint train_loop (learning_rate : float) (model : NLM)
    (pairs : list training_pair) : generated NLM :=
  match pairs with
  | [] => ([], None)
  | word_context :: rest =>
      match train_step learning_rate model word_context with
      | Ok model' =>
          let (history, stop) := train_loop learning_rate model' rest in
          (model' :: history, stop)
      | Raise e => ([], Some e)
      end
  end.

(** What a call of [train] leaves behind: the caller's corpus, the random
    tape, the model after each example it processed (the last one is the
    model at the end) and the exception that ended it, if any. *)
Record trained : Type := mkTrained {
  train_corpus : list (list string);
  train_tape : rng;
  train_history : list NLM;
  train_stop : option exn
}.

Definition train (model : NLM) (corpus : list (list string))
    (vocabulary : Dict.t nat) (learning_rate : float) (tape : rng)
    : trained :=
  let s := generate_training_pairs corpus vocabulary 4 tape in
  let (history, stop) := train_loop learning_rate model (fst (yielded s)) in
  mkTrained (corpus_after s) (tape_after s) history
            (match stop with
             | Some e => Some e
             | None => snd (yielded s)
             end).

(** ** Evaluation *)

(** [torch.dot] of two one-dimensional tensors: the sizes must agree. *)
Definition dot (u v : list float) : result float :=
  if length u =? length v then Ok (torch_dot u v) else Raise RuntimeError.

(** The division and the product are those of two float32 scalars. *)
Definition get_cosine_similarity (embedding1 embedding2 : list float)
    : result float :=
  d <- dot embedding1 embedding2 ;;
  let cosine_similarity :=
    fdiv d (fmul (torch_norm embedding1) (torch_norm embedding2)) in
  Ok cosine_similarity.

(** The index a word of a test pair resolves to. *)
Definition word_index (vocabulary : Dict.t nat) (w : string) : result nat :=
  if negb (Dict.contains vocabulary w) then Dict.lookup vocabulary "<unk>"
  else Dict.lookup vocabulary w.

Definition pair_similarity (embedding_matrix : tensor)
    (vocabulary : Dict.t nat) (pairs : string * string) : result float :=
  word_one_index <- word_index vocabulary (fst pairs) ;;
  word_two_index <- word_index vocabulary (snd pairs) ;;
  e_one <- column_at embedding_matrix word_one_index ;;
  e_two <- column_at embedding_matrix word_two_index ;;
  get_cosine_similarity e_one e_two.

Definition evaluate_wordsim (word_pairs : list (string * string))
    (gold_scores : list float) (embedding_matrix : tensor)
    (vocabulary : Dict.t nat) : result SpearmanrResult :=
  similarity_list <- mapM (pair_similarity embedding_matrix vocabulary)
                          word_pairs ;;
  spearmanr similarity_list gold_scores.

End Network.

(** ** Notions the properties are stated with *)

(** How many times [w] occurs in a list of words. *)
Definition occurrences (w : string) (ws : list string) : nat :=
  length (filter (String.eqb w) ws).

(** The words of a corpus, sentence after sentence. *)
Definition words_of (corpus : list (list string)) : list string :=
  concat corpus.

(** The distinct words of a corpus. *)
Definition distinct_words (corpus : list (list string)) : list string :=
  nodup string_dec (words_of corpus).

(** The last position of [w] in [l]. *)
Fixpoint find_last (w : string) (l : list string) : option nat :=
  match l with
  | [] => None
  | x :: l' =>
      match find_last w l' with
      | Some i => Some (S i)
      | None => if (x =? w)%string then Some 0 else None
      end
  end.

(** What rare-word replacement is to do with one word. *)
Definition unk_if_single (ws : list string) (w : string) : string :=
  if occurrences w ws =? 1 then "<unk>" else w.

(** No sentence holds a literal boundary marker; some sentence does. *)
Definition no_boundary_marker (corpus : list (list string)) : Prop :=
  forall sent, In sent corpus -> ~ In "<s>" sent /\ ~ In "</s>" sent.

Definition some_boundary_marker (corpus : list (list string)) : Prop :=
  exists sent, In sent corpus /\ (In "<s>" sent \/ In "</s>" sent).

(** The index of a word that has one. *)
Definition index_of (vocabulary : Dict.t nat) (w : string) : nat :=
  match Dict.get vocabulary w with
  | Some i => i
  | None => 0
  end.

(** The one-hot row vector of length [n] for index [i]. *)
Definition one_hot (n i : nat) : tensor :=
  mkTensor 1 n [list_set (repeat fzero n) i fone].

(** The [k] tokens before position [index], the oldest first. *)
Definition preceding (k : nat) (sent : list string) (index : nat)
    : list string :=
  map (fun d => nth (index - k + d) sent "") (seq 0 k).

(** The pair the sampler is to yield for position [index] of a padded
    sentence. *)
Definition expected_pair (vocabulary : Dict.t nat) (k : nat)
    (sent : list string) (index : nat) : training_pair :=
  (index_of vocabulary (nth index sent ""),
   map (fun w => one_hot (Dict.len vocabulary) (index_of vocabulary w))
       (preceding k sent index)).

(** Every word of [ws] has an index, and one a one-hot vector has room
    for. *)
Definition covers (vocabulary : Dict.t nat) (ws : list string) : Prop :=
  forall w, In w ws ->
    exists i, Dict.get vocabulary w = Some i /\ i < Dict.len vocabulary.

(** The positions of a padded sentence that do not hold a start marker. *)
Definition target_positions (sent : list string) : list nat :=
  filter (fun i => negb (nth i sent "" =? "<s>")%string) (seq 0 (length sent)).

(** A float that is a zero of either sign, or a NaN. *)
Definition zero_or_nan (x : float) : Prop :=
  (exists s, x = S754_zero s) \/ x = S754_nan.

Definition is_zero (x : float) : Prop := exists s, x = S754_zero s.

Definition is_infinity (x : float) : Prop := exists s, x = S754_infinity s.

(** The index a word of a test pair is to resolve to, [unk] being the index
    of the unknown-word marker. *)
Definition resolve (vocabulary : Dict.t nat) (unk : nat) (w : string) : nat :=
  match Dict.get vocabulary w with
  | Some i => i
  | None => unk
  end.

(** [dot(u, v) / (norm(u) * norm(v))], for the reductions [dot] and [norm]
    of the library. *)
Definition cosine (dot : list float -> list float -> float)
    (norm : list float -> float) (u v : list float) : float :=
  fdiv (dot u v) (fmul (norm u) (norm v)).

(** The shape of a tensor. *)
Definition has_shape (a : tensor) (r c : nat) : Prop :=
  nrows a = r /\ ncols a = c.

(** The shapes [NLM.__init__] gives the five parameters. *)
Definition model_shapes (w : weights) (embedding_length vocabulary_size : nat)
    : Prop :=
  has_shape (wE w) embedding_length vocabulary_size /\
  has_shape (ww1 w) 256 256 /\
  has_shape (wb1 w) 256 1 /\
  has_shape (ww2 w) vocabulary_size 256 /\
  has_shape (wb2 w) vocabulary_size 1.

(** Every entry of a tensor is zero. *)
Definition all_zero (a : tensor) : Prop :=
  Forall (Forall (fun x => x = fzero)) (entries a).

Definition weights_all (P : tensor -> Prop) (w : weights) : Prop :=
  P (wE w) /\ P (ww1 w) /\ P (wb1 w) /\ P (ww2 w) /\ P (wb2 w).

(** The gradient accumulators hold nothing from an earlier example: they are
    unset or all zero. *)
Definition accumulators_clear (m : NLM) : Prop :=
  match grads m with
  | None => True
  | Some acc => weights_all all_zero acc
  end.

(** The gradient accumulators are set, and all zero. *)
Definition accumulators_zero (m : NLM) : Prop :=
  exists acc, grads m = Some acc /\ weights_all all_zero acc.

(** [p' = p - learning_rate * g], entry by entry. *)
Definition descended (learning_rate : float) (p g p' : tensor) : Prop :=
  shape p' = shape p /\
  entries p'
  = zip_with (zip_with (fun x d => fsub x (fmul learning_rate d)))
             (entries p) (entries g).

(** A pair the network of the script can take: a target below the
    vocabulary size and four one-hot row vectors. *)
Definition pair_fits (vocabulary_size : nat) (p : training_pair) : Prop :=
  fst p < vocabulary_size /\
  length (snd p) = 4 /\
  Forall (fun c => has_shape c 1 vocabulary_size) (snd p).

Section TrainingNotions.

Variables tanh_f exp_f log_f : float -> float.
Variable differentiate : (weights -> result float) -> weights -> weights.

(** One example of online gradient descent, in the words of the
    specification: the loss is minus the log-probability of the target;
    the gradient of that loss alone, entered into clear accumulators, is
    what every parameter descends along; the accumulators are zero
    afterwards. *)
Definition sgd_step (learning_rate : float) (m : NLM) (pair : training_pair)
    (m' : NLM) : Prop :=
  exists log_y x,
    forward_pass tanh_f exp_f log_f m (snd pair) = Ok log_y /\
    row_at log_y (fst pair) = Ok [x] /\
    let loss := loss_of tanh_f exp_f log_f (embedding_length m) pair in
    loss (params m) = Ok (fneg x) /\
    let fresh := differentiate loss (params m) in
    exists g,
      match grads m with
      | None => g = fresh
      | Some zero =>
          weights_all all_zero zero /\
          g = weights_zip (tensor_zip fadd) zero fresh
      end /\
      embedding_length m' = embedding_length m /\
      descended learning_rate (wE (params m)) (wE g) (wE (params m')) /\
      descended learning_rate (ww1 (params m)) (ww1 g) (ww1 (params m')) /\
      descended learning_rate (wb1 (params m)) (wb1 g) (wb1 (params m')) /\
      descended learning_rate (ww2 (params m)) (ww2 g) (ww2 (params m')) /\
      descended learning_rate (wb2 (params m)) (wb2 g) (wb2 (params m')) /\
      accumulators_zero m'.

(** A run of such steps over a sequence of pairs, one step per pair in
    order, to the end of the sequence or to the pair whose loss raises:
    the models after each step, and the exception if any. *)
Inductive sgd_run (learning_rate : float)
    : NLM -> list training_pair -> list NLM -> option exn -> Prop :=
| sgd_run_done (m : NLM) :
    sgd_run learning_rate m [] [] None
| sgd_run_raise (m : NLM) (pair : training_pair)
    (rest : list training_pair) (e : exn) :
    loss_of tanh_f exp_f log_f (embedding_length m) pair (params m)
    = Raise e ->
    sgd_run learning_rate m (pair :: rest) [] (Some e)
| sgd_run_step (m m' : NLM) (pair : training_pair)
    (rest : list training_pair) (history : list NLM) (stop : option exn) :
    sgd_step learning_rate m pair m' ->
    sgd_run learning_rate m' rest history stop ->
    sgd_run learning_rate m (pair :: rest) (m' :: history) stop.

End TrainingNotions.

(** The sum of the counts of a dictionary. *)
Definition total_count (d : Dict.t nat) : nat := list_sum (map snd d).

(** What [replace_rare_words] writes for a word, by the count a dictionary
    holds for it. *)
Definition rewrite_word (word_counts : Dict.t nat) (w : string) : string :=
  match Dict.get word_counts w with
  | Some c => if c =? 1 then "<unk>" else w
  | None => w
  end.

(** The first word, in reading order, that a dictionary has no entry for. *)
Definition first_missing (word_counts : Dict.t nat) (ws : list string)
    : option string :=
  find (fun w => negb (Dict.contains word_counts w)) ws.

(** Every index of the vocabulary is below its size. *)
Definition indices_in_range (vocabulary : Dict.t nat) : Prop :=
  forall w i, Dict.get vocabulary w = Some i -> i < Dict.len vocabulary.

(** A float that is a number of the binary32 format: a zero or a finite
    value with a mantissa and an exponent in range; no infinity, no NaN. *)
Definition finite_float (x : float) : Prop :=
  match x with
  | S754_zero _ => True
  | S754_finite _ m e => bounded prec emax m e = true
  | _ => False
  end.

(** Equal, or both a zero (of whatever sign). *)
Definition same_value (x y : float) : Prop :=
  x = y \/ (is_zero x /\ is_zero y).

(** A relation that holds of each of the five tensors of two sets of
    weights. *)
Definition weights_rel (R : tensor -> tensor -> Prop) (w g : weights) : Prop :=
  R (wE w) (wE g) /\ R (ww1 w) (ww1 g) /\ R (wb1 w) (wb1 g) /\
  R (ww2 w) (ww2 g) /\ R (wb2 w) (wb2 g).

Definition same_shape (a b : tensor) : Prop := shape a = shape b.

(** The accumulators, when set, have the shapes of the parameters and as
    many entries. *)
Definition grads_fit (m : NLM) : Prop :=
  match grads m with
  | None => True
  | Some acc =>
      weights_rel same_shape acc (params m) /\ weights_all well_shaped acc
  end.

(** The contract of reverse-mode differentiation: a gradient has the shape
    of its parameter, and as many entries. *)
Definition gradient_contract
    (differentiate : (weights -> result float) -> weights -> weights) : Prop :=
  forall loss w,
    weights_all well_shaped w ->
    weights_rel same_shape (differentiate loss w) w /\
    weights_all well_shaped (differentiate loss w).

(** [replace_rare_words] returns nothing: it writes into the sentences as
    it reads them, and what it has written stays when a lookup raises.  The
    corpus the call leaves behind, with the exception that ended it if any,
    for [word_counts] a plain [dict] and sentences that are separate
    lists. *)
Fixpoint replace_in_sentence (word_counts : Dict.t nat) (sent : list string)
    : list string * option exn :=
  match sent with
  | [] => ([], None)
  | word :: rest =>
      match Dict.lookup word_counts word with
      | Raise e => (word :: rest, Some e)
      | Ok c =>
          let (rest, stop) := replace_in_sentence word_counts rest in
          ((if c =? 1 then "<unk>" else word) :: rest, stop)
      end
  end.

Fixpoint replace_rare_words_in_place (corpus : list (list string))
    (word_counts : Dict.t nat) : list (list string) * option exn :=
  match corpus with
  | [] => ([], None)
  | sent :: rest =>
      match replace_in_sentence word_counts sent with
      | (sent, Some e) => (sent :: rest, Some e)
      | (sent, None) =>
          let (rest, stop) := replace_rare_words_in_place rest word_counts in
          (sent :: rest, stop)
      end
  end.


(** [1e-5] as a float32 *)
Definition tolerance : float := S754_finite false 10995116 (-40).



(** [20.0], and the largest float32. *)
Definition twenty : float := S754_finite false 10485760 (-19).
Definition max_float : float := S754_finite false 16777215 104.


(** * Properties *)

Example rare_words_example :
  replace_rare_words [["a"; "a"; "b"]] (get_word_counts [["a"; "a"; "b"]])
  = Ok [["a"; "a"; "<unk>"]].
Proof. reflexivity. Qed.

Example vocabulary_example :
  build_vocabulary [["the"; "cat"; "the"; "cat"; "sat"]]
  = Ok ([["the"; "cat"; "the"; "cat"; "<unk>"]],
        [("</s>", 0); ("<s>", 1); ("<unk>", 2); ("cat", 3); ("the", 4)]).
Proof. reflexivity. Qed.

Example sampler_example :
  let v := [("</s>", 0); ("<s>", 1); ("cat", 2); ("the", 3)] in
  let oh i := mkTensor 1 4 [list_set (repeat fzero 4) i fone] in
  yielded (generate_training_pairs [["the"; "cat"]] v 2 [])
  = ([(3, [oh 1; oh 1]); (2, [oh 1; oh 3]); (0, [oh 3; oh 2])], None).
Proof. reflexivity. Qed.

Example fone_is_one : fone = SFone prec emax.
Proof. reflexivity. Qed.

Example tolerance_is_1e5 :
  tolerance = fdiv fone (binary_normalize prec emax 100000 0 false).
Proof. reflexivity. Qed.

Example twenty_is_20 : twenty = binary_normalize prec emax 20 0 false.
Proof. reflexivity. Qed.

Example max_float_overflows :
  finite_float max_float /\ fadd max_float max_float = S754_infinity false.
Proof. split; reflexivity. Qed.

(** ** Results and loops *)

Lemma mapM_pure {A B : Type} (f : A -> result B) (g : A -> B) (l : list A) :
  (forall a, In a l -> f a = Ok (g a)) -> mapM f l = Ok (map g l).
Proof.
  induction l as [|a l IH]; intros Hf; simpl.
  - reflexivity.
  - rewrite (Hf a) by (left; reflexivity). simpl.
    rewrite IH by (intros b Hb; apply Hf; right; exact Hb).
    reflexivity.
Qed.

Lemma mapM_map {A B C : Type} (f : B -> result C) (g : A -> B) (l : list A) :
  mapM f (map g l) = mapM (fun a => f (g a)) l.
Proof.
  induction l as [|a l IH]; simpl; [reflexivity|]. rewrite IH. reflexivity.
Qed.

Lemma mapM_length {A B : Type} (f : A -> result B) (l : list A) (bs : list B) :
  mapM f l = Ok bs -> length bs = length l.
Proof.
  revert bs. induction l as [|a l IH]; intros bs; simpl.
  - intros [= <-]. reflexivity.
  - destruct (f a) as [b|e]; simpl; [|discriminate].
    destruct (mapM f l) as [bs'|e]; simpl; [|discriminate].
    intros [= <-]. simpl. f_equal. apply IH. reflexivity.
Qed.

(** ** Dictionaries *)

Module DictFacts.
Section WithValue.
Context {V : Type}.
Implicit Types (d : Dict.t V) (k : string) (v : V).

Lemma get_set_same d k v : Dict.get (Dict.set d k v) k = Some v.
Proof.
  induction d as [|[k' v'] d IH]; simpl.
  - rewrite String.eqb_refl. reflexivity.
  - destruct (String.eqb_spec k' k) as [->|Hne]; simpl.
    + rewrite String.eqb_refl. reflexivity.
    + destruct (String.eqb_spec k' k); [contradiction|exact IH].
Qed.

Lemma get_set_other d k k' v :
  k <> k' -> Dict.get (Dict.set d k v) k' = Dict.get d k'.
Proof.
  intros Hne. induction d as [|[k0 v0] d IH]; simpl.
  - destruct (String.eqb_spec k k'); [contradiction|reflexivity].
  - destruct (String.eqb_spec k0 k) as [->|Hk]; simpl.
    + destruct (String.eqb_spec k k'); [contradiction|reflexivity].
    + destruct (String.eqb_spec k0 k'); [reflexivity|exact IH].
Qed.

Lemma get_set d k k' v :
  Dict.get (Dict.set d k v) k'
  = if (k =? k')%string then Some v else Dict.get d k'.
Proof.
  destruct (String.eqb_spec k k') as [->|Hne].
  - apply get_set_same.
  - apply get_set_other. exact Hne.
Qed.

Lemma get_none_iff d k : Dict.get d k = None <-> ~ In k (Dict.keys d).
Proof.
  induction d as [|[k' v'] d IH]; simpl.
  - tauto.
  - destruct (String.eqb_spec k' k) as [->|Hne].
    + split; [discriminate|]. intros H. exfalso. apply H. left. reflexivity.
    + rewrite IH. tauto.
Qed.

Lemma contains_iff d k : Dict.contains d k = true <-> In k (Dict.keys d).
Proof.
  unfold Dict.contains. destruct (Dict.get d k) as [v|] eqn:Hg.
  - split; [intros _|reflexivity].
    destruct (in_dec string_dec k (Dict.keys d)) as [Hin|Hout]; [exact Hin|].
    apply get_none_iff in Hout. congruence.
  - split; [discriminate|]. intros Hin.
    apply get_none_iff in Hg. contradiction.
Qed.

Lemma keys_set d k v :
  Dict.keys (Dict.set d k v)
  = if Dict.contains d k then Dict.keys d else Dict.keys d ++ [k].
Proof.
  unfold Dict.contains.
  induction d as [|[k' v'] d IH]; simpl.
  - reflexivity.
  - destruct (String.eqb_spec k' k) as [->|Hne]; simpl.
    + reflexivity.
    + rewrite IH. destruct (Dict.get d k); reflexivity.
Qed.

Lemma in_keys_set d k v k' :
  In k' (Dict.keys (Dict.set d k v)) <-> k' = k \/ In k' (Dict.keys d).
Proof.
  rewrite keys_set. destruct (Dict.contains d k) eqn:Hc.
  - apply contains_iff in Hc. split; [tauto|].
    intros [->|H]; assumption.
  - rewrite in_app_iff. simpl. intuition congruence.
Qed.

Lemma NoDup_keys_set d k v :
  NoDup (Dict.keys d) -> NoDup (Dict.keys (Dict.set d k v)).
Proof.
  intros Hnd. rewrite keys_set. destruct (Dict.contains d k) eqn:Hc.
  - exact Hnd.
  - apply NoDup_app; [exact Hnd|repeat constructor; simpl; tauto|].
    intros x Hx [<-|[]].
    apply contains_iff in Hx. congruence.
Qed.
End WithValue.
End DictFacts.

(** ** Word counts *)

Lemma count_word_get (d : Dict.t nat) (w k : string) :
  Dict.get (count_word d w) k
  = if (w =? k)%string
    then Some (match Dict.get d w with Some c => c | None => 0 end + 1)
    else Dict.get d k.
Proof.
  unfold count_word, Dict.contains.
  destruct (Dict.get d w) as [c|] eqn:Hg; simpl; apply DictFacts.get_set.
Qed.

Lemma count_word_keys (d : Dict.t nat) (w k : string) :
  In k (Dict.keys (count_word d w)) <-> k = w \/ In k (Dict.keys d).
Proof.
  unfold count_word, Dict.contains.
  destruct (Dict.get d w) as [c|] eqn:Hg; simpl; apply DictFacts.in_keys_set.
Qed.

Lemma count_word_NoDup (d : Dict.t nat) (w : string) :
  NoDup (Dict.keys d) -> NoDup (Dict.keys (count_word d w)).
Proof.
  unfold count_word, Dict.contains.
  destruct (Dict.get d w) as [c|] eqn:Hg; simpl; apply DictFacts.NoDup_keys_set.
Qed.

Lemma get_word_counts_concat (corpus : list (list string)) (d : Dict.t nat) :
  fold_left (fun d sent => fold_left count_word sent d) corpus d
  = fold_left count_word (words_of corpus) d.
Proof.
  revert d. induction corpus as [|sent corpus IH]; intros d; simpl.
  - reflexivity.
  - unfold words_of in *. simpl. rewrite fold_left_app. apply IH.
Qed.

Lemma occurrences_cons (w x : string) (ws : list string) :
  occurrences w (x :: ws)
  = (if (w =? x)%string then 1 else 0) + occurrences w ws.
Proof.
  unfold occurrences. simpl. destruct (w =? x)%string; reflexivity.
Qed.

Lemma occurrences_zero_iff (w : string) (ws : list string) :
  occurrences w ws = 0 <-> ~ In w ws.
Proof.
  induction ws as [|x ws IH].
  - simpl. tauto.
  - rewrite occurrences_cons. simpl.
    destruct (String.eqb_spec w x) as [->|Hne].
    + split; [discriminate|]. intros H. exfalso. apply H. left. reflexivity.
    + simpl. rewrite IH. intuition congruence.
Qed.

(** The count the dictionary holds for a word after a run of the counting
    loop over [ws]. *)
Lemma fold_count_word_get (ws : list string) (d : Dict.t nat) (k : string) :
  Dict.get (fold_left count_word ws d) k
  = match Dict.get d k with
    | Some c => Some (c + occurrences k ws)
    | None => if occurrences k ws =? 0 then None else Some (occurrences k ws)
    end.
Proof.
  revert d. induction ws as [|x ws IH]; intros d; simpl.
  - unfold occurrences. simpl. destruct (Dict.get d k); [f_equal; lia|reflexivity].
  - rewrite IH, count_word_get, occurrences_cons, String.eqb_sym.
    destruct (String.eqb_spec k x) as [->|Hne].
    + destruct (Dict.get d x) as [c|]; simpl; f_equal; lia.
    + simpl. reflexivity.
Qed.

Lemma get_word_counts_get (corpus : list (list string)) (k : string) :
  Dict.get (get_word_counts corpus) k
  = if occurrences k (words_of corpus) =? 0 then None
    else Some (occurrences k (words_of corpus)).
Proof.
  unfold get_word_counts. rewrite get_word_counts_concat, fold_count_word_get.
  reflexivity.
Qed.

Lemma fold_count_word_keys (ws : list string) (d : Dict.t nat) (k : string) :
  In k (Dict.keys (fold_left count_word ws d)) <-> In k ws \/ In k (Dict.keys d).
Proof.
  revert d. induction ws as [|x ws IH]; intros d; simpl.
  - tauto.
  - rewrite IH, count_word_keys. intuition congruence.
Qed.

Lemma fold_count_word_NoDup (ws : list string) (d : Dict.t nat) :
  NoDup (Dict.keys d) -> NoDup (Dict.keys (fold_left count_word ws d)).
Proof.
  revert d. induction ws as [|x ws IH]; intros d Hd; simpl.
  - exact Hd.
  - apply IH, count_word_NoDup, Hd.
Qed.

Lemma get_word_counts_keys (corpus : list (list string)) (k : string) :
  In k (Dict.keys (get_word_counts corpus)) <-> In k (words_of corpus).
Proof.
  unfold get_word_counts.
  rewrite get_word_counts_concat, fold_count_word_keys. simpl. tauto.
Qed.

Lemma get_word_counts_NoDup (corpus : list (list string)) :
  NoDup (Dict.keys (get_word_counts corpus)).
Proof.
  unfold get_word_counts. rewrite get_word_counts_concat.
  apply fold_count_word_NoDup. constructor.
Qed.

(** ** Rare words *)

Lemma replace_word_counts (corpus : list (list string)) (w : string) :
  In w (words_of corpus) ->
  replace_word (get_word_counts corpus) w
  = Ok (unk_if_single (words_of corpus) w).
Proof.
  intros Hin. unfold replace_word, Dict.lookup, unk_if_single.
  rewrite get_word_counts_get.
  destruct (occurrences w (words_of corpus) =? 0) eqn:Hz.
  - apply Nat.eqb_eq, occurrences_zero_iff in Hz. contradiction.
  - reflexivity.
Qed.

Lemma replace_rare_words_total (corpus : list (list string)) :
  replace_rare_words corpus (get_word_counts corpus)
  = Ok (map (map (unk_if_single (words_of corpus))) corpus).
Proof.
  unfold replace_rare_words.
  apply mapM_pure. intros sent Hsent.
  apply mapM_pure. intros w Hw.
  apply replace_word_counts. unfold words_of.
  apply in_concat. exists sent. split; assumption.
Qed.

(** C5.  Run on a corpus with the counts of that corpus, [replace_rare_words]
    raises nothing and rewrites every occurrence of every word that occurs
    exactly once in the corpus (that is, whose count is one) to ["<unk>"],
    leaving every other word as it is; [[["a","a","b"]]] becomes
    [[["a","a","<unk>"]]]. *)
Theorem replace_rare_words_spec (corpus : list (list string)) :
  (forall w, In w (words_of corpus) ->
     Dict.get (get_word_counts corpus) w
     = Some (occurrences w (words_of corpus))) /\
  replace_rare_words corpus (get_word_counts corpus)
  = Ok (map (map (fun w =>
                    if occurrences w (words_of corpus) =? 1
                    then "<unk>" else w)) corpus) /\
  replace_rare_words [["a"; "a"; "b"]] (get_word_counts [["a"; "a"; "b"]])
  = Ok [["a"; "a"; "<unk>"]].
Proof.
  split; [|split].
  - intros w Hin. rewrite get_word_counts_get.
    destruct (occurrences w (words_of corpus) =? 0) eqn:Hz; [|reflexivity].
    apply Nat.eqb_eq, occurrences_zero_iff in Hz. contradiction.
  - apply replace_rare_words_total.
  - reflexivity.
Qed.

(** ** The order of the vocabulary *)

Lemma string_compare_refl (a : string) : String.compare a a = Eq.
Proof.
  induction a as [|x a IH]; simpl; [reflexivity|].
  unfold Ascii.compare. rewrite N.compare_refl. exact IH.
Qed.

Lemma string_compare_le_trans (a b c : string) :
  String.compare a b <> Gt -> String.compare b c <> Gt ->
  String.compare a c <> Gt.
Proof.
  revert b c. induction a as [|x a IH]; intros [|y b] [|z c]; simpl;
    try congruence.
  unfold Ascii.compare.
  destruct (N.compare_spec (N_of_ascii x) (N_of_ascii y)) as [Exy|Lxy|Gxy];
    destruct (N.compare_spec (N_of_ascii y) (N_of_ascii z)) as [Eyz|Lyz|Gyz];
    destruct (N.compare_spec (N_of_ascii x) (N_of_ascii z)) as [Exz|Lxz|Gxz];
    try congruence; try lia.
  apply IH.
Qed.

Lemma string_leb_trans (a b c : string) :
  String.leb a b = true -> String.leb b c = true -> String.leb a c = true.
Proof.
  unfold String.leb. intros Hab Hbc.
  pose proof (string_compare_le_trans a b c) as H.
  destruct (String.compare a b), (String.compare b c), (String.compare a c);
    try reflexivity; try discriminate; exfalso; apply H; congruence.
Qed.

Lemma string_ltb_leb (a b : string) :
  String.ltb a b = true <-> String.leb a b = true /\ a <> b.
Proof.
  unfold String.ltb, String.leb. split.
  - intros H. split.
    + destruct (String.compare a b); [reflexivity|reflexivity|discriminate].
    + intros ->. rewrite string_compare_refl in H. discriminate.
  - intros [H Hne]. destruct (String.compare a b) eqn:Hc;
      [|reflexivity|discriminate].
    apply String.compare_eq_iff in Hc. contradiction.
Qed.

Lemma sorted_vocabulary_list (d : Dict.t nat) :
  StronglySorted (fun a b => String.leb a b = true) (vocabulary_list d).
Proof.
  unfold vocabulary_list.
  apply (StringSort.StronglySorted_sort
           (Dict.keys d ++ ["<s>"; "</s>"])).
  intros a b c. apply string_leb_trans.
Qed.

Lemma permuted_vocabulary_list (d : Dict.t nat) :
  Permutation (Dict.keys d ++ ["<s>"; "</s>"]) (vocabulary_list d).
Proof. apply StringSort.Permuted_sort. Qed.

Lemma StronglySorted_nth {A : Type} (R : A -> A -> Prop) (l : list A) :
  StronglySorted R l ->
  forall i j a b, i < j ->
    nth_error l i = Some a -> nth_error l j = Some b -> R a b.
Proof.
  induction 1 as [|x l Hs IH Hall]; intros i j a b Hij Hi Hj.
  - destruct i; discriminate.
  - destruct j as [|j]; [lia|]. simpl in Hj.
    destruct i as [|i]; simpl in Hi.
    + injection Hi as <-. rewrite Forall_forall in Hall.
      apply Hall. eapply nth_error_In. exact Hj.
    + apply (IH i j); [lia|assumption|assumption].
Qed.

(** ** The word-to-index dictionary *)

Lemma find_last_none_iff (w : string) (l : list string) :
  find_last w l = None <-> ~ In w l.
Proof.
  induction l as [|x l IH]; simpl.
  - tauto.
  - destruct (find_last w l) as [i|].
    + split; [discriminate|]. intros H. exfalso.
      assert (Hn : ~ In w l) by tauto. apply IH in Hn. discriminate.
    + destruct (String.eqb_spec x w) as [->|Hne].
      * split; [discriminate|]. intros H. exfalso. apply H. left. reflexivity.
      * split; [intros _|reflexivity]. intros [Hx|Hin]; [contradiction|].
        apply IH in Hin; [exact Hin|reflexivity].
Qed.

Lemma find_last_nth (w : string) (l : list string) (i : nat) :
  find_last w l = Some i -> nth_error l i = Some w.
Proof.
  revert i. induction l as [|x l IH]; intros i; simpl.
  - discriminate.
  - destruct (find_last w l) as [j|].
    + intros [= <-]. simpl. apply IH. reflexivity.
    + destruct (String.eqb_spec x w) as [->|Hne]; [|discriminate].
      intros [= <-]. reflexivity.
Qed.

Lemma find_last_NoDup (w : string) (l : list string) (i : nat) :
  NoDup l -> nth_error l i = Some w -> find_last w l = Some i.
Proof.
  intros Hnd. revert i. induction Hnd as [|x l Hx Hnd IH]; intros i Hi.
  - destruct i; discriminate.
  - simpl. destruct i as [|i]; simpl in Hi.
    + injection Hi as ->.
      apply find_last_none_iff in Hx. rewrite Hx, String.eqb_refl. reflexivity.
    + rewrite (IH i Hi). reflexivity.
Qed.

Lemma index_words_get (l : list string) (s : nat) (d : Dict.t nat) (w : string) :
  Dict.get (index_words s l d) w
  = match find_last w l with
    | Some i => Some (s + i)
    | None => Dict.get d w
    end.
Proof.
  revert s d. induction l as [|x l IH]; intros s d.
  - reflexivity.
  - unfold index_words in *. simpl. rewrite IH.
    destruct (find_last w l) as [i|].
    + f_equal. lia.
    + rewrite DictFacts.get_set.
      destruct (x =? w)%string; [f_equal; lia|reflexivity].
Qed.

Lemma vocabulary_dict_get (l : list string) (w : string) :
  Dict.get (vocabulary_dict l) w = find_last w l.
Proof.
  unfold vocabulary_dict. rewrite index_words_get.
  destruct (find_last w l); reflexivity.
Qed.

Lemma index_words_keys (l : list string) (s : nat) (d : Dict.t nat) (k : string) :
  In k (Dict.keys (index_words s l d)) <-> In k l \/ In k (Dict.keys d).
Proof.
  revert s d. induction l as [|x l IH]; intros s d.
  - simpl. tauto.
  - unfold index_words in *. simpl. rewrite IH, DictFacts.in_keys_set.
    intuition congruence.
Qed.

Lemma index_words_NoDup (l : list string) (s : nat) (d : Dict.t nat) :
  NoDup (Dict.keys d) -> NoDup (Dict.keys (index_words s l d)).
Proof.
  revert s d. induction l as [|x l IH]; intros s d Hd.
  - exact Hd.
  - unfold index_words in *. simpl. apply IH, DictFacts.NoDup_keys_set, Hd.
Qed.

(** The dictionary has one entry per distinct word of the list. *)
Lemma vocabulary_dict_len (l : list string) :
  Dict.len (vocabulary_dict l) = length (nodup string_dec l).
Proof.
  unfold Dict.len.
  rewrite <- (length_map fst (vocabulary_dict l)).
  apply Permutation_length, NoDup_Permutation.
  - apply index_words_NoDup. constructor.
  - apply NoDup_nodup.
  - intros k. fold (Dict.keys (vocabulary_dict l)).
    unfold vocabulary_dict. rewrite index_words_keys, nodup_In. simpl. tauto.
Qed.

Lemma vocabulary_dict_contains (l : list string) (w : string) :
  Dict.contains (vocabulary_dict l) w = true <-> In w l.
Proof.
  rewrite DictFacts.contains_iff. unfold vocabulary_dict.
  rewrite index_words_keys. simpl. tauto.
Qed.

Lemma nodup_length_le (l : list string) :
  length (nodup string_dec l) <= length l.
Proof.
  induction l as [|x l IH]; simpl; [lia|].
  destruct (in_dec string_dec x l); simpl; lia.
Qed.

Lemma nodup_length_lt (l : list string) :
  ~ NoDup l -> length (nodup string_dec l) < length l.
Proof.
  induction l as [|x l IH]; intros Hnd.
  - exfalso. apply Hnd. constructor.
  - simpl. destruct (in_dec string_dec x l) as [Hin|Hout].
    + pose proof (nodup_length_le l). lia.
    + simpl. apply -> Nat.succ_lt_mono. apply IH.
      intros H. apply Hnd. constructor; assumption.
Qed.

(** With a repeated word in the list, an index below the number of entries
    of the dictionary is given to no word. *)
Lemma find_last_gap (l : list string) :
  ~ NoDup l ->
  exists i, i < length (nodup string_dec l) /\ forall w, find_last w l <> Some i.
Proof.
  induction l as [|x l IH]; intros Hnd.
  - exfalso. apply Hnd. constructor.
  - simpl. destruct (in_dec string_dec x l) as [Hin|Hout].
    + exists 0. split.
      * destruct l as [|y l]; [destruct Hin|].
        destruct (nodup string_dec (y :: l)) eqn:Hn; [|simpl; lia].
        exfalso. assert (Hy : In y (nodup string_dec (y :: l))).
        { apply nodup_In. left. reflexivity. }
        rewrite Hn in Hy. destruct Hy.
      * intros w. destruct (find_last w l) as [j|] eqn:Hf; [discriminate|].
        destruct (String.eqb_spec x w) as [->|Hne]; [|discriminate].
        apply find_last_none_iff in Hf. contradiction.
    + destruct IH as [i [Hi Hgap]].
      { intros H. apply Hnd. constructor; assumption. }
      exists (S i). split; [simpl; lia|].
      intros w. destruct (find_last w l) as [j|] eqn:Hf.
      * intros [= ->]. apply (Hgap w). exact Hf.
      * destruct (x =? w)%string; discriminate.
Qed.

Lemma NoDup_app_disjoint {A : Type} (l m : list A) (x : A) :
  NoDup (l ++ m) -> In x l -> In x m -> False.
Proof.
  induction l as [|a l IH]; simpl; intros Hnd Hl Hm.
  - exact Hl.
  - inversion Hnd as [|? ? Ha Hnd']; subst.
    destruct Hl as [->|Hl].
    + apply Ha, in_or_app. right. exact Hm.
    + apply IH; assumption.
Qed.

Lemma vocabulary_list_NoDup (corpus : list (list string)) :
  no_boundary_marker corpus ->
  NoDup (vocabulary_list (get_word_counts corpus)).
Proof.
  intros Hno.
  eapply Permutation_NoDup; [apply permuted_vocabulary_list|].
  apply NoDup_app.
  - apply get_word_counts_NoDup.
  - repeat constructor; simpl; intuition discriminate.
  - intros w Hw Hm. apply get_word_counts_keys in Hw.
    unfold words_of in Hw. apply in_concat in Hw.
    destruct Hw as [sent [Hsent Hin]].
    destruct (Hno sent Hsent) as [Hs He].
    destruct Hm as [<-|[<-|[]]]; contradiction.
Qed.

Lemma vocabulary_list_dup (corpus : list (list string)) :
  some_boundary_marker corpus ->
  ~ NoDup (vocabulary_list (get_word_counts corpus)).
Proof.
  intros [sent [Hsent Hin]] Hnd.
  apply (Permutation_NoDup (Permutation_sym
           (permuted_vocabulary_list (get_word_counts corpus)))) in Hnd.
  assert (Hw : forall w, In w sent ->
                 In w (Dict.keys (get_word_counts corpus))).
  { intros w Hw. apply get_word_counts_keys. unfold words_of.
    apply in_concat. exists sent. split; assumption. }
  destruct Hin as [Hin|Hin].
  - apply (NoDup_app_disjoint _ _ "<s>" Hnd); [apply Hw, Hin|simpl; tauto].
  - apply (NoDup_app_disjoint _ _ "</s>" Hnd); [apply Hw, Hin|simpl; tauto].
Qed.

(** C10.  Without a literal ["<s>"] or ["</s>"] in the corpus the
    word-to-index dictionary is a bijection between its words and the
    indices below its size.  With one, the dictionary has fewer entries
    than the sorted list it is built from, and an index below its size is
    given to no word. *)
Theorem vocabulary_index_bijection (corpus : list (list string)) :
  let l := vocabulary_list (get_word_counts corpus) in
  let v := vocabulary_dict l in
  (no_boundary_marker corpus ->
     (forall w i, Dict.get v w = Some i -> i < Dict.len v) /\
     (forall i, i < Dict.len v -> exists w, Dict.get v w = Some i) /\
     (forall w w' i,
        Dict.get v w = Some i -> Dict.get v w' = Some i -> w = w')) /\
  (some_boundary_marker corpus ->
     Dict.len v < length l /\
     exists i, i < Dict.len v /\ forall w, Dict.get v w <> Some i).
Proof.
  intros l v. split.
  - intros Hno.
    pose proof (vocabulary_list_NoDup corpus Hno) as Hnd. fold l in Hnd.
    assert (Hlen : Dict.len v = length l).
    { unfold v. rewrite vocabulary_dict_len, nodup_fixed_point by exact Hnd.
      reflexivity. }
    split; [|split].
    + intros w i Hg. unfold v in Hg. rewrite vocabulary_dict_get in Hg.
      rewrite Hlen. apply nth_error_Some.
      rewrite (find_last_nth _ _ _ Hg). discriminate.
    + intros i Hi. rewrite Hlen in Hi.
      destruct (nth_error l i) as [w|] eqn:Hn.
      * exists w. unfold v. rewrite vocabulary_dict_get.
        apply find_last_NoDup; assumption.
      * apply nth_error_None in Hn. lia.
    + intros w w' i Hw Hw'. unfold v in Hw, Hw'.
      rewrite vocabulary_dict_get in Hw, Hw'.
      apply find_last_nth in Hw, Hw'. congruence.
  - intros Hsome.
    pose proof (vocabulary_list_dup corpus Hsome) as Hnd. fold l in Hnd.
    unfold v. rewrite vocabulary_dict_len. split.
    + apply nodup_length_lt, Hnd.
    + destruct (find_last_gap l Hnd) as [i [Hi Hgap]].
      exists i. split; [exact Hi|].
      intros w. rewrite vocabulary_dict_get. apply Hgap.
Qed.

(** Both cases of C10 at work: a plain corpus, and one with a literal
    start marker. *)
Lemma vocabulary_index_bijection_witness :
  (let v := vocabulary_dict
              (vocabulary_list (get_word_counts [["a"; "b"; "a"]])) in
   (forall w i, Dict.get v w = Some i -> i < Dict.len v) /\
   (forall i, i < Dict.len v -> exists w, Dict.get v w = Some i) /\
   (forall w w' i,
      Dict.get v w = Some i -> Dict.get v w' = Some i -> w = w')) /\
  (let l := vocabulary_list (get_word_counts [["<s>"; "<s>"; "a"]]) in
   let v := vocabulary_dict l in
   Dict.len v < length l /\
   exists i, i < Dict.len v /\ forall w, Dict.get v w <> Some i).
Proof.
  split.
  - apply (proj1 (vocabulary_index_bijection [["a"; "b"; "a"]])).
    intros sent [<-|[]]. simpl. intuition discriminate.
  - apply (proj2 (vocabulary_index_bijection [["<s>"; "<s>"; "a"]])).
    exists ["<s>"; "<s>"; "a"]. simpl. tauto.
Defined.

(** ** The vocabulary of a corpus *)

Lemma words_of_map (f : string -> string) (corpus : list (list string)) :
  words_of (map (map f) corpus) = map f (words_of corpus).
Proof.
  unfold words_of. symmetry. apply concat_map.
Qed.

Lemma in_words_of (corpus : list (list string)) (w : string) :
  In w (words_of corpus) <-> exists sent, In sent corpus /\ In w sent.
Proof.
  unfold words_of. rewrite in_concat. reflexivity.
Qed.

Lemma unk_if_single_cases (ws : list string) (w : string) :
  (occurrences w ws = 1 /\ unk_if_single ws w = "<unk>") \/
  (occurrences w ws <> 1 /\ unk_if_single ws w = w).
Proof.
  unfold unk_if_single.
  destruct (Nat.eqb_spec (occurrences w ws) 1); [left|right]; tauto.
Qed.

Lemma replaced_no_boundary_marker (corpus : list (list string)) :
  no_boundary_marker corpus ->
  no_boundary_marker (map (map (unk_if_single (words_of corpus))) corpus).
Proof.
  intros Hno sent' Hin. apply in_map_iff in Hin.
  destruct Hin as [sent [<- Hsent]].
  destruct (Hno sent Hsent) as [Hs He].
  split; intros Hm; apply in_map_iff in Hm; destruct Hm as [w [Hw Hin]];
    destruct (unk_if_single_cases (words_of corpus) w) as [[_ Hu]|[_ Hu]];
    rewrite Hu in Hw; try discriminate; subst w; contradiction.
Qed.

Lemma keys_count_distinct (corpus : list (list string)) :
  length (Dict.keys (get_word_counts corpus)) = length (distinct_words corpus).
Proof.
  apply Permutation_length, NoDup_Permutation.
  - apply get_word_counts_NoDup.
  - apply NoDup_nodup.
  - intros w. unfold distinct_words.
    rewrite get_word_counts_keys, nodup_In. reflexivity.
Qed.

(** C4, as the code has it.  [build_vocabulary] raises nothing.  The
    dictionary holds exactly the words of the rewritten corpus and the two
    boundary markers; its indices follow the code-point order of the words,
    the markers among them.  When the corpus has no literal ["<s>"] or
    ["</s>"], its size is the number of distinct surviving words plus two.
    A word that occurs once puts ["<unk>"] in it, and when the corpus has no
    literal ["<unk>"] only such a word does. *)
Theorem vocabulary_contents (corpus : list (list string)) :
  exists corpus' v,
    build_vocabulary corpus = Ok (corpus', v) /\
    (forall w, Dict.contains v w = true
               <-> In w (words_of corpus') \/ w = "<s>" \/ w = "</s>") /\
    (no_boundary_marker corpus ->
       Dict.len v = length (distinct_words corpus') + 2) /\
    ((exists w, occurrences w (words_of corpus) = 1) ->
       Dict.contains v "<unk>" = true) /\
    (~ In "<unk>" (words_of corpus) ->
       Dict.contains v "<unk>" = true ->
       exists w, occurrences w (words_of corpus) = 1) /\
    (forall w1 w2 i1 i2,
       Dict.get v w1 = Some i1 -> Dict.get v w2 = Some i2 ->
       (i1 < i2 <-> String.ltb w1 w2 = true)).
Proof.
  set (corpus' := map (map (unk_if_single (words_of corpus))) corpus).
  set (l := vocabulary_list (get_word_counts corpus')).
  exists corpus', (vocabulary_dict l).
  assert (Hcontains : forall w, Dict.contains (vocabulary_dict l) w = true
             <-> In w (words_of corpus') \/ w = "<s>" \/ w = "</s>").
  { intros w. rewrite vocabulary_dict_contains. unfold l.
    split.
    - intros Hin.
      apply (Permutation_in _ (Permutation_sym
               (permuted_vocabulary_list (get_word_counts corpus')))) in Hin.
      apply in_app_or in Hin. destruct Hin as [Hin|Hin].
      + left. apply get_word_counts_keys. exact Hin.
      + right. simpl in Hin. intuition congruence.
    - intros Hin.
      apply (Permutation_in _ (permuted_vocabulary_list _)), in_or_app.
      destruct Hin as [Hin|Hin].
      + left. apply get_word_counts_keys. exact Hin.
      + right. simpl. intuition congruence. }
  split; [|split; [|split; [|split; [|split]]]].
  - unfold build_vocabulary. rewrite replace_rare_words_total. reflexivity.
  - exact Hcontains.
  - intros Hno.
    assert (Hnd : NoDup l).
    { apply vocabulary_list_NoDup, replaced_no_boundary_marker, Hno. }
    rewrite vocabulary_dict_len, nodup_fixed_point by exact Hnd.
    unfold l.
    rewrite <- (Permutation_length (permuted_vocabulary_list _)).
    rewrite length_app, keys_count_distinct. reflexivity.
  - intros [w Hw]. apply Hcontains. left.
    unfold corpus'. rewrite words_of_map. apply in_map_iff. exists w. split.
    + unfold unk_if_single. rewrite Hw. reflexivity.
    + destruct (in_dec string_dec w (words_of corpus)) as [Hin|Hout];
        [exact Hin|].
      apply occurrences_zero_iff in Hout. lia.
  - intros Hno Hc. apply Hcontains in Hc.
    destruct Hc as [Hin|[Hc|Hc]]; try discriminate.
    unfold corpus' in Hin. rewrite words_of_map in Hin.
    apply in_map_iff in Hin. destruct Hin as [w [Hu Hin]].
    destruct (unk_if_single_cases (words_of corpus) w) as [[Ho _]|[_ Hw]].
    + exists w. exact Ho.
    + rewrite Hw in Hu. subst w. contradiction.
  - intros w1 w2 i1 i2 H1 H2.
    rewrite vocabulary_dict_get in H1, H2.
    pose proof (find_last_nth _ _ _ H1) as N1.
    pose proof (find_last_nth _ _ _ H2) as N2.
    pose proof (StronglySorted_nth _ _
                  (sorted_vocabulary_list (get_word_counts corpus'))) as Hs.
    fold l in Hs. rewrite string_ltb_leb. split.
    + intros Hlt. split; [apply (Hs i1 i2); assumption|].
      intros ->. rewrite H1 in H2. injection H2 as ->. lia.
    + intros [Hle Hne].
      destruct (Nat.lt_trichotomy i1 i2) as [Hlt|[->|Hgt]]; [exact Hlt| |].
      * congruence.
      * exfalso. apply Hne, String.leb_antisym; [exact Hle|].
        apply (Hs i2 i1); assumption.
Qed.

Lemma vocabulary_contents_witness :
  exists corpus' v,
    build_vocabulary [["the"; "cat"; "the"; "cat"; "sat"]] = Ok (corpus', v) /\
    Dict.len v = length (distinct_words corpus') + 2 /\
    Dict.contains v "<unk>" = true /\
    exists w,
      occurrences w (words_of [["the"; "cat"; "the"; "cat"; "sat"]]) = 1.
Proof.
  destruct (vocabulary_contents [["the"; "cat"; "the"; "cat"; "sat"]])
    as [corpus' [v [Hb [_ [Hsize [Hunk [Hsingle _]]]]]]].
  exists corpus', v. split; [exact Hb|].
  assert (Hone : exists w,
    occurrences w (words_of [["the"; "cat"; "the"; "cat"; "sat"]]) = 1)
    by (exists "sat"; reflexivity).
  split; [|split].
  - apply Hsize. intros sent [<-|[]]. simpl. intuition discriminate.
  - apply Hunk, Hone.
  - apply Hsingle; [|apply Hunk, Hone].
    simpl. intuition discriminate.
Defined.

(** C4 as worded fails on a corpus with literal markers: two distinct words
    survive and the dictionary has three entries, not four, and ["<unk>"] is
    in it though no word occurs once. *)
Lemma vocabulary_contents_counterexample :
  let corpus := [["<s>"; "<s>"; "<unk>"; "<unk>"]] in
  let v := [("</s>", 0); ("<s>", 2); ("<unk>", 3)] in
  build_vocabulary corpus = Ok (corpus, v) /\
  length (distinct_words corpus) = 2 /\
  Dict.len v <> length (distinct_words corpus) + 2 /\
  Dict.contains v "<unk>" = true /\
  forall w, occurrences w (words_of corpus) <> 1.
Proof.
  cbv zeta. split; [reflexivity|]. split; [reflexivity|].
  split; [vm_compute; discriminate|]. split; [reflexivity|].
  intros w. unfold occurrences, words_of. simpl.
  destruct (w =? "<s>")%string; destruct (w =? "<unk>")%string; simpl;
    discriminate.
Qed.

(** ** The shuffle *)

Lemma nth_error_list_set {A : Type} (l : list A) (i j : nat) (x : A) :
  nth_error (list_set l i x) j
  = if i =? j then (if i <? length l then Some x else None)
    else nth_error l j.
Proof.
  revert i j. induction l as [|a l IH]; intros i j; simpl.
  - destruct (i =? j); destruct j; reflexivity.
  - destruct i as [|i], j as [|j]; simpl; try reflexivity.
    rewrite IH. reflexivity.
Qed.

Lemma list_set_length {A : Type} (l : list A) (i : nat) (x : A) :
  length (list_set l i x) = length l.
Proof.
  revert i. induction l as [|a l IH]; intros [|i]; simpl; auto.
Qed.

Lemma list_set_Permutation {A : Type} (l : list A) (i : nat) (a x : A) :
  nth_error l i = Some a -> Permutation (x :: l) (a :: list_set l i x).
Proof.
  revert i. induction l as [|b l IH]; intros [|i] Hi; simpl in *;
    try discriminate.
  - injection Hi as ->. apply perm_swap.
  - eapply perm_trans; [apply perm_swap|].
    eapply perm_trans; [apply perm_skip, IH, Hi|]. apply perm_swap.
Qed.

Lemma swap_Permutation {A : Type} (l : list A) (i j : nat) :
  Permutation l (swap l i j).
Proof.
  unfold swap.
  destruct (nth_error l i) as [xi|] eqn:Hi; [|reflexivity].
  destruct (nth_error l j) as [xj|] eqn:Hj; [|reflexivity].
  apply (Permutation_cons_inv (a := xj)).
  eapply perm_trans; [apply (list_set_Permutation l i xi xj Hi)|].
  apply list_set_Permutation.
  rewrite nth_error_list_set.
  destruct (Nat.eqb_spec i j) as [->|Hne]; [|exact Hj].
  assert (Hlt : j < length l) by (apply nth_error_Some; congruence).
  apply Nat.ltb_lt in Hlt. rewrite Hlt. reflexivity.
Qed.

Lemma shuffle_down_Permutation {A : Type} (i : nat) (x : list A) (tape : rng) :
  Permutation x (fst (shuffle_down i x tape)).
Proof.
  revert x tape. induction i as [|i IH]; intros x tape; simpl.
  - reflexivity.
  - destruct (randbelow _ tape) as [j tape'].
    eapply perm_trans; [apply (swap_Permutation x (S i) j)|]. apply IH.
Qed.

Lemma shuffle_Permutation {A : Type} (x : list A) (tape : rng) :
  Permutation x (fst (shuffle x tape)).
Proof. apply shuffle_down_Permutation. Qed.

(** C6, as the code has it.  The sampler shuffles the list it is given:
    afterwards the caller's corpus holds the same sentences, each as it was,
    in the order the shuffle left, which is the order the pairs were yielded
    in. *)
Theorem sampler_permutes_corpus (corpus : list (list string))
    (vocabulary : Dict.t nat) (k : nat) (tape : rng) :
  let s := generate_training_pairs corpus vocabulary k tape in
  Permutation corpus (corpus_after s) /\
  corpus_after s = fst (shuffle corpus tape) /\
  yielded s = pairs_of_corpus vocabulary k (corpus_after s).
Proof.
  unfold generate_training_pairs.
  pose proof (shuffle_Permutation corpus tape) as Hp.
  destruct (shuffle corpus tape) as [corpus' tape']. simpl in *.
  repeat split. exact Hp.
Qed.

(** C6 as worded fails: with a draw of 0 the two sentences of the caller's
    corpus have changed places once the sampler has run. *)
Lemma sampler_permutes_corpus_counterexample :
  let corpus := [["a"]; ["b"]] in
  let vocabulary := [("</s>", 0); ("<s>", 1); ("a", 2); ("b", 3)] in
  corpus_after (generate_training_pairs corpus vocabulary 4 [0])
  = [["b"]; ["a"]] /\
  corpus_after (generate_training_pairs corpus vocabulary 4 [0]) <> corpus.
Proof.
  split; [reflexivity|]. vm_compute. discriminate.
Qed.

(** ** The training pairs of a sentence *)

Lemma convert_to_one_hot_covered (vocabulary : Dict.t nat) (w : string) (i : nat) :
  Dict.get vocabulary w = Some i -> i < Dict.len vocabulary ->
  convert_to_one_hot w vocabulary = Ok (one_hot (Dict.len vocabulary) i).
Proof.
  intros Hg Hi. unfold convert_to_one_hot, Dict.lookup. rewrite Hg. simpl.
  apply Nat.ltb_lt in Hi. rewrite Hi. reflexivity.
Qed.

Lemma py_index_nat {A : Type} (l : list A) (i : nat) (d : A) :
  i < length l -> py_index l (Z.of_nat i) = Ok (nth i l d).
Proof.
  intros Hi. unfold py_index.
  destruct (Z.ltb_spec (Z.of_nat i) 0) as [Hneg|_]; [lia|].
  destruct (Z.leb_spec 0 (Z.of_nat i)) as [_|Hneg]; [|lia].
  destruct (Z.ltb_spec (Z.of_nat i) (Z.of_nat (length l))) as [_|Hge]; [|lia].
  simpl. rewrite Nat2Z.id.
  rewrite (nth_error_nth' l d Hi). reflexivity.
Qed.

Lemma py_range_nat (k index : nat) :
  k <= index ->
  py_range (Z.of_nat index - Z.of_nat k) (Z.of_nat index)
  = map (fun d => Z.of_nat (index - k + d)) (seq 0 k).
Proof.
  intros Hk. unfold py_range.
  replace (Z.to_nat (Z.of_nat index - (Z.of_nat index - Z.of_nat k))) with k
    by lia.
  apply map_ext. intros d. lia.
Qed.

Lemma pair_at_covered (vocabulary : Dict.t nat) (k : nat) (sent : list string)
    (index : nat) :
  covers vocabulary sent -> k <= index -> index < length sent ->
  pair_at vocabulary k sent index (nth index sent "")
  = Ok (expected_pair vocabulary k sent index).
Proof.
  intros Hc Hk Hi. unfold pair_at, expected_pair, index_of, Dict.lookup.
  destruct (Hc (nth index sent "")) as [i [Hg _]]; [apply nth_In, Hi|].
  rewrite Hg. simpl.
  rewrite (py_range_nat k index Hk), mapM_map.
  unfold preceding. rewrite map_map.
  erewrite mapM_pure; [reflexivity|].
  intros d Hd. apply in_seq in Hd.
  rewrite (py_index_nat sent (index - k + d) "") by lia. simpl.
  destruct (Hc (nth (index - k + d) sent "")) as [j [Hj Hlt]];
    [apply nth_In; lia|].
  rewrite Hj. apply convert_to_one_hot_covered; assumption.
Qed.

Lemma combine_seq_nth {A : Type} (d : A) (t : list A) (s : nat) :
  combine (seq s (length t)) t
  = map (fun i => (i, nth (i - s) t d)) (seq s (length t)).
Proof.
  revert s. induction t as [|x t IH]; intros s; simpl.
  - reflexivity.
  - rewrite Nat.sub_diag. f_equal. rewrite IH.
    apply map_ext_in. intros i Hi. apply in_seq in Hi.
    replace (i - s) with (S (i - S s)) by lia. reflexivity.
Qed.

Lemma enumerate_nth {A : Type} (d : A) (l : list A) :
  enumerate l = map (fun i => (i, nth i l d)) (seq 0 (length l)).
Proof.
  unfold enumerate. rewrite (combine_seq_nth d).
  apply map_ext. intros i. rewrite Nat.sub_0_r. reflexivity.
Qed.

Lemma pad_sentence_length (k : nat) (sent : list string) :
  length (pad_sentence k sent) = k + (length sent + 1).
Proof.
  unfold pad_sentence. rewrite !length_app, repeat_length. reflexivity.
Qed.

Lemma pad_sentence_front (k : nat) (sent : list string) (i : nat) :
  i < k -> nth i (pad_sentence k sent) "" = "<s>".
Proof.
  intros Hi. unfold pad_sentence.
  rewrite app_nth1 by (rewrite repeat_length; exact Hi).
  apply nth_repeat_lt. exact Hi.
Qed.

Lemma pad_sentence_back (k : nat) (sent : list string) (i : nat) :
  nth (k + i) (pad_sentence k sent) "" = nth i (sent ++ ["</s>"]) "".
Proof.
  unfold pad_sentence.
  rewrite app_nth2 by (rewrite repeat_length; lia).
  rewrite repeat_length. f_equal. lia.
Qed.

(** The inner loop yields the expected pair at every listed position that
    holds no start marker. *)
Lemma pairs_of_positions_covered (vocabulary : Dict.t nat) (k : nat)
    (sent : list string) (positions : list nat) :
  covers vocabulary sent ->
  (forall i, In i positions -> i < length sent) ->
  (forall i, i < k -> nth i sent "" = "<s>") ->
  pairs_of_positions vocabulary k sent
    (map (fun i => (i, nth i sent "")) positions)
  = (map (expected_pair vocabulary k sent)
         (filter (fun i => negb (nth i sent "" =? "<s>")%string) positions),
     None).
Proof.
  intros Hc Hpos Hfront.
  induction positions as [|i positions IH]; simpl.
  - reflexivity.
  - rewrite IH by (intros j Hj; apply Hpos; right; exact Hj).
    destruct (String.eqb_spec (nth i sent "") "<s>") as [Heq|Hne]; simpl.
    + reflexivity.
    + rewrite pair_at_covered; [reflexivity|exact Hc| |].
      * destruct (Nat.le_gt_cases k i) as [Hle|Hlt]; [exact Hle|].
        exfalso. apply Hne, Hfront, Hlt.
      * apply Hpos. left. reflexivity.
Qed.

Lemma filter_all {A : Type} (f : A -> bool) (l : list A) :
  (forall a, In a l -> f a = true) -> filter f l = l.
Proof.
  induction l as [|a l IH]; intros H; simpl; [reflexivity|].
  rewrite (H a) by (left; reflexivity).
  f_equal. apply IH. intros b Hb. apply H. right. exact Hb.
Qed.

Lemma filter_none {A : Type} (f : A -> bool) (l : list A) :
  (forall a, In a l -> f a = false) -> filter f l = [].
Proof.
  induction l as [|a l IH]; intros H; simpl; [reflexivity|].
  rewrite (H a) by (left; reflexivity).
  apply IH. intros b Hb. apply H. right. exact Hb.
Qed.

(** Without a literal start marker in the sentence the targets are the
    positions from [k] on. *)
Lemma target_positions_plain (k : nat) (sent : list string) :
  ~ In "<s>" sent ->
  target_positions (pad_sentence k sent) = seq k (length sent + 1).
Proof.
  intros Hno. unfold target_positions.
  rewrite pad_sentence_length, seq_app, filter_app. simpl.
  rewrite filter_none, filter_all; [reflexivity| |].
  - intros i Hi. apply in_seq in Hi.
    replace i with (k + (i - k)) by lia. rewrite pad_sentence_back.
    destruct (String.eqb_spec (nth (i - k) (sent ++ ["</s>"]) "") "<s>")
      as [Heq|Hne]; [|reflexivity].
    exfalso.
    assert (Hin : In "<s>" (sent ++ ["</s>"])).
    { rewrite <- Heq. apply nth_In. rewrite length_app. simpl. lia. }
    apply in_app_or in Hin. destruct Hin as [Hin|[Hin|[]]];
      [contradiction|discriminate].
  - intros i Hi. apply in_seq in Hi.
    rewrite pad_sentence_front by lia. reflexivity.
Qed.

Lemma pairs_of_sentence_covered (vocabulary : Dict.t nat) (k : nat)
    (sent : list string) :
  covers vocabulary (pad_sentence k sent) ->
  pairs_of_sentence vocabulary k sent
  = (map (expected_pair vocabulary k (pad_sentence k sent))
         (target_positions (pad_sentence k sent)), None).
Proof.
  intros Hc. unfold pairs_of_sentence.
  rewrite (enumerate_nth "" (pad_sentence k sent)).
  apply pairs_of_positions_covered.
  - exact Hc.
  - intros i Hi. apply in_seq in Hi. lia.
  - intros i Hi. apply pad_sentence_front. exact Hi.
Qed.

(** The outer loop strings the pairs of the sentences together. *)
Lemma pairs_of_corpus_covered (vocabulary : Dict.t nat) (k : nat)
    (corpus : list (list string)) :
  (forall sent, In sent corpus -> covers vocabulary (pad_sentence k sent)) ->
  pairs_of_corpus vocabulary k corpus
  = (concat (map (fun sent => fst (pairs_of_sentence vocabulary k sent))
                 corpus), None).
Proof.
  induction corpus as [|sent corpus IH]; intros Hc; simpl.
  - reflexivity.
  - rewrite (pairs_of_sentence_covered vocabulary k sent)
      by (apply Hc; left; reflexivity).
    rewrite IH by (intros t Ht; apply Hc; right; exact Ht).
    reflexivity.
Qed.

(** C1, as the code has it.  With a vocabulary that has an index for every
    token of the padded sentences, the sampler raises nothing and yields
    the pairs of the sentences one sentence after the other, in the
    shuffled order.  For each sentence, padded with [k] start markers in
    front and one end marker at the back, these are, in order, one pair for
    every position that does not hold the start marker: the index of the
    word there, and the one-hot vectors of the [k] tokens before it, the
    oldest first.  For a sentence of length [L] without a literal ["<s>"]
    they are the positions [k] to [k + L], so [L + 1] pairs are yielded. *)
Theorem sampler_pairs_of_sentence (vocabulary : Dict.t nat) (k : nat)
    (corpus : list (list string)) (tape : rng) :
  (forall sent, In sent corpus -> covers vocabulary (pad_sentence k sent)) ->
  let s := generate_training_pairs corpus vocabulary k tape in
  yielded s
  = (concat (map (fun sent => fst (pairs_of_sentence vocabulary k sent))
                 (corpus_after s)), None) /\
  forall sent, In sent corpus ->
    let padded := pad_sentence k sent in
    padded = repeat "<s>" k ++ sent ++ ["</s>"] /\
    pairs_of_sentence vocabulary k sent
    = (map (expected_pair vocabulary k padded) (target_positions padded),
       None) /\
    (~ In "<s>" sent ->
       fst (pairs_of_sentence vocabulary k sent)
       = map (expected_pair vocabulary k padded) (seq k (length sent + 1)) /\
       length (fst (pairs_of_sentence vocabulary k sent)) = length sent + 1).
Proof.
  intros Hc s. split.
  - unfold s, generate_training_pairs.
    pose proof (shuffle_Permutation corpus tape) as Hp.
    destruct (shuffle corpus tape) as [corpus' tape']. simpl in *.
    apply pairs_of_corpus_covered.
    intros sent Hin. apply Hc.
    apply (Permutation_in _ (Permutation_sym Hp)). exact Hin.
  - intros sent Hin padded.
    pose proof (pairs_of_sentence_covered vocabulary k sent (Hc sent Hin))
      as Hpairs.
    split; [reflexivity|]. split; [exact Hpairs|].
    intros Hno. rewrite Hpairs. simpl.
    rewrite (target_positions_plain k sent Hno).
    split; [reflexivity|]. rewrite length_map, length_seq. reflexivity.
Qed.

(** The worked example: ["the", "cat"] with [k = 2]. *)
Lemma sampler_pairs_of_sentence_witness :
  let vocabulary := [("</s>", 0); ("<s>", 1); ("cat", 2); ("the", 3)] in
  let padded := ["<s>"; "<s>"; "the"; "cat"; "</s>"] in
  pairs_of_sentence vocabulary 2 ["the"; "cat"]
  = (map (expected_pair vocabulary 2 padded) [2; 3; 4], None) /\
  length (fst (pairs_of_sentence vocabulary 2 ["the"; "cat"])) = 3.
Proof.
  assert (Hc : forall sent, In sent [["the"; "cat"]] ->
                 covers [("</s>", 0); ("<s>", 1); ("cat", 2); ("the", 3)]
                        (pad_sentence 2 sent)).
  { intros sent [<-|[]] w Hw. simpl in Hw.
    destruct Hw as [<-|[<-|[<-|[<-|[<-|[]]]]]]; eexists; split;
      try reflexivity; simpl; lia. }
  destruct (sampler_pairs_of_sentence _ 2 [["the"; "cat"]] [] Hc)
    as [_ Hsent].
  destruct (Hsent ["the"; "cat"]) as [_ [Hp Hn]]; [left; reflexivity|].
  split.
  - exact Hp.
  - apply Hn. simpl. intuition discriminate.
Defined.

(** C1 as worded fails on a sentence that holds a literal start marker:
    a sentence of length one yields one pair, not two. *)
Lemma sampler_pairs_of_sentence_counterexample :
  let vocabulary := [("</s>", 0); ("<s>", 1)] in
  yielded (generate_training_pairs [["<s>"]] vocabulary 1 [])
  = ([(0, [one_hot 2 1])], None) /\
  length (fst (yielded (generate_training_pairs [["<s>"]] vocabulary 1 [])))
  <> length ["<s>"] + 1.
Proof.
  split; [reflexivity|]. vm_compute. discriminate.
Qed.

(** ** Cosine similarity *)

Lemma fmul_zero_l (x y : float) : is_zero x -> zero_or_nan (fmul x y).
Proof.
  intros [s ->]. unfold zero_or_nan, fmul, SFmul.
  destruct y; eauto.
Qed.

Lemma fmul_zero_r (x y : float) : is_zero y -> zero_or_nan (fmul x y).
Proof.
  intros [s ->]. unfold zero_or_nan, fmul, SFmul.
  destruct x; eauto.
Qed.

Lemma fadd_zero_zero (x y : float) : is_zero x -> is_zero y -> is_zero (fadd x y).
Proof.
  intros [s ->] [t ->]. unfold is_zero, fadd, SFadd. destruct s, t; eauto.
Qed.

Lemma fdiv_zero_or_nan (x y : float) :
  zero_or_nan x -> zero_or_nan y -> fdiv x y = S754_nan.
Proof.
  unfold zero_or_nan, fdiv, SFdiv.
  intros [[s ->]| ->] [[t ->]| ->]; reflexivity.
Qed.

Lemma fdiv_by_zero_or_nan (x y : float) :
  zero_or_nan y -> fdiv x y = S754_nan \/ is_infinity (fdiv x y).
Proof.
  unfold zero_or_nan, is_infinity, fdiv, SFdiv.
  intros [[t ->]| ->]; destruct x; eauto.
Qed.

Lemma fold_fadd_zero (xs : list float) (acc : float) :
  is_zero acc -> Forall is_zero xs -> is_zero (fold_left fadd xs acc).
Proof.
  revert acc. induction xs as [|x xs IH]; intros acc Hacc Hxs; simpl.
  - exact Hacc.
  - inversion Hxs; subst. apply IH; [apply fadd_zero_zero|]; assumption.
Qed.

Lemma fzero_is_zero : is_zero fzero.
Proof. exists false. reflexivity. Qed.

Section CosineSimilarity.

Variable torch_dot : list float -> list float -> float.
Variable torch_norm : list float -> float.

Lemma get_cosine_similarity_ok (u v : list float) :
  length u = length v ->
  get_cosine_similarity torch_dot torch_norm u v
  = Ok (cosine torch_dot torch_norm u v).
Proof.
  intros Hlen. unfold get_cosine_similarity, dot, cosine.
  rewrite Hlen, Nat.eqb_refl. reflexivity.
Qed.

(** C8, as the code has it.  Whatever floats [torch.dot] and [torch.norm]
    deliver, for two vectors of one length [get_cosine_similarity] raises
    nothing and returns the float32 quotient of the dot product by the
    float32 product of the two norms.  When a norm comes back as zero no
    condition is signalled: the value returned is a NaN or an infinity,
    and a NaN when the dot product is itself a zero or a NaN. *)
Theorem cosine_similarity_zero_norm (u v : list float) :
  length u = length v ->
  get_cosine_similarity torch_dot torch_norm u v
  = Ok (fdiv (torch_dot u v) (fmul (torch_norm u) (torch_norm v))) /\
  (is_zero (torch_norm u) \/ is_zero (torch_norm v) ->
     exists r, get_cosine_similarity torch_dot torch_norm u v = Ok r /\
               (r = S754_nan \/ is_infinity r)) /\
  (is_zero (torch_norm u) \/ is_zero (torch_norm v) ->
   zero_or_nan (torch_dot u v) ->
     get_cosine_similarity torch_dot torch_norm u v = Ok S754_nan).
Proof.
  intros Hlen. rewrite (get_cosine_similarity_ok u v Hlen). unfold cosine.
  split; [reflexivity|].
  assert (Hprod : is_zero (torch_norm u) \/ is_zero (torch_norm v) ->
                  zero_or_nan (fmul (torch_norm u) (torch_norm v))).
  { intros [Hz|Hz]; [apply fmul_zero_l|apply fmul_zero_r]; exact Hz. }
  split.
  - intros Hz. eexists. split; [reflexivity|].
    apply fdiv_by_zero_or_nan, Hprod, Hz.
  - intros Hz Hdot. f_equal. apply fdiv_zero_or_nan; [exact Hdot|].
    apply Hprod, Hz.
Qed.

End CosineSimilarity.

(** The zero vector, with reductions that add from left to right. *)
Lemma cosine_similarity_zero_norm_witness :
  get_cosine_similarity dot_list (fun u => fsqrt (dot_list u u))
                        [fzero; fzero] [fone; fzero]
  = Ok S754_nan.
Proof.
  apply (cosine_similarity_zero_norm dot_list (fun u => fsqrt (dot_list u u))
           [fzero; fzero] [fone; fzero]).
  - reflexivity.
  - left. exists false. reflexivity.
  - left. exists false. reflexivity.
Defined.

(** C8 as worded fails: [torch.norm] of the zero vector is zero, and the
    similarity comes back as an ordinary value, a NaN or an infinity;
    nothing is raised. *)
Lemma cosine_similarity_zero_norm_counterexample :
  length [fzero; fzero] = length [fone; fzero] /\
  forall (torch_dot : list float -> list float -> float)
         (torch_norm : list float -> float),
    is_zero (torch_norm [fzero; fzero]) ->
    (exists r,
        get_cosine_similarity torch_dot torch_norm [fzero; fzero] [fone; fzero]
        = Ok r /\
        (r = S754_nan \/ is_infinity r)) /\
    forall e,
      get_cosine_similarity torch_dot torch_norm [fzero; fzero] [fone; fzero]
      <> Raise e.
Proof.
  split; [reflexivity|]. intros torch_dot torch_norm Hzero.
  rewrite get_cosine_similarity_ok by reflexivity. split.
  - eexists. split; [reflexivity|].
    apply fdiv_by_zero_or_nan, fmul_zero_l, Hzero.
  - intros e. discriminate.
Qed.

(** ** Word similarity *)

Lemma word_index_resolve (vocabulary : Dict.t nat) (unk : nat) (w : string) :
  Dict.get vocabulary "<unk>" = Some unk ->
  word_index vocabulary w = Ok (resolve vocabulary unk w).
Proof.
  intros Hunk. unfold word_index, resolve, Dict.contains, Dict.lookup.
  destruct (Dict.get vocabulary w) as [i|]; simpl; [reflexivity|].
  rewrite Hunk. reflexivity.
Qed.

Lemma word_index_no_unk (vocabulary : Dict.t nat) (w : string) :
  Dict.get vocabulary "<unk>" = None -> Dict.get vocabulary w = None ->
  word_index vocabulary w = Raise (KeyError "<unk>").
Proof.
  intros Hunk Hw. unfold word_index, Dict.contains, Dict.lookup.
  rewrite Hw. simpl. rewrite Hunk. reflexivity.
Qed.

Lemma column_length (a : tensor) (j : nat) :
  length (column a j) = length (entries a).
Proof. unfold column. apply length_map. Qed.

Section WordSimilarity.

Variable torch_dot : list float -> list float -> float.
Variable torch_norm : list float -> float.
Variable SpearmanrResult : Type.
Variable spearmanr : list float -> list float -> result SpearmanrResult.

Lemma pair_similarity_resolve (embedding_matrix : tensor)
    (vocabulary : Dict.t nat) (unk : nat) (pairs : string * string) :
  Dict.get vocabulary "<unk>" = Some unk ->
  (forall w i, Dict.get vocabulary w = Some i -> i < ncols embedding_matrix) ->
  pair_similarity torch_dot torch_norm embedding_matrix vocabulary pairs
  = Ok (cosine torch_dot torch_norm
          (column embedding_matrix (resolve vocabulary unk (fst pairs)))
          (column embedding_matrix (resolve vocabulary unk (snd pairs)))).
Proof.
  intros Hunk Hcols.
  assert (Hres : forall w, resolve vocabulary unk w < ncols embedding_matrix).
  { intros w. unfold resolve. destruct (Dict.get vocabulary w) eqn:Hg.
    - apply (Hcols w), Hg.
    - apply (Hcols "<unk>"), Hunk. }
  unfold pair_similarity.
  rewrite !(word_index_resolve vocabulary unk) by exact Hunk. simpl.
  unfold column_at.
  destruct (Nat.ltb_spec (resolve vocabulary unk (fst pairs))
                         (ncols embedding_matrix)) as [_|Hge];
    [|specialize (Hres (fst pairs)); lia].
  destruct (Nat.ltb_spec (resolve vocabulary unk (snd pairs))
                         (ncols embedding_matrix)) as [_|Hge];
    [|specialize (Hres (snd pairs)); lia].
  simpl. apply get_cosine_similarity_ok.
  rewrite !column_length. reflexivity.
Qed.

(** C9, as the code has it.  With a vocabulary that holds ["<unk>"] (and
    whose indices are columns of the embedding matrix), every word of a
    test pair resolves to its own index, or to the index of ["<unk>"] when
    it is not in the vocabulary, and no [KeyError] is raised;
    [evaluate_wordsim] returns what [spearmanr] makes of the gold scores
    and of the similarities of the columns the words resolve to, each the
    float32 quotient of [torch.dot] of the two columns by the float32
    product of their [torch.norm]s, in the order of the pairs. *)
Theorem evaluate_wordsim_resolves (word_pairs : list (string * string))
    (gold_scores : list float) (embedding_matrix : tensor)
    (vocabulary : Dict.t nat) (unk : nat) :
  Dict.get vocabulary "<unk>" = Some unk ->
  (forall w i, Dict.get vocabulary w = Some i -> i < ncols embedding_matrix) ->
  (forall w, word_index vocabulary w = Ok (resolve vocabulary unk w)) /\
  evaluate_wordsim torch_dot torch_norm SpearmanrResult spearmanr
                   word_pairs gold_scores embedding_matrix vocabulary
  = spearmanr
      (map (fun pairs =>
              fdiv
                (torch_dot
                   (column embedding_matrix (resolve vocabulary unk (fst pairs)))
                   (column embedding_matrix (resolve vocabulary unk (snd pairs))))
                (fmul
                   (torch_norm
                      (column embedding_matrix
                              (resolve vocabulary unk (fst pairs))))
                   (torch_norm
                      (column embedding_matrix
                              (resolve vocabulary unk (snd pairs))))))
           word_pairs)
      gold_scores.
Proof.
  intros Hunk Hcols. split.
  - intros w. apply word_index_resolve, Hunk.
  - unfold evaluate_wordsim.
    erewrite mapM_pure; [reflexivity|].
    intros pairs _. apply pair_similarity_resolve; assumption.
Qed.

End WordSimilarity.

(** A vocabulary with ["<unk>"], and a pair with a word that is not in it:
    ["dog"] resolves to column 2, and with reductions that add from left
    to right the similarity of columns 2 and 3 is [1 / (1 * 1)]. *)
Lemma evaluate_wordsim_resolves_witness :
  let vocabulary := [("</s>", 0); ("<s>", 1); ("<unk>", 2); ("cat", 3)] in
  let Emat := mkTensor 1 4 [[fone; fone; fone; fone]] in
  word_index vocabulary "dog" = Ok 2 /\
  evaluate_wordsim dot_list (fun u => fsqrt (dot_list u u))
                   (list float) (fun predicted _ => Ok predicted)
                   [("dog", "cat")] [fone] Emat vocabulary
  = Ok [fone].
Proof.
  destruct (evaluate_wordsim_resolves dot_list (fun u => fsqrt (dot_list u u))
              (list float) (fun predicted _ => Ok predicted)
              [("dog", "cat")] [fone]
              (mkTensor 1 4 [[fone; fone; fone; fone]])
              [("</s>", 0); ("<s>", 1); ("<unk>", 2); ("cat", 3)] 2)
    as [Hresolve Hvalue].
  - reflexivity.
  - intros w i. cbn [Dict.get ncols].
    repeat (destruct (String.eqb _ w); [intros [= <-]; lia|]).
    discriminate.
  - split; [exact (Hresolve "dog")|exact Hvalue].
Defined.

(** C9 as worded fails: the vocabulary of a corpus without a word that
    occurs once has no ["<unk>"], and a word that is not in it raises
    [KeyError], whatever [spearmanr] is. *)
Lemma evaluate_wordsim_resolves_counterexample :
  let vocabulary := [("</s>", 0); ("<s>", 1); ("a", 2)] in
  build_vocabulary [["a"; "a"]] = Ok ([["a"; "a"]], vocabulary) /\
  word_index vocabulary "b" = Raise (KeyError "<unk>") /\
  forall (torch_dot : list float -> list float -> float)
         (torch_norm : list float -> float) (SpearmanrResult : Type)
         (spearmanr : list float -> list float -> result SpearmanrResult)
         (gold_scores : list float) (embedding_matrix : tensor),
    evaluate_wordsim torch_dot torch_norm SpearmanrResult spearmanr
                     [("b", "a")] gold_scores embedding_matrix vocabulary
    = Raise (KeyError "<unk>").
Proof.
  split; [reflexivity|]. split; [reflexivity|]. reflexivity.
Qed.

(** ** Shapes *)

Lemma matmul_shape (a b : tensor) :
  ncols a = nrows b ->
  exists c, matmul a b = Ok c /\ has_shape c (nrows a) (ncols b).
Proof.
  intros H. unfold matmul. rewrite H, Nat.eqb_refl.
  eexists. split; [reflexivity|]. split; reflexivity.
Qed.

Lemma matmul_mismatch (a b : tensor) :
  ncols a <> nrows b -> matmul a b = Raise RuntimeError.
Proof.
  intros H. unfold matmul.
  destruct (Nat.eqb_spec (ncols a) (nrows b)); [contradiction|reflexivity].
Qed.

Lemma broadcast_dim_same (n : nat) : broadcast_dim n n = Some n.
Proof. unfold broadcast_dim. rewrite Nat.eqb_refl. reflexivity. Qed.

Lemma tensor_add_same_shape (a b : tensor) :
  nrows a = nrows b -> ncols a = ncols b ->
  exists c, tensor_add a b = Ok c /\
            has_shape c (nrows a) (ncols a) /\
            exists f, entries c = tabulate (nrows a) (ncols a) f.
Proof.
  intros Hr Hc. unfold tensor_add.
  rewrite <- Hr, <- Hc, !broadcast_dim_same.
  eexists. split; [reflexivity|]. split; [split; reflexivity|].
  eexists. reflexivity.
Qed.

Lemma nth_error_tabulate (r c : nat) (f : nat -> nat -> float) (i : nat) :
  i < r -> nth_error (tabulate r c f) i = Some (map (f i) (seq 0 c)).
Proof.
  intros Hi. unfold tabulate.
  rewrite nth_error_map, nth_error_seq.
  apply Nat.ltb_lt in Hi. rewrite Hi. reflexivity.
Qed.

Lemma embed_context_rest (Emat : tensor) (context : list tensor) :
  Forall (fun c => has_shape c 1 (ncols Emat)) context ->
  forall (s : nat) (X : tensor),
    0 < s -> ncols X = 1 ->
    exists X',
      embed_context Emat X (combine (seq s (length context)) context) = Ok X' /\
      has_shape X' (nrows X + length context * nrows Emat) 1.
Proof.
  induction 1 as [|c context [Hcr Hcc] Hctx IH]; intros s X Hs HX.
  - exists X. split; [reflexivity|]. split; [simpl; lia|exact HX].
  - cbn [length seq combine embed_context].
    destruct (Nat.eqb_spec s 0) as [->|_]; [lia|].
    destruct (matmul_shape Emat (transpose c)) as [ej [-> [Hr Hc]]];
      [simpl; congruence|].
    cbn [bind]. unfold cat0.
    simpl in Hc. rewrite HX, Hc, Hcr. cbn [Nat.eqb bind].
    destruct (IH (S s) (mkTensor (nrows X + nrows ej) 1
                                 (entries X ++ entries ej)))
      as [X' [-> [Hr' Hc']]]; [lia|reflexivity|].
    exists X'. split; [reflexivity|]. split; [|exact Hc'].
    rewrite Hr'. simpl. rewrite Hr. lia.
Qed.

Lemma embed_context_shape (Emat X : tensor) (context : list tensor) :
  context <> [] ->
  Forall (fun c => has_shape c 1 (ncols Emat)) context ->
  exists X',
    embed_context Emat X (enumerate context) = Ok X' /\
    has_shape X' (length context * nrows Emat) 1.
Proof.
  intros Hne Hctx. destruct context as [|c context]; [contradiction|].
  inversion Hctx as [|? ? [Hcr Hcc] Hrest]; subst.
  unfold enumerate. cbn [length seq combine embed_context Nat.eqb].
  destruct (matmul_shape Emat (transpose c)) as [ej [-> [Hr Hc]]];
    [simpl; congruence|].
  cbn [bind]. simpl in Hc.
  destruct (embed_context_rest Emat context Hrest 1 ej)
    as [X' [-> [Hr' Hc']]]; [lia|congruence|].
  exists X'. split; [reflexivity|]. split; [|exact Hc'].
  rewrite Hr', Hr. lia.
Qed.

Section Shapes.

Variable normal_draw : nat -> nat -> nat -> float.
Variables tanh_f exp_f log_f : float -> float.

Lemma initialize_parameter_ok (r c g : nat) :
  0 < r + c ->
  exists t g',
    initialize_parameter normal_draw (r, c) g = Ok (t, g') /\
    has_shape t r c.
Proof.
  intros Hpos. unfold initialize_parameter.
  destruct (Nat.eqb_spec (c + r) 0) as [Hz|_]; [lia|].
  eexists. eexists. split; [reflexivity|]. split; reflexivity.
Qed.

Lemma NLM_init_ok (vocabulary_size emb_length k g : nat) :
  0 < vocabulary_size ->
  exists model g',
    NLM_init normal_draw vocabulary_size emb_length k g
    = Ok (model, g') /\
    embedding_length model = emb_length /\
    grads model = None /\
    model_shapes (params model) emb_length vocabulary_size.
Proof.
  intros HV. unfold NLM_init.
  destruct (initialize_parameter_ok emb_length vocabulary_size g)
    as [tE [gE [-> HE]]]; [lia|].
  cbn [bind fst snd].
  destruct (initialize_parameter_ok 256 256 gE) as [t1 [g1 [-> H1]]]; [lia|].
  cbn [bind fst snd].
  destruct (initialize_parameter_ok 256 1 g1) as [t2 [g2 [-> H2]]]; [lia|].
  cbn [bind fst snd].
  destruct (initialize_parameter_ok vocabulary_size 256 g2)
    as [t3 [g3 [-> H3]]]; [lia|].
  cbn [bind fst snd].
  destruct (initialize_parameter_ok vocabulary_size 1 g3)
    as [t4 [g4 [-> H4]]]; [lia|].
  cbn [bind fst snd].
  eexists. eexists. split; [reflexivity|].
  split; [reflexivity|]. split; [reflexivity|].
  repeat split; cbn [params wE ww1 wb1 ww2 wb2];
    first [apply HE|apply H1|apply H2|apply H3|apply H4].
Qed.

(** With parameters of the shapes of [__init__] and a context of one-hot
    row vectors, [forward] goes through exactly when the context's length
    times the embedding length is the hidden width 256. *)
Lemma forward_shape (w : weights) (emb V e0 : nat) (context : list tensor) :
  model_shapes w emb V ->
  context <> [] ->
  Forall (fun c => has_shape c 1 V) context ->
  (length context * emb <> 256 ->
     forward tanh_f exp_f log_f e0 w context = Raise RuntimeError) /\
  (length context * emb = 256 ->
     exists y f,
       forward tanh_f exp_f log_f e0 w context = Ok y /\
       has_shape y V 1 /\ entries y = tabulate V 1 f).
Proof.
  intros [[HEr HEc] [[H1r H1c] [[Hb1r Hb1c] [[H2r H2c] [Hb2r Hb2c]]]]]
         Hne Hctx.
  rewrite <- HEc in Hctx.
  destruct (embed_context_shape (wE w)
              (mkTensor e0 0 (repeat [] e0)) context Hne Hctx)
    as [X [HX [HXr HXc]]].
  rewrite HEr in HXr.
  unfold forward. rewrite HX. cbn [bind]. split.
  - intros Hmis. rewrite matmul_mismatch; [reflexivity|]. congruence.
  - intros Hfit.
    destruct (matmul_shape (ww1 w) X) as [h_a [-> [Har Hac]]]; [congruence|].
    cbn [bind].
    destruct (tensor_add_same_shape h_a (wb1 w))
      as [h_b [-> [[Hbr Hbc] _]]]; [congruence|congruence|].
    cbn [bind].
    destruct (matmul_shape (ww2 w) (tensor_map tanh_f h_b))
      as [y_a [-> [Hyr Hyc]]]; [simpl; congruence|].
    cbn [bind]. simpl in Hyc.
    destruct (tensor_add_same_shape y_a (wb2 w))
      as [y_b [-> [[Hzr Hzc] _]]]; [congruence|congruence|].
    cbn [bind].
    assert (HyV : nrows y_b = V) by congruence.
    assert (Hy1 : ncols y_b = 1) by congruence.
    eexists. eexists. split; [reflexivity|].
    unfold log_softmax0. cbn [nrows ncols entries].
    rewrite HyV, Hy1. split; [split; reflexivity|]. reflexivity.
Qed.

(** C7, as the code has it.  [NLM.__init__] checks nothing and never reads
    [k]: for every positive vocabulary size it returns a model, the same
    one whatever [k] is, with a hidden layer of width 256.  Nor does [k]
    count later: what [forward_pass] depends on is the number of vectors
    in the context it is given.  For a context of [n >= 1] one-hot vectors
    the [n] products with [E] go through and give [X] with
    [n * embedding_length] rows; when that is not 256 the product of [w1]
    with [X] raises, and [forward_pass] with it; when it is 256,
    [forward_pass] returns a column of [vocabulary_size] entries. *)
Theorem init_defers_shape_check (vocabulary_size emb_length k g : nat) :
  0 < vocabulary_size ->
  exists model g',
    NLM_init normal_draw vocabulary_size emb_length k g
    = Ok (model, g') /\
    (forall k',
        NLM_init normal_draw vocabulary_size emb_length k' g
        = Ok (model, g')) /\
    model_shapes (params model) emb_length vocabulary_size /\
    forall context,
      context <> [] ->
      Forall (fun c => has_shape c 1 vocabulary_size) context ->
      exists X,
        embed_context (E model)
                      (mkTensor emb_length 0 (repeat [] emb_length))
                      (enumerate context)
        = Ok X /\
        has_shape X (length context * emb_length) 1 /\
        (length context * emb_length <> 256 ->
           matmul (w1 model) X = Raise RuntimeError /\
           forward_pass tanh_f exp_f log_f model context
           = Raise RuntimeError) /\
        (length context * emb_length = 256 ->
           exists y,
             forward_pass tanh_f exp_f log_f model context = Ok y /\
             has_shape y vocabulary_size 1).
Proof.
  intros HV.
  destruct (NLM_init_ok vocabulary_size emb_length k g HV)
    as [model [g' [Hinit [Hemb [_ Hshapes]]]]].
  exists model, g'. split; [exact Hinit|]. split; [intros k'; exact Hinit|].
  split; [exact Hshapes|].
  intros context Hne Hctx.
  pose proof Hshapes as [[HEr HEc] [[_ H1c] _]].
  assert (Hctx' : Forall (fun c => has_shape c 1 (ncols (E model))) context).
  { unfold E. rewrite HEc. exact Hctx. }
  destruct (embed_context_shape (E model)
              (mkTensor emb_length 0 (repeat [] emb_length)) context Hne Hctx')
    as [X [HX [HXr HXc]]].
  unfold E in HXr at 1. rewrite HEr in HXr.
  exists X. split; [exact HX|]. split; [split; assumption|].
  unfold forward_pass. rewrite Hemb.
  destruct (forward_shape (params model) emb_length vocabulary_size
              emb_length context Hshapes Hne Hctx)
    as [Hbad Hgood].
  split.
  - intros Hmis. split; [|exact (Hbad Hmis)].
    apply matmul_mismatch. unfold w1. congruence.
  - intros Hfit. destruct (Hgood Hfit) as [y [f [Hy [Hs _]]]].
    exists y. split; assumption.
Qed.

End Shapes.

(** An embedding length of 10 and the context of four vectors that [train]
    builds: the products with [E] give 40 rows, and [w1] has 256 columns. *)
Lemma init_defers_shape_check_witness :
  let context := [one_hot 3 1; one_hot 3 1; one_hot 3 0; one_hot 3 2] in
  exists model g',
    NLM_init (fun _ _ _ => fzero) 3 10 4 0 = Ok (model, g') /\
    NLM_init (fun _ _ _ => fzero) 3 10 2 0 = Ok (model, g') /\
    (exists X,
        embed_context (E model) (mkTensor 10 0 (repeat [] 10))
                      (enumerate context)
        = Ok X /\
        has_shape X 40 1 /\
        matmul (w1 model) X = Raise RuntimeError) /\
    forward_pass (fun x => x) (fun x => x) (fun x => x) model context
    = Raise RuntimeError.
Proof.
  intros context.
  destruct (init_defers_shape_check (fun _ _ _ => fzero)
              (fun x => x) (fun x => x) (fun x => x) 3 10 4 0)
    as [model [g' [Hinit [Hk [_ Hforward]]]]]; [lia|].
  destruct (Hforward context) as [X [HX [HXs [Hbad _]]]].
  - discriminate.
  - repeat constructor.
  - exists model, g'. split; [exact Hinit|]. split; [exact (Hk 2)|].
    destruct Hbad as [Hmat Hraise]; [simpl; lia|].
    split; [|exact Hraise].
    exists X. split; [exact HX|]. split; [exact HXs|exact Hmat].
Defined.

(** C7 as worded fails: with an embedding length of 10 and [k = 4], whose
    product is not 256, the constructor returns a model. *)
Lemma init_defers_shape_check_counterexample :
  4 * 10 <> 256 /\
  forall normal_draw : nat -> nat -> nat -> float,
    exists model g', NLM_init normal_draw 3 10 4 0 = Ok (model, g').
Proof.
  split; [lia|]. intros normal_draw.
  destruct (NLM_init_ok normal_draw 3 10 4 0) as [model [g' [H _]]]; [lia|].
  exists model, g'. exact H.
Qed.

(** ** Training *)

Lemma zip_with_map_r {A B B' C : Type} (f : A -> B' -> C) (h : B -> B')
    (l : list A) (m : list B) :
  zip_with f l (map h m) = zip_with (fun a b => f a (h b)) l m.
Proof.
  revert m. induction l as [|a l IH]; intros [|b m]; simpl; try reflexivity.
  rewrite IH. reflexivity.
Qed.

Lemma zip_with_ext {A B C : Type} (f g : A -> B -> C) (l : list A) (m : list B) :
  (forall a b, f a b = g a b) -> zip_with f l m = zip_with g l m.
Proof.
  intros Hfg. revert m.
  induction l as [|a l IH]; intros [|b m]; simpl; try reflexivity.
  rewrite Hfg, IH. reflexivity.
Qed.

Lemma descend_descended (learning_rate : float) (p g : tensor) :
  descended learning_rate p g (descend learning_rate p g).
Proof.
  unfold descended, descend, tensor_zip, tensor_map, shape. simpl.
  split; [reflexivity|].
  rewrite zip_with_map_r. apply zip_with_ext. intros a b.
  apply zip_with_map_r.
Qed.

Lemma zero_all_zero (g : tensor) : all_zero (zero_ g).
Proof.
  unfold all_zero, zero_, tensor_map. simpl.
  apply Forall_forall. intros row Hrow.
  apply in_map_iff in Hrow. destruct Hrow as [r [<- _]].
  apply Forall_forall. intros x Hx.
  apply in_map_iff in Hx. destruct Hx as [y [<- _]]. reflexivity.
Qed.

Lemma weights_zero_all_zero (g : weights) :
  weights_all all_zero (weights_map zero_ g).
Proof.
  unfold weights_all, weights_map. simpl.
  repeat split; apply zero_all_zero.
Qed.

Lemma sgd_run_length (tanh_f exp_f log_f : float -> float)
    (differentiate : (weights -> result float) -> weights -> weights)
    (learning_rate : float) (m : NLM) (pairs : list training_pair)
    (history : list NLM) (stop : option exn) :
  sgd_run tanh_f exp_f log_f differentiate learning_rate m pairs history stop ->
  stop = None -> length history = length pairs.
Proof.
  induction 1 as [m|m pair rest e He|m m' pair rest history stop Hs Hr IH];
    intros Hstop.
  - reflexivity.
  - discriminate.
  - simpl. f_equal. apply IH, Hstop.
Qed.

Section Training.

Variables tanh_f exp_f log_f : float -> float.
Variable differentiate : (weights -> result float) -> weights -> weights.


Lemma loss_of_ok_inv (emb : nat) (pair : training_pair) (w : weights)
    (loss : float) :
  loss_of tanh_f exp_f log_f emb pair w = Ok loss ->
  exists log_y x,
    forward tanh_f exp_f log_f emb w (snd pair) = Ok log_y /\
    row_at log_y (fst pair) = Ok [x] /\
    loss = fneg x.
Proof.
  unfold loss_of.
  destruct (forward tanh_f exp_f log_f emb w (snd pair)) as [log_y|e]
    eqn:Hf; cbn [bind]; [|discriminate].
  destruct (row_at log_y (fst pair)) as [row|e] eqn:Hrow; cbn [bind];
    [|discriminate].
  destruct row as [|x [|x' row]]; simpl; try discriminate.
  intros [= <-]. exists log_y, x. split; [reflexivity|].
  split; [exact Hrow|reflexivity].
Qed.

Lemma train_step_raise (learning_rate : float) (m : NLM)
    (pair : training_pair) (e : exn) :
  train_step tanh_f exp_f log_f differentiate learning_rate m pair = Raise e ->
  loss_of tanh_f exp_f log_f (embedding_length m) pair (params m) = Raise e.
Proof.
  unfold train_step.
  destruct (loss_of tanh_f exp_f log_f (embedding_length m) pair (params m));
    cbn [bind]; [discriminate|]. intros [= <-]. reflexivity.
Qed.

Lemma train_step_sgd (learning_rate : float) (m m' : NLM)
    (pair : training_pair) :
  accumulators_clear m ->
  train_step tanh_f exp_f log_f differentiate learning_rate m pair = Ok m' ->
  sgd_step tanh_f exp_f log_f differentiate learning_rate m pair m'.
Proof.
  intros Hclear. unfold train_step.
  destruct (loss_of tanh_f exp_f log_f (embedding_length m) pair (params m))
    as [loss|e] eqn:Hloss; cbn [bind]; [|discriminate].
  intros [= <-].
  destruct (loss_of_ok_inv _ _ _ _ Hloss) as [log_y [x [Hf [Hrow ->]]]].
  exists log_y, x. split; [exact Hf|]. split; [exact Hrow|].
  split; [exact Hloss|]. cbv zeta.
  exists (accumulate (grads m)
            (differentiate
               (loss_of tanh_f exp_f log_f (embedding_length m) pair)
               (params m))).
  split.
  - unfold accumulators_clear in Hclear. unfold accumulate.
    destruct (grads m) as [zero|]; [split; [exact Hclear|reflexivity]|].
    reflexivity.
  - split; [reflexivity|].
    cbn [params weights_zip wE ww1 wb1 ww2 wb2].
    repeat (split; [apply descend_descended|]).
    eexists. split; [reflexivity|]. apply weights_zero_all_zero.
Qed.

Lemma train_step_clear (learning_rate : float) (m m' : NLM)
    (pair : training_pair) :
  train_step tanh_f exp_f log_f differentiate learning_rate m pair = Ok m' -> accumulators_zero m'.
Proof.
  unfold train_step.
  destruct (loss_of tanh_f exp_f log_f (embedding_length m) pair (params m));
    cbn [bind]; [|discriminate].
  intros [= <-]. eexists. split; [reflexivity|].
  apply weights_zero_all_zero.
Qed.

Lemma accumulators_zero_clear (m : NLM) :
  accumulators_zero m -> accumulators_clear m.
Proof.
  intros [acc [Hg Hz]]. unfold accumulators_clear. rewrite Hg. exact Hz.
Qed.

(** The loop of [train] is a run of online gradient descent over the pairs
    it is given, and leaves the accumulators zero after every example. *)
Lemma train_loop_run (learning_rate : float) (pairs : list training_pair) :
  forall m, accumulators_clear m ->
    sgd_run tanh_f exp_f log_f differentiate learning_rate m pairs
             (fst (train_loop tanh_f exp_f log_f differentiate learning_rate m pairs))
             (snd (train_loop tanh_f exp_f log_f differentiate learning_rate m pairs)) /\
    Forall accumulators_zero (fst (train_loop tanh_f exp_f log_f differentiate learning_rate m pairs)).
Proof.
  induction pairs as [|pair rest IH]; intros m Hclear.
  - split; constructor.
  - cbn [train_loop].
    destruct (train_step tanh_f exp_f log_f differentiate learning_rate m pair)
      as [m'|e] eqn:Hstep.
    + pose proof (train_step_clear _ _ _ _ Hstep) as Hzero.
      destruct (IH m' (accumulators_zero_clear _ Hzero)) as [Hrun Hall].
      destruct (train_loop tanh_f exp_f log_f differentiate learning_rate
                           m' rest) as [history stop].
      simpl in *. split.
      * apply sgd_run_step with (m' := m'); [|exact Hrun].
        apply train_step_sgd; assumption.
      * constructor; assumption.
    + simpl. split; [|constructor].
      apply sgd_run_raise. apply train_step_raise in Hstep. exact Hstep.
Qed.

(** C2, as the code has it.  [train] takes no epoch count.  One call
    draws one sequence from the sampler, with windows of four words, and
    makes one pass over it: for every pair in turn the loss is minus the
    log-probability of the target, its gradient is taken for the five
    parameters, each parameter becomes [parameter - learning_rate *
    gradient] entry by entry, and the accumulators are set to zero, so that
    no gradient is carried from one example to the next.  The pass ends
    with the sequence, or with the first exception. *)
Theorem train_single_pass (model : NLM) (corpus : list (list string))
    (vocabulary : Dict.t nat) (learning_rate : float) (tape : rng) :
  accumulators_clear model ->
  let s := generate_training_pairs corpus vocabulary 4 tape in
  let r := train tanh_f exp_f log_f differentiate model corpus vocabulary learning_rate tape in
  exists stop,
    sgd_run tanh_f exp_f log_f differentiate learning_rate model (fst (yielded s)) (train_history r) stop /\
    train_stop r = match stop with
                   | Some e => Some e
                   | None => snd (yielded s)
                   end /\
    train_corpus r = corpus_after s /\
    Forall accumulators_zero (train_history r) /\
    (stop = None -> length (train_history r) = length (fst (yielded s))).
Proof.
  intros Hclear s r.
  destruct (train_loop_run learning_rate (fst (yielded s)) model Hclear)
    as [Hrun Hall].
  unfold r, train. fold s.
  destruct (train_loop tanh_f exp_f log_f differentiate learning_rate model
                       (fst (yielded s))) as [history stop].
  simpl in *. exists stop.
  split; [exact Hrun|]. split; [reflexivity|]. split; [reflexivity|].
  split; [exact Hall|].
  intros Hstop. eapply sgd_run_length; eassumption.
Qed.

End Training.

Section TrainingTotal.

Variables tanh_f exp_f log_f : float -> float.
Variable differentiate : (weights -> result float) -> weights -> weights.

(** On the model of the script (embedding length 64) a pair of four
    one-hot vectors goes through, and the shapes stay. *)
Lemma train_step_total (learning_rate : float) (m : NLM) (V : nat)
    (pair : training_pair) :
  embedding_length m = 64 ->
  model_shapes (params m) 64 V ->
  pair_fits V pair ->
  exists m',
    train_step tanh_f exp_f log_f differentiate learning_rate m pair = Ok m' /\
    embedding_length m' = 64 /\
    model_shapes (params m') 64 V.
Proof.
  intros Hemb Hshapes [Htarget [Hlen Hctx]].
  assert (Hne : snd pair <> []).
  { intros Hnil. rewrite Hnil in Hlen. discriminate. }
  destruct (forward_shape tanh_f exp_f log_f (params m) 64 V
              (embedding_length m) (snd pair) Hshapes Hne Hctx)
    as [_ Hgood].
  destruct Hgood as [y [f [Hy [[Hyr Hyc] Hentries]]]];
    [rewrite Hlen; reflexivity|].
  unfold train_step, loss_of. rewrite Hy. cbn [bind].
  unfold row_at. rewrite Hyr.
  apply Nat.ltb_lt in Htarget as Htarget'. rewrite Htarget'.
  rewrite Hentries, (nth_error_tabulate V 1 f (fst pair) Htarget).
  cbn [bind seq map].
  eexists. split; [reflexivity|]. split; [exact Hemb|].
  destruct Hshapes as [HE [H1 [Hb1 [H2 Hb2]]]].
  unfold model_shapes, has_shape, descend, tensor_zip.
  cbn [params weights_zip wE ww1 wb1 ww2 wb2 nrows ncols].
  repeat split; first [apply HE|apply H1|apply Hb1|apply H2|apply Hb2].
Qed.

Lemma train_loop_total (learning_rate : float) (V : nat)
    (pairs : list training_pair) :
  Forall (pair_fits V) pairs ->
  forall m,
    embedding_length m = 64 ->
    model_shapes (params m) 64 V ->
    snd (train_loop tanh_f exp_f log_f differentiate learning_rate m pairs)
    = None /\
    length (fst (train_loop tanh_f exp_f log_f differentiate learning_rate
                            m pairs))
    = length pairs.
Proof.
  induction 1 as [|pair rest Hfit Hrest IH]; intros m Hemb Hshapes.
  - split; reflexivity.
  - cbn [train_loop].
    destruct (train_step_total learning_rate m V pair Hemb Hshapes Hfit)
      as [m' [-> [Hemb' Hshapes']]].
    destruct (IH m' Hemb' Hshapes') as [Hstop Hlen].
    destruct (train_loop tanh_f exp_f log_f differentiate learning_rate
                         m' rest) as [history stop].
    simpl in *. split; [exact Hstop|]. f_equal. exact Hlen.
Qed.

End TrainingTotal.

Lemma train_single_pass_witness :
  let model :=
    mkNLM 64 (mkWeights (zeros 64 3) (zeros 256 256) (zeros 256 1)
                        (zeros 3 256) (zeros 3 1)) None in
  let vocabulary := [("</s>", 0); ("<s>", 1); ("a", 2)] in
  let differentiate := fun (_ : weights -> result float) (w : weights) => w in
  let s := generate_training_pairs [["a"; "a"]] vocabulary 4 [] in
  let r := train (fun x => x) (fun x => x) (fun x => x) differentiate
                 model [["a"; "a"]] vocabulary fone [] in
  exists stop,
    sgd_run (fun x => x) (fun x => x) (fun x => x) differentiate fone model
            (fst (yielded s)) (train_history r) stop /\
    train_stop r = match stop with
                   | Some e => Some e
                   | None => snd (yielded s)
                   end /\
    train_corpus r = corpus_after s /\
    Forall accumulators_zero (train_history r) /\
    (stop = None -> length (train_history r) = length (fst (yielded s))).
Proof.
  intros model vocabulary differentiate.
  apply (train_single_pass (fun x => x) (fun x => x) (fun x => x) differentiate
           model [["a"; "a"]] vocabulary fone []).
  exact I.
Defined.

(** C2 as worded fails: there is no epoch count.  On a corpus of one
    sentence of two words a call of [train] on the model of the script makes
    the three updates of one epoch and returns; it does not make the six of
    two epochs. *)
Lemma train_single_pass_counterexample :
  let corpus := [["a"; "a"]] in
  let vocabulary := [("</s>", 0); ("<s>", 1); ("a", 2)] in
  length (fst (yielded (generate_training_pairs corpus vocabulary 4 []))) = 3 /\
  (forall normal_draw tanh_f exp_f log_f differentiate learning_rate model g,
     NLM_init normal_draw 3 64 4 0 = Ok (model, g) ->
     let r := train tanh_f exp_f log_f differentiate model corpus vocabulary
                    learning_rate [] in
     train_stop r = None /\ length (train_history r) = 3) /\
  ~ (forall (epochCount : nat)
            normal_draw tanh_f exp_f log_f differentiate learning_rate model g,
       NLM_init normal_draw 3 64 4 0 = Ok (model, g) ->
       length (train_history
                 (train tanh_f exp_f log_f differentiate model corpus
                        vocabulary learning_rate []))
       = epochCount * 3).
Proof.
  intros corpus vocabulary.
  assert (Hfits : Forall (pair_fits 3)
            (fst (yielded (generate_training_pairs corpus vocabulary 4 [])))).
  { vm_compute. repeat constructor. }
  assert (Hone : forall normal_draw tanh_f exp_f log_f differentiate
                        learning_rate model g,
     NLM_init normal_draw 3 64 4 0 = Ok (model, g) ->
     let r := train tanh_f exp_f log_f differentiate model corpus vocabulary
                    learning_rate [] in
     train_stop r = None /\ length (train_history r) = 3).
  { intros normal_draw tanh_f exp_f log_f differentiate learning_rate model g
           Hinit r.
    destruct (NLM_init_ok normal_draw 3 64 4 0) as [m [g' [Hm [Hemb [_ Hsh]]]]];
      [lia|].
    rewrite Hinit in Hm. injection Hm as <- <-.
    destruct (train_loop_total tanh_f exp_f log_f differentiate learning_rate 3
                _ Hfits model Hemb Hsh) as [Hstop Hlen].
    unfold r, train.
    destruct (train_loop tanh_f exp_f log_f differentiate learning_rate model
                (fst (yielded (generate_training_pairs corpus vocabulary 4 []))))
      as [history stop].
    simpl in Hstop, Hlen. subst stop. cbn [train_stop train_history].
    split; [reflexivity|exact Hlen]. }
  split; [reflexivity|]. split; [exact Hone|].
  intros Hclaim.
  destruct (NLM_init_ok (fun _ _ _ => fzero) 3 64 4 0) as [m [g [Hm _]]];
    [lia|].
  pose proof (Hclaim 2 (fun _ _ _ => fzero) (fun x => x) (fun x => x)
                (fun x => x) (fun _ w => w) fone m g Hm) as H2.
  destruct (Hone (fun _ _ _ => fzero) (fun x => x) (fun x => x) (fun x => x)
              (fun _ w => w) fone m g Hm) as [_ H1].
  rewrite H1 in H2. discriminate.
Qed.

(** ** The output of the network *)

Lemma fadd_nan_r (x : float) : fadd x S754_nan = S754_nan.
Proof. unfold fadd, SFadd. destruct x; reflexivity. Qed.

Lemma fold_fadd_from_nan (xs : list float) :
  fold_left fadd xs S754_nan = S754_nan.
Proof. induction xs as [|x xs IH]; simpl; [reflexivity|exact IH]. Qed.

Lemma fold_fadd_nan (xs : list float) (acc : float) :
  In S754_nan xs -> fold_left fadd xs acc = S754_nan.
Proof.
  revert acc. induction xs as [|x xs IH]; intros acc Hin; simpl.
  - destruct Hin.
  - destruct Hin as [->|Hin].
    + rewrite fadd_nan_r. apply fold_fadd_from_nan.
    + apply IH, Hin.
Qed.







Lemma map_nth_seq {A : Type} (d : A) (l : list A) :
  map (fun i => nth i l d) (seq 0 (length l)) = l.
Proof.
  induction l as [|a l IH]; [reflexivity|].
  cbn [length seq map nth]. f_equal.
  rewrite <- seq_shift, map_map. exact IH.
Qed.



Section Output.

Variables tanh_f exp_f log_f : float -> float.









End Output.





(** * Further properties of the code *)

(** ** Counting and rewriting *)

Lemma total_count_set_new (d : Dict.t nat) (k : string) (v : nat) :
  Dict.get d k = None -> total_count (Dict.set d k v) = total_count d + v.
Proof.
  unfold total_count. induction d as [|[k' c] d IH]; simpl; intros Hg.
  - lia.
  - destruct (k' =? k)%string; [discriminate|]. simpl. rewrite IH by exact Hg.
    lia.
Qed.

Lemma total_count_set_old (d : Dict.t nat) (k : string) (c v : nat) :
  Dict.get d k = Some c ->
  total_count (Dict.set d k v) + c = total_count d + v.
Proof.
  unfold total_count. induction d as [|[k' c'] d IH]; simpl; intros Hg.
  - discriminate.
  - destruct (k' =? k)%string; simpl.
    + injection Hg as ->. lia.
    + specialize (IH Hg). lia.
Qed.

Lemma total_count_count_word (d : Dict.t nat) (w : string) :
  total_count (count_word d w) = total_count d + 1.
Proof.
  unfold count_word, Dict.contains.
  destruct (Dict.get d w) as [c|] eqn:Hg; simpl.
  - pose proof (total_count_set_old d w c (c + 1) Hg). lia.
  - rewrite total_count_set_new by exact Hg. reflexivity.
Qed.

Lemma total_count_fold (ws : list string) (d : Dict.t nat) :
  total_count (fold_left count_word ws d) = total_count d + length ws.
Proof.
  revert d. induction ws as [|w ws IH]; intros d; simpl.
  - lia.
  - rewrite IH, total_count_count_word. lia.
Qed.

(** X1.  [get_word_counts] gives every word of the corpus the number of times
    it occurs, which is at least one, and gives a word that does not occur
    no entry; the counts add up to the number of words of the corpus. *)
Theorem word_counts_are_occurrences (corpus : list (list string)) :
  (forall w c,
     Dict.get (get_word_counts corpus) w = Some c
     <-> c = occurrences w (words_of corpus) /\ 0 < c) /\
  (forall w,
     Dict.get (get_word_counts corpus) w = None <-> ~ In w (words_of corpus)) /\
  total_count (get_word_counts corpus) = length (words_of corpus).
Proof.
  split; [|split].
  - intros w c. rewrite get_word_counts_get.
    destruct (Nat.eqb_spec (occurrences w (words_of corpus)) 0) as [Hz|Hnz].
    + split; [discriminate|]. intros [-> Hpos]. lia.
    + split.
      * intros [= <-]. split; [reflexivity|lia].
      * intros [-> _]. reflexivity.
  - intros w. rewrite get_word_counts_get, <- occurrences_zero_iff.
    destruct (Nat.eqb_spec (occurrences w (words_of corpus)) 0) as [Hz|Hnz].
    + tauto.
    + split; [discriminate|]. intros Hz. contradiction.
  - unfold get_word_counts. rewrite get_word_counts_concat, total_count_fold.
    reflexivity.
Qed.

Lemma find_app_first {A : Type} (f : A -> bool) (l m : list A) :
  find f (l ++ m) = match find f l with
                    | Some a => Some a
                    | None => find f m
                    end.
Proof.
  induction l as [|a l IH]; simpl; [reflexivity|].
  destruct (f a); [reflexivity|exact IH].
Qed.

Lemma replace_word_cases (word_counts : Dict.t nat) (w : string) :
  replace_word word_counts w
  = if Dict.contains word_counts w then Ok (rewrite_word word_counts w)
    else Raise (KeyError w).
Proof.
  unfold replace_word, rewrite_word, Dict.lookup, Dict.contains.
  destruct (Dict.get word_counts w); reflexivity.
Qed.

Lemma replace_sentence_cases (word_counts : Dict.t nat) (sent : list string) :
  mapM (replace_word word_counts) sent
  = match first_missing word_counts sent with
    | Some w => Raise (KeyError w)
    | None => Ok (map (rewrite_word word_counts) sent)
    end.
Proof.
  unfold first_missing. induction sent as [|w sent IH]; simpl.
  - reflexivity.
  - rewrite replace_word_cases.
    destruct (Dict.contains word_counts w); simpl; [|reflexivity].
    rewrite IH.
    destruct (find (fun w0 => negb (Dict.contains word_counts w0)) sent);
      reflexivity.
Qed.

Lemma replace_rare_words_cases (corpus : list (list string))
    (word_counts : Dict.t nat) :
  replace_rare_words corpus word_counts
  = match first_missing word_counts (words_of corpus) with
    | Some w => Raise (KeyError w)
    | None => Ok (map (map (rewrite_word word_counts)) corpus)
    end.
Proof.
  unfold replace_rare_words, first_missing, words_of.
  induction corpus as [|sent corpus IH]; simpl.
  - reflexivity.
  - rewrite replace_sentence_cases, find_app_first. unfold first_missing.
    destruct (find (fun w => negb (Dict.contains word_counts w)) sent);
      simpl; [reflexivity|].
    rewrite IH.
    destruct (find (fun w => negb (Dict.contains word_counts w))
                   (concat corpus)); reflexivity.
Qed.

(** What a sentence is left as: rewritten to the end, or up to the first
    word without a count. *)
Lemma replace_in_sentence_cases (word_counts : Dict.t nat)
    (sent : list string) :
  match first_missing word_counts sent with
  | None =>
      replace_in_sentence word_counts sent
      = (map (rewrite_word word_counts) sent, None)
  | Some w =>
      exists before after,
        sent = before ++ w :: after /\
        first_missing word_counts before = None /\
        replace_in_sentence word_counts sent
        = (map (rewrite_word word_counts) before ++ w :: after,
           Some (KeyError w))
  end.
Proof.
  unfold first_missing. induction sent as [|word sent IH].
  - reflexivity.
  - cbn [find replace_in_sentence].
    destruct (Dict.get word_counts word) as [c|] eqn:Hget.
    + assert (Hcontains : Dict.contains word_counts word = true)
        by (unfold Dict.contains; rewrite Hget; reflexivity).
      assert (Hlookup : Dict.lookup word_counts word = Ok c)
        by (unfold Dict.lookup; rewrite Hget; reflexivity).
      assert (Hword : rewrite_word word_counts word
                      = if c =? 1 then "<unk>" else word)
        by (unfold rewrite_word; rewrite Hget; reflexivity).
      rewrite Hcontains, Hlookup. cbn [negb].
      destruct (find (fun w => negb (Dict.contains word_counts w)) sent)
        as [w|].
      * destruct IH as [before [after [-> [Hbefore ->]]]].
        exists (word :: before), after. split; [reflexivity|].
        split.
        -- cbn [find]. rewrite Hcontains. exact Hbefore.
        -- cbn [map app]. rewrite Hword. reflexivity.
      * rewrite IH. cbn [map]. rewrite Hword. reflexivity.
    + assert (Hcontains : Dict.contains word_counts word = false)
        by (unfold Dict.contains; rewrite Hget; reflexivity).
      assert (Hlookup : Dict.lookup word_counts word = Raise (KeyError word))
        by (unfold Dict.lookup; rewrite Hget; reflexivity).
      rewrite Hcontains, Hlookup. cbn [negb].
      exists [], sent. repeat split.
Qed.

(** X2.  For counts that are a plain [dict] and sentences that are separate
    lists, [replace_rare_words] raises exactly when a word of the corpus
    has no entry in the counts, and the [KeyError] names the first such
    word in reading order: the words before it have been rewritten, and
    the corpus is as it was from that word on.  Otherwise the call rewrites
    to ["<unk>"] the words whose entry is one and leaves the others. *)
Theorem replace_rare_words_key_error (corpus : list (list string))
    (word_counts : Dict.t nat) :
  match first_missing word_counts (words_of corpus) with
  | None =>
      replace_rare_words_in_place corpus word_counts
      = (map (map (rewrite_word word_counts)) corpus, None) /\
      replace_rare_words corpus word_counts
      = Ok (map (map (rewrite_word word_counts)) corpus)
  | Some w =>
      replace_rare_words corpus word_counts = Raise (KeyError w) /\
      exists corpus' before after,
        replace_rare_words_in_place corpus word_counts
        = (corpus', Some (KeyError w)) /\
        words_of corpus = before ++ w :: after /\
        first_missing word_counts before = None /\
        words_of corpus'
        = map (rewrite_word word_counts) before ++ w :: after /\
        map (@length string) corpus' = map (@length string) corpus
  end.
Proof.
  pose proof (replace_rare_words_cases corpus word_counts) as Hresult.
  assert (Hplace :
    match first_missing word_counts (words_of corpus) with
    | None =>
        replace_rare_words_in_place corpus word_counts
        = (map (map (rewrite_word word_counts)) corpus, None)
    | Some w =>
        exists corpus' before after,
          replace_rare_words_in_place corpus word_counts
          = (corpus', Some (KeyError w)) /\
          words_of corpus = before ++ w :: after /\
          first_missing word_counts before = None /\
          words_of corpus'
          = map (rewrite_word word_counts) before ++ w :: after /\
          map (@length string) corpus' = map (@length string) corpus
    end).
  { clear Hresult. unfold words_of.
    induction corpus as [|sent corpus IH]; [reflexivity|].
    cbn [concat replace_rare_words_in_place].
    unfold first_missing in *. rewrite find_app_first.
    pose proof (replace_in_sentence_cases word_counts sent) as Hsent.
    unfold first_missing in Hsent.
    destruct (find (fun w => negb (Dict.contains word_counts w)) sent)
      as [w|] eqn:Hfind.
    - destruct Hsent as [before [after [-> [Hbefore ->]]]].
      eexists. exists before, (after ++ concat corpus).
      split; [reflexivity|]. split.
      { rewrite <- app_assoc. reflexivity. }
      split; [exact Hbefore|]. split.
      + cbn [concat]. rewrite <- app_assoc. reflexivity.
      + cbn [map]. rewrite !length_app, length_map. reflexivity.
    - rewrite Hsent.
      destruct (find (fun w => negb (Dict.contains word_counts w))
                     (concat corpus)) as [w|].
      + destruct IH as [corpus' [before [after [-> [Hw [Hb [Hw' Hl]]]]]]].
        eexists. exists (sent ++ before), after.
        split; [reflexivity|]. split.
        { rewrite Hw, <- app_assoc. reflexivity. }
        split.
        { rewrite find_app_first, Hfind. exact Hb. }
        split.
        * cbn [concat]. rewrite Hw', map_app, <- app_assoc. reflexivity.
        * cbn [map]. rewrite length_map, Hl. reflexivity.
      + rewrite IH. reflexivity. }
  destruct (first_missing word_counts (words_of corpus)) as [w|].
  - split; [exact Hresult|exact Hplace].
  - split; [exact Hplace|exact Hresult].
Qed.

(** The corpus of the script has no count for a word of another corpus:
    the call stops at ["c"], with ["b"] already rewritten. *)
Example replace_rare_words_half_done :
  replace_rare_words_in_place [["a"; "b"]; ["c"; "a"]]
                              (get_word_counts [["a"; "b"; "a"]])
  = ([["a"; "<unk>"]; ["c"; "a"]], Some (KeyError "c")).
Proof. reflexivity. Qed.

Lemma occurrences_map_fixed (f : string -> string) (w : string)
    (ws : list string) :
  (forall x, In x ws -> (f x = w <-> x = w)) ->
  occurrences w (map f ws) = occurrences w ws.
Proof.
  induction ws as [|x ws IH]; intros Hf.
  - reflexivity.
  - cbn [map]. rewrite !occurrences_cons.
    rewrite IH by (intros y Hy; apply Hf; right; exact Hy).
    f_equal.
    destruct (String.eqb_spec w (f x)) as [Ha|Ha];
      destruct (String.eqb_spec w x) as [Hb|Hb]; try reflexivity; exfalso.
    + apply Hb. symmetry. apply Hf; [left; reflexivity|congruence].
    + apply Ha. symmetry. apply Hf; [left; reflexivity|congruence].
Qed.

Lemma survivor_occurrences (ws : list string) (w : string) :
  In w (map (unk_if_single ws) ws) -> w <> "<unk>" ->
  occurrences w (map (unk_if_single ws) ws) = occurrences w ws /\
  2 <= occurrences w ws.
Proof.
  intros Hin Hne. apply in_map_iff in Hin. destruct Hin as [x [Hx Hin]].
  destruct (unk_if_single_cases ws x) as [[_ Hu]|[Hocc Hu]];
    rewrite Hu in Hx; [congruence|]. subst x.
  assert (Hnz : occurrences w ws <> 0).
  { intros Hz. apply occurrences_zero_iff in Hz. contradiction. }
  split; [|lia].
  apply occurrences_map_fixed. intros x _.
  destruct (unk_if_single_cases ws x) as [[Ho Hux]|[Ho Hux]]; rewrite Hux.
  - split; [congruence|]. intros ->. contradiction.
  - tauto.
Qed.

Lemma map_map_fixed {A : Type} (f : A -> A) (ls : list (list A)) :
  (forall l, In l ls -> forall a, In a l -> f a = a) -> map (map f) ls = ls.
Proof.
  induction ls as [|l ls IH]; intros Hf; simpl; [reflexivity|].
  rewrite IH by (intros m Hm; apply Hf; right; exact Hm).
  f_equal. rewrite <- (map_id l) at 2.
  apply map_ext_in. intros a Ha. apply (Hf l); [left; reflexivity|exact Ha].
Qed.

(** X3.  After rare-word replacement the corpus has the sentences it had,
    each of its length; every word left in it other than ["<unk>"] occurs
    as often as before, and at least twice; and a second replacement, with
    the counts of the rewritten corpus, changes nothing. *)
Theorem rare_words_gone (corpus : list (list string)) :
  exists corpus',
    replace_rare_words corpus (get_word_counts corpus) = Ok corpus' /\
    map (@length string) corpus' = map (@length string) corpus /\
    (forall w, In w (words_of corpus') -> w <> "<unk>" ->
       occurrences w (words_of corpus') = occurrences w (words_of corpus) /\
       2 <= occurrences w (words_of corpus')) /\
    replace_rare_words corpus' (get_word_counts corpus') = Ok corpus'.
Proof.
  exists (map (map (unk_if_single (words_of corpus))) corpus).
  split; [apply replace_rare_words_total|]. split.
  - rewrite map_map. apply map_ext. intros sent. apply length_map.
  - assert (Hsurv : forall w,
      In w (words_of (map (map (unk_if_single (words_of corpus))) corpus)) ->
      w <> "<unk>" ->
      occurrences w
        (words_of (map (map (unk_if_single (words_of corpus))) corpus))
      = occurrences w (words_of corpus) /\
      2 <= occurrences w
             (words_of (map (map (unk_if_single (words_of corpus))) corpus))).
    { intros w Hin Hne. rewrite words_of_map in *.
      destruct (survivor_occurrences _ w Hin Hne) as [Heq Hge].
      rewrite Heq. split; [reflexivity|exact Hge]. }
    split; [exact Hsurv|].
    rewrite replace_rare_words_total.
    f_equal. apply map_map_fixed. intros sent Hsent w Hw.
    assert (Hin : In w (words_of
                     (map (map (unk_if_single (words_of corpus))) corpus))).
    { apply in_words_of. exists sent. split; assumption. }
    destruct (String.eqb_spec w "<unk>") as [->|Hne].
    + unfold unk_if_single. destruct (_ =? 1); reflexivity.
    + destruct (Hsurv w Hin Hne) as [_ Hge].
      destruct (unk_if_single_cases
                  (words_of
                     (map (map (unk_if_single (words_of corpus))) corpus)) w)
        as [[Hone _]|[_ Hsame]]; [lia|exact Hsame].
Qed.

(** ** Indices and one-hot vectors *)

Lemma find_last_greatest (w : string) (l : list string) (i j : nat) :
  find_last w l = Some i -> i < j -> nth_error l j <> Some w.
Proof.
  revert i j. induction l as [|x l IH]; intros i j; simpl.
  - discriminate.
  - destruct (find_last w l) as [i'|] eqn:Hf.
    + intros [= <-] Hlt. destruct j as [|j]; [lia|]. simpl.
      apply (IH i' j); [reflexivity|lia].
    + destruct (x =? w)%string; [|discriminate].
      intros [= <-] Hlt. destruct j as [|j]; [lia|]. simpl.
      intros Hn. apply nth_error_In in Hn.
      apply find_last_none_iff in Hf. contradiction.
Qed.

Lemma find_last_of_greatest (w : string) (l : list string) (i : nat) :
  nth_error l i = Some w ->
  (forall j, i < j -> nth_error l j <> Some w) ->
  find_last w l = Some i.
Proof.
  revert i. induction l as [|x l IH]; intros i Hi Hlast.
  - destruct i; discriminate.
  - simpl. destruct i as [|i]; simpl in Hi.
    + injection Hi as ->.
      destruct (find_last w l) as [j|] eqn:Hf.
      * exfalso. apply (Hlast (S j)); [lia|]. simpl.
        apply find_last_nth. exact Hf.
      * rewrite String.eqb_refl. reflexivity.
    + rewrite (IH i Hi); [reflexivity|].
      intros j Hj. apply (Hlast (S j)). lia.
Qed.

(** X4.  In the dictionary made of the sorted vocabulary list a word has
    the index of its last position in the list: of two equal entries the
    later one wins, and the position of the earlier one is given to no
    word. *)
Theorem vocabulary_dict_last_position (vocabulary : list string)
    (w : string) (i : nat) :
  Dict.get (vocabulary_dict vocabulary) w = Some i
  <-> nth_error vocabulary i = Some w /\
      forall j, i < j -> nth_error vocabulary j <> Some w.
Proof.
  rewrite vocabulary_dict_get. split.
  - intros Hf. split.
    + apply find_last_nth. exact Hf.
    + intros j. apply find_last_greatest. exact Hf.
  - intros [Hi Hlast]. apply find_last_of_greatest; assumption.
Qed.

Lemma nth_list_set {A : Type} (l : list A) (i j : nat) (x d : A) :
  j < length l ->
  nth j (list_set l i x) d = if i =? j then x else nth j l d.
Proof.
  intros Hj.
  assert (Hj' : j < length (list_set l i x)) by (rewrite list_set_length; exact Hj).
  pose proof (nth_error_nth' (list_set l i x) d Hj') as H1.
  rewrite nth_error_list_set in H1.
  destruct (Nat.eqb_spec i j) as [->|Hne].
  - apply Nat.ltb_lt in Hj. rewrite Hj in H1. congruence.
  - rewrite (nth_error_nth' l d Hj) in H1. congruence.
Qed.

(** X5.  [convert_to_one_hot] raises [KeyError] for a word without an index
    and [IndexError] for an index that is not below the size of the
    vocabulary; otherwise it returns one row of that size, with a one at the
    index of the word and zeros everywhere else. *)
Theorem convert_to_one_hot_spec (word : string) (vocabulary : Dict.t nat) :
  match Dict.get vocabulary word with
  | None => convert_to_one_hot word vocabulary = Raise (KeyError word)
  | Some i =>
      if i <? Dict.len vocabulary then
        exists t,
          convert_to_one_hot word vocabulary = Ok t /\
          has_shape t 1 (Dict.len vocabulary) /\
          well_shaped t /\
          forall j, j < Dict.len vocabulary ->
            entry t 0 j = if j =? i then fone else fzero
      else convert_to_one_hot word vocabulary = Raise IndexError
  end.
Proof.
  unfold convert_to_one_hot, Dict.lookup.
  destruct (Dict.get vocabulary word) as [i|]; [|reflexivity].
  cbn [bind]. destruct (i <? Dict.len vocabulary) eqn:Hi; [|reflexivity].
  eexists. split; [reflexivity|]. split; [split; reflexivity|]. split.
  - split; [reflexivity|]. cbn [entries zeros repeat map ncols].
    repeat constructor. rewrite list_set_length. apply repeat_length.
  - intros j Hj. unfold entry. cbn [entries zeros repeat map nth].
    rewrite nth_list_set by (rewrite repeat_length; exact Hj).
    rewrite Nat.eqb_sym. destruct (j =? i); [reflexivity|].
    apply nth_repeat.
Qed.

Lemma last_position_find_last (l : list string) (w : string) :
  find_last w (l ++ [w]) = Some (length l).
Proof.
  induction l as [|x l IH]; simpl.
  - rewrite String.eqb_refl. reflexivity.
  - rewrite IH. reflexivity.
Qed.

(** X6.  When the rewritten corpus holds a literal boundary marker, the
    dictionary has fewer entries than the sorted list, and the last word of
    the list gets an index that is not below the size of the dictionary:
    [convert_to_one_hot] raises [IndexError] for that word. *)
Theorem marker_breaks_one_hot (corpus : list (list string)) :
  some_boundary_marker corpus ->
  let v := vocabulary_dict (vocabulary_list (get_word_counts corpus)) in
  exists w i,
    In w (vocabulary_list (get_word_counts corpus)) /\
    Dict.get v w = Some i /\
    Dict.len v <= i /\
    convert_to_one_hot w v = Raise IndexError.
Proof.
  intros Hsome v.
  pose proof (vocabulary_list_dup corpus Hsome) as Hdup.
  pose proof (nodup_length_lt _ Hdup) as Hlt.
  unfold v. set (l := vocabulary_list (get_word_counts corpus)) in *.
  destruct (exists_last (l := l)) as [l' [w Hl]].
  { intros Hnil. apply Hdup. rewrite Hnil. constructor. }
  exists w, (length l').
  assert (Hget : Dict.get (vocabulary_dict l) w = Some (length l')).
  { rewrite vocabulary_dict_get, Hl. apply last_position_find_last. }
  assert (Hlen : Dict.len (vocabulary_dict l) <= length l').
  { rewrite vocabulary_dict_len.
    rewrite Hl, length_app in Hlt. simpl in Hlt. rewrite Hl. lia. }
  split; [rewrite Hl; apply in_or_app; right; left; reflexivity|].
  split; [exact Hget|]. split; [exact Hlen|].
  unfold convert_to_one_hot, Dict.lookup. rewrite Hget. cbn [bind].
  destruct (Nat.ltb_spec (length l') (Dict.len (vocabulary_dict l)));
    [lia|reflexivity].
Qed.

Lemma marker_breaks_one_hot_witness :
  let v := vocabulary_dict
             (vocabulary_list (get_word_counts [["<s>"; "<s>"; "a"]])) in
  exists w i,
    In w (vocabulary_list (get_word_counts [["<s>"; "<s>"; "a"]])) /\
    Dict.get v w = Some i /\
    Dict.len v <= i /\
    convert_to_one_hot w v = Raise IndexError.
Proof.
  apply (marker_breaks_one_hot [["<s>"; "<s>"; "a"]]).
  exists ["<s>"; "<s>"; "a"]. simpl. tauto.
Defined.

(** ** The windows of the sampler *)

Lemma map_seq_const {A : Type} (f : nat -> A) (c : A) (s k : nat) :
  (forall d, s <= d < s + k -> f d = c) -> map f (seq s k) = repeat c k.
Proof.
  revert s. induction k as [|k IH]; intros s Hf; simpl.
  - reflexivity.
  - rewrite (Hf s) by lia. f_equal. apply IH. intros d Hd. apply Hf. lia.
Qed.

Lemma map_nth_seq_from {A : Type} (d : A) (h l : list A) :
  map (fun i => nth i (h ++ l) d) (seq (length h) (length l)) = l.
Proof.
  revert h. induction l as [|x l IH]; intros h; simpl.
  - reflexivity.
  - rewrite app_nth2 by lia. rewrite Nat.sub_diag. simpl. f_equal.
    specialize (IH (h ++ [x])).
    rewrite <- app_assoc, length_app in IH. simpl in IH.
    rewrite Nat.add_1_r in IH. exact IH.
Qed.

Lemma preceding_first (k : nat) (sent : list string) :
  preceding k (pad_sentence k sent) k = repeat "<s>" k.
Proof.
  unfold preceding. apply map_seq_const. intros d Hd.
  apply pad_sentence_front. lia.
Qed.

Lemma preceding_slide (k p : nat) (l : list string) :
  0 < k -> k <= p ->
  preceding k l (S p) = tl (preceding k l p) ++ [nth p l ""].
Proof.
  intros Hk Hp. unfold preceding.
  destruct k as [|k]; [lia|].
  rewrite seq_S at 1. rewrite map_app. cbn [seq map tl].
  rewrite <- seq_shift, map_map. f_equal.
  - apply map_ext. intros d. f_equal. lia.
  - simpl. do 2 f_equal. lia.
Qed.

Lemma plain_sentence_pairs (vocabulary : Dict.t nat) (k : nat)
    (sent : list string) :
  covers vocabulary (pad_sentence k sent) -> ~ In "<s>" sent ->
  pairs_of_sentence vocabulary k sent
  = (map (expected_pair vocabulary k (pad_sentence k sent))
         (seq k (length sent + 1)), None).
Proof.
  intros Hc Hno. rewrite (pairs_of_sentence_covered vocabulary k sent Hc).
  rewrite (target_positions_plain k sent Hno). reflexivity.
Qed.

Lemma nth_error_map_seq {A : Type} (f : nat -> A) (s n i : nat) (a : A) :
  nth_error (map f (seq s n)) i = Some a -> i < n /\ a = f (s + i).
Proof.
  rewrite nth_error_map, nth_error_seq.
  destruct (Nat.ltb_spec i n); simpl; [|discriminate].
  intros [= <-]. split; [assumption|reflexivity].
Qed.

(** X7.  For a sentence without a literal ["<s>"] and a window of [k > 0]
    words, the first context the sampler yields is [k] start markers, and
    every later context is the one before it without its oldest vector and
    with the one-hot vector of the previous target at the end. *)
Theorem sampler_window_slides (vocabulary : Dict.t nat) (k : nat)
    (sent : list string) :
  covers vocabulary (pad_sentence k sent) -> ~ In "<s>" sent -> 0 < k ->
  let pairs := fst (pairs_of_sentence vocabulary k sent) in
  let n := Dict.len vocabulary in
  (exists first rest,
     pairs = first :: rest /\
     snd first = repeat (one_hot n (index_of vocabulary "<s>")) k) /\
  (forall i p q,
     nth_error pairs i = Some p -> nth_error pairs (S i) = Some q ->
     snd q = tl (snd p) ++ [one_hot n (fst p)]).
Proof.
  intros Hc Hno Hk pairs n. unfold pairs.
  rewrite (plain_sentence_pairs vocabulary k sent Hc Hno). cbn [fst]. split.
  - rewrite Nat.add_1_r. cbn [seq map].
    eexists. eexists. split; [reflexivity|].
    unfold expected_pair. cbn [snd].
    rewrite preceding_first, map_repeat. reflexivity.
  - intros i p q Hp Hq.
    apply nth_error_map_seq in Hp. destruct Hp as [_ ->].
    apply nth_error_map_seq in Hq. destruct Hq as [_ ->].
    unfold expected_pair. cbn [fst snd].
    replace (k + S i) with (S (k + i)) by lia.
    rewrite preceding_slide by lia.
    rewrite map_app. cbn [map]. f_equal.
    destruct (preceding k (pad_sentence k sent) (k + i)); reflexivity.
Qed.

Lemma sampler_window_slides_witness :
  let vocabulary := [("</s>", 0); ("<s>", 1); ("cat", 2); ("the", 3)] in
  let pairs := fst (pairs_of_sentence vocabulary 2 ["the"; "cat"]) in
  (exists first rest,
     pairs = first :: rest /\
     snd first = repeat (one_hot 4 (index_of vocabulary "<s>")) 2) /\
  (forall i p q,
     nth_error pairs i = Some p -> nth_error pairs (S i) = Some q ->
     snd q = tl (snd p) ++ [one_hot 4 (fst p)]).
Proof.
  apply (sampler_window_slides
           [("</s>", 0); ("<s>", 1); ("cat", 2); ("the", 3)] 2 ["the"; "cat"]).
  - intros w Hw. simpl in Hw.
    destruct Hw as [<-|[<-|[<-|[<-|[<-|[]]]]]]; eexists; split;
      try reflexivity; simpl; lia.
  - simpl. intuition discriminate.
  - lia.
Defined.

Lemma list_sum_map_Permutation {A : Type} (f : A -> nat) (l m : list A) :
  Permutation l m -> list_sum (map f l) = list_sum (map f m).
Proof.
  induction 1; simpl; lia.
Qed.

Lemma length_concat_sum {A : Type} (ls : list (list A)) :
  length (concat ls) = list_sum (map (@length A) ls).
Proof.
  induction ls as [|l ls IH]; simpl; [reflexivity|].
  rewrite length_app, IH. reflexivity.
Qed.

Lemma plain_sentence_targets (vocabulary : Dict.t nat) (k : nat)
    (sent : list string) :
  covers vocabulary (pad_sentence k sent) -> ~ In "<s>" sent ->
  map fst (fst (pairs_of_sentence vocabulary k sent))
  = map (index_of vocabulary) (sent ++ ["</s>"]).
Proof.
  intros Hc Hno. rewrite (plain_sentence_pairs vocabulary k sent Hc Hno).
  cbn [fst]. rewrite map_map. unfold expected_pair. cbn [fst].
  rewrite <- (map_map (fun i => nth i (pad_sentence k sent) "")
                      (index_of vocabulary)).
  f_equal. unfold pad_sentence.
  pose proof (map_nth_seq_from "" (repeat "<s>" k) (sent ++ ["</s>"])) as H.
  rewrite repeat_length, length_app in H. exact H.
Qed.

Lemma plain_sentence_count (vocabulary : Dict.t nat) (k : nat)
    (sent : list string) :
  covers vocabulary (pad_sentence k sent) -> ~ In "<s>" sent ->
  length (fst (pairs_of_sentence vocabulary k sent)) = length sent + 1.
Proof.
  intros Hc Hno. rewrite (plain_sentence_pairs vocabulary k sent Hc Hno).
  cbn [fst]. rewrite length_map, length_seq. reflexivity.
Qed.

(** A run over sentences the vocabulary covers ends without an exception,
    after a pair for every word and one more for every sentence. *)
Lemma sampler_epoch_covered (corpus : list (list string))
    (vocabulary : Dict.t nat) (k : nat) (tape : rng) :
  (forall sent, In sent corpus ->
     covers vocabulary (pad_sentence k sent) /\ ~ In "<s>" sent) ->
  let s := generate_training_pairs corpus vocabulary k tape in
  snd (yielded s) = None /\
  length (fst (yielded s)) = length (words_of corpus) + length corpus.
Proof.
  intros Hc s. unfold s, generate_training_pairs.
  pose proof (shuffle_Permutation corpus tape) as Hp.
  destruct (shuffle corpus tape) as [corpus' tape']. cbn [fst] in Hp.
  cbn [yielded].
  assert (Hc' : forall sent, In sent corpus' ->
            covers vocabulary (pad_sentence k sent) /\ ~ In "<s>" sent).
  { intros sent Hin. apply Hc.
    apply (Permutation_in _ (Permutation_sym Hp)). exact Hin. }
  rewrite pairs_of_corpus_covered by (intros sent Hin; apply Hc', Hin).
  cbn [fst snd]. split; [reflexivity|].
  rewrite length_concat_sum, map_map.
  rewrite (map_ext_in _ (fun sent => length sent + 1)).
  2:{ intros sent Hin. destruct (Hc' sent Hin) as [Hcov Hno].
      apply plain_sentence_count; assumption. }
  rewrite <- (list_sum_map_Permutation
                (fun sent => length sent + 1) corpus corpus' Hp).
  unfold words_of. rewrite length_concat_sum.
  clear. induction corpus as [|sent corpus IH]; simpl; [reflexivity|].
  rewrite IH. lia.
Qed.

(** X8.  With a vocabulary that has an index for every token and sentences
    without a literal ["<s>"], one run of the sampler raises nothing; the
    targets it yields, read in order, are the indices of the words of the
    sentences in their shuffled order, each sentence followed by the end
    marker; and their number is the number of words of the corpus plus the
    number of its sentences, whatever the shuffle. *)
Theorem sampler_epoch_size (corpus : list (list string))
    (vocabulary : Dict.t nat) (k : nat) (tape : rng) :
  (forall sent, In sent corpus ->
     covers vocabulary (pad_sentence k sent) /\ ~ In "<s>" sent) ->
  let s := generate_training_pairs corpus vocabulary k tape in
  snd (yielded s) = None /\
  map fst (fst (yielded s))
  = map (index_of vocabulary)
        (concat (map (fun sent => sent ++ ["</s>"]) (corpus_after s))) /\
  length (fst (yielded s)) = length (words_of corpus) + length corpus.
Proof.
  intros Hc s.
  destruct (sampler_epoch_covered corpus vocabulary k tape Hc) as [Hstop Hlen].
  split; [exact Hstop|]. split; [|exact Hlen].
  unfold s, generate_training_pairs.
  pose proof (shuffle_Permutation corpus tape) as Hp.
  destruct (shuffle corpus tape) as [corpus' tape']. cbn [fst] in Hp.
  cbn [yielded corpus_after].
  assert (Hc' : forall sent, In sent corpus' ->
            covers vocabulary (pad_sentence k sent) /\ ~ In "<s>" sent).
  { intros sent Hin. apply Hc.
    apply (Permutation_in _ (Permutation_sym Hp)). exact Hin. }
  rewrite pairs_of_corpus_covered by (intros sent Hin; apply Hc', Hin).
  cbn [fst]. rewrite !concat_map, !map_map. f_equal.
  apply map_ext_in. intros sent Hin.
  destruct (Hc' sent Hin) as [Hcov Hno].
  apply plain_sentence_targets; assumption.
Qed.

Lemma sampler_epoch_size_witness :
  let vocabulary := [("</s>", 0); ("<s>", 1); ("cat", 2); ("the", 3)] in
  let s := generate_training_pairs [["the"; "cat"]; ["cat"]] vocabulary 2 [1] in
  snd (yielded s) = None /\
  map fst (fst (yielded s))
  = map (index_of vocabulary)
        (concat (map (fun sent => sent ++ ["</s>"]) (corpus_after s))) /\
  length (fst (yielded s))
  = length (words_of [["the"; "cat"]; ["cat"]]) + 2.
Proof.
  apply (sampler_epoch_size [["the"; "cat"]; ["cat"]]
           [("</s>", 0); ("<s>", 1); ("cat", 2); ("the", 3)] 2 [1]).
  intros sent Hin. split.
  - intros w Hw.
    assert (Hw' : In w ["<s>"; "the"; "cat"; "</s>"]).
    { destruct Hin as [<-|[<-|[]]]; simpl in Hw; simpl; tauto. }
    simpl in Hw'.
    destruct Hw' as [<-|[<-|[<-|[<-|[]]]]]; eexists; split;
      try reflexivity; simpl; lia.
  - destruct Hin as [<-|[<-|[]]]; simpl; intuition discriminate.
Defined.

(** ** Words the vocabulary does not have *)

Lemma mapM_key_error {A B : Type} (f : A -> result B) (P : string -> Prop)
    (l : list A) :
  (forall a, In a l ->
     (exists b, f a = Ok b) \/ (exists w, f a = Raise (KeyError w) /\ P w)) ->
  (exists bs, mapM f l = Ok bs) \/
  (exists w, mapM f l = Raise (KeyError w) /\ P w).
Proof.
  induction l as [|a l IH]; intros Hf; simpl.
  - left. eexists. reflexivity.
  - destruct (Hf a (or_introl eq_refl)) as [[b ->]|[w [-> Hw]]]; simpl.
    + destruct IH as [[bs ->]|[w [-> Hw]]].
      * intros a' Ha'. apply Hf. right. exact Ha'.
      * left. eexists. reflexivity.
      * right. exists w. split; [reflexivity|exact Hw].
    + right. exists w. split; [reflexivity|exact Hw].
Qed.

Lemma pair_at_key_error (vocabulary : Dict.t nat) (k : nat)
    (sent : list string) (index : nat) :
  indices_in_range vocabulary -> k <= index -> index < length sent ->
  (exists p, pair_at vocabulary k sent index (nth index sent "") = Ok p /\
             Dict.get vocabulary (nth index sent "") <> None) \/
  (exists w, pair_at vocabulary k sent index (nth index sent "")
             = Raise (KeyError w) /\
             In w sent /\ Dict.get vocabulary w = None).
Proof.
  intros Hrange Hk Hi. unfold pair_at, Dict.lookup.
  destruct (Dict.get vocabulary (nth index sent "")) as [i|] eqn:Hg.
  - cbn [bind]. rewrite (py_range_nat k index Hk), mapM_map.
    destruct (mapM_key_error
                (fun d => w <- py_index sent (Z.of_nat (index - k + d)) ;;
                          convert_to_one_hot w vocabulary)
                (fun w => In w sent /\ Dict.get vocabulary w = None)
                (seq 0 k)) as [[bs ->]|[w [-> Hw]]].
    + intros d Hd. apply in_seq in Hd.
      rewrite (py_index_nat sent (index - k + d) "") by lia. cbn [bind].
      unfold convert_to_one_hot, Dict.lookup.
      destruct (Dict.get vocabulary (nth (index - k + d) sent "")) as [j|]
        eqn:Hj; cbn [bind].
      * left. apply Hrange in Hj. apply Nat.ltb_lt in Hj. rewrite Hj.
        eexists. reflexivity.
      * right. eexists. split; [reflexivity|].
        split; [apply nth_In; lia|exact Hj].
    + left. eexists. split; [reflexivity|discriminate].
    + right. exists w. split; [reflexivity|exact Hw].
  - right. eexists. split; [reflexivity|].
    split; [apply nth_In; exact Hi|exact Hg].
Qed.

Lemma pairs_of_positions_stop (vocabulary : Dict.t nat) (k : nat)
    (sent : list string) (positions : list nat) :
  indices_in_range vocabulary ->
  (forall i, In i positions -> i < length sent) ->
  (forall i, i < k -> nth i sent "" = "<s>") ->
  let run := pairs_of_positions vocabulary k sent
               (map (fun i => (i, nth i sent "")) positions) in
  (forall e, snd run = Some e ->
     exists w, e = KeyError w /\ In w sent /\ Dict.get vocabulary w = None) /\
  (forall i, In i positions -> nth i sent "" <> "<s>" ->
     Dict.get vocabulary (nth i sent "") = None -> snd run <> None).
Proof.
  intros Hrange Hpos Hfront.
  induction positions as [|i positions IH]; cbn zeta.
  - simpl. split; [discriminate|]. intros i [].
  - destruct IH as [IHe IHm].
    { intros j Hj. apply Hpos. right. exact Hj. }
    cbn zeta in IHe, IHm. cbn [map pairs_of_positions].
    destruct (String.eqb_spec (nth i sent "") "<s>") as [Heq|Hne];
      cbn [negb].
    + split; [exact IHe|].
      intros j [<-|Hj] Hnj Hgj; [contradiction|].
      apply (IHm j); assumption.
    + assert (Hki : k <= i).
      { destruct (Nat.le_gt_cases k i) as [Hle|Hlt]; [exact Hle|].
        exfalso. apply Hne, Hfront, Hlt. }
      destruct (pair_at_key_error vocabulary k sent i Hrange Hki)
        as [[p [-> Hin]]|[w [-> Hw]]]; [apply Hpos; left; reflexivity| |].
      * destruct (pairs_of_positions vocabulary k sent
                    (map (fun i0 => (i0, nth i0 sent "")) positions))
          as [ps stop].
        cbn [snd] in *. split; [exact IHe|].
        intros j [<-|Hj] Hnj Hgj; [contradiction|].
        apply (IHm j); assumption.
      * cbn [snd]. split.
        -- intros e [= <-]. exists w. split; [reflexivity|exact Hw].
        -- intros j _ _ _. discriminate.
Qed.

Lemma pairs_of_sentence_stop (vocabulary : Dict.t nat) (k : nat)
    (sent : list string) :
  indices_in_range vocabulary ->
  (forall e, snd (pairs_of_sentence vocabulary k sent) = Some e ->
     exists w, e = KeyError w /\ In w (pad_sentence k sent) /\
               Dict.get vocabulary w = None) /\
  (forall w, In w (sent ++ ["</s>"]) -> w <> "<s>" ->
     Dict.get vocabulary w = None ->
     snd (pairs_of_sentence vocabulary k sent) <> None).
Proof.
  intros Hrange. unfold pairs_of_sentence.
  rewrite (enumerate_nth "" (pad_sentence k sent)).
  destruct (pairs_of_positions_stop vocabulary k (pad_sentence k sent)
              (seq 0 (length (pad_sentence k sent))) Hrange)
    as [He Hm].
  - intros i Hi. apply in_seq in Hi. lia.
  - intros i Hi. apply pad_sentence_front. exact Hi.
  - cbn zeta in He, Hm. split; [exact He|].
    intros w Hin Hne Hg.
    destruct (In_nth _ _ "" Hin) as [j [Hj Hnth]].
    apply (Hm (k + j)).
    + apply in_seq. rewrite pad_sentence_length.
      rewrite length_app in Hj. simpl in Hj. lia.
    + rewrite pad_sentence_back, Hnth. exact Hne.
    + rewrite pad_sentence_back, Hnth. exact Hg.
Qed.

Lemma pairs_of_corpus_stop (vocabulary : Dict.t nat) (k : nat)
    (corpus : list (list string)) :
  (forall e, snd (pairs_of_corpus vocabulary k corpus) = Some e ->
     exists sent, In sent corpus /\
                  snd (pairs_of_sentence vocabulary k sent) = Some e) /\
  (forall sent, In sent corpus ->
     snd (pairs_of_sentence vocabulary k sent) <> None ->
     snd (pairs_of_corpus vocabulary k corpus) <> None).
Proof.
  induction corpus as [|sent corpus [IHe IHm]]; simpl.
  - split; [discriminate|]. intros sent [].
  - destruct (pairs_of_sentence vocabulary k sent) as [ps [e|]] eqn:Hs;
      cbn [snd].
    + split.
      * intros e' [= <-]. exists sent. rewrite Hs. split; [left|]; reflexivity.
      * intros t _ _. discriminate.
    + destruct (pairs_of_corpus vocabulary k corpus) as [qs stop].
      cbn [snd] in *. split.
      * intros e He. destruct (IHe e He) as [t [Ht Hst]].
        exists t. split; [right; exact Ht|exact Hst].
      * intros t [<-|Ht] Hst.
        -- rewrite Hs in Hst. contradiction.
        -- apply (IHm t); assumption.
Qed.

(** X9.  With a vocabulary whose indices are below its size, the only
    exception a run of the sampler can end with is a [KeyError], and it
    names a token, a word of the corpus or a boundary marker, that the
    vocabulary has no index for.  And the run does end with one whenever a
    word of the corpus other than ["<s>"] has no index. *)
Theorem sampler_key_error (corpus : list (list string))
    (vocabulary : Dict.t nat) (k : nat) (tape : rng) :
  indices_in_range vocabulary ->
  let s := generate_training_pairs corpus vocabulary k tape in
  (forall e, snd (yielded s) = Some e ->
     exists w, e = KeyError w /\ Dict.get vocabulary w = None /\
               (In w (words_of corpus) \/ w = "<s>" \/ w = "</s>")) /\
  (forall w, In w (words_of corpus) -> w <> "<s>" ->
     Dict.get vocabulary w = None -> snd (yielded s) <> None).
Proof.
  intros Hrange s. unfold s, generate_training_pairs.
  pose proof (shuffle_Permutation corpus tape) as Hp.
  destruct (shuffle corpus tape) as [corpus' tape']. cbn [fst] in Hp.
  cbn [yielded].
  destruct (pairs_of_corpus_stop vocabulary k corpus') as [He Hm].
  split.
  - intros e Hstop. destruct (He e Hstop) as [sent [Hsent Hs]].
    destruct (pairs_of_sentence_stop vocabulary k sent Hrange) as [Hke _].
    destruct (Hke e Hs) as [w [-> [Hin Hg]]].
    exists w. split; [reflexivity|]. split; [exact Hg|].
    unfold pad_sentence in Hin.
    apply in_app_or in Hin. destruct Hin as [Hin|Hin].
    + apply repeat_spec in Hin. tauto.
    + apply in_app_or in Hin. destruct Hin as [Hin|[<-|[]]]; [|tauto].
      left. apply in_words_of. exists sent. split; [|exact Hin].
      apply (Permutation_in _ (Permutation_sym Hp)). exact Hsent.
  - intros w Hin Hne Hg. apply in_words_of in Hin.
    destruct Hin as [sent [Hsent Hw]].
    apply (Hm sent); [apply (Permutation_in _ Hp); exact Hsent|].
    destruct (pairs_of_sentence_stop vocabulary k sent Hrange) as [_ Hmiss].
    apply (Hmiss w); [apply in_or_app; left; exact Hw|exact Hne|exact Hg].
Qed.

Lemma sampler_key_error_witness :
  let vocabulary := [("</s>", 0); ("<s>", 1); ("the", 2)] in
  snd (yielded (generate_training_pairs [["the"; "cat"]] vocabulary 2 []))
  <> None.
Proof.
  assert (Hrange : indices_in_range [("</s>", 0); ("<s>", 1); ("the", 2)]).
  { intros w i. cbn [Dict.get Dict.len length].
    repeat (destruct (String.eqb _ w); [intros [= <-]; lia|]).
    discriminate. }
  apply (proj2 (sampler_key_error [["the"; "cat"]] _ 2 [] Hrange) "cat").
  - simpl. tauto.
  - discriminate.
  - reflexivity.
Defined.

(** ** Float arithmetic of the network *)

Lemma fmul_comm (x y : float) : fmul x y = fmul y x.
Proof.
  unfold fmul, SFmul.
  destruct x as [sx|sx| |sx mx ex], y as [sy|sy| |sy my ey];
    try reflexivity; try (rewrite xorb_comm; reflexivity).
  rewrite xorb_comm, Pos.mul_comm, Z.add_comm. reflexivity.
Qed.

(** X10.  Where [torch.dot] gives one float for the two orders of a pair of
    vectors, so does [get_cosine_similarity], to the last bit, and it
    raises for the one order exactly when it raises for the other: the
    size check is symmetric and the float32 product of the two norms does
    not depend on their order, NaNs and infinities included. *)
Theorem cosine_similarity_symmetric
    (torch_dot : list float -> list float -> float)
    (torch_norm : list float -> float) (embedding1 embedding2 : list float) :
  torch_dot embedding1 embedding2 = torch_dot embedding2 embedding1 ->
  get_cosine_similarity torch_dot torch_norm embedding1 embedding2
  = get_cosine_similarity torch_dot torch_norm embedding2 embedding1.
Proof.
  intros Hdot. unfold get_cosine_similarity, dot.
  rewrite (Nat.eqb_sym (length embedding2)), Hdot.
  rewrite (fmul_comm (torch_norm embedding2)). reflexivity.
Qed.

Lemma cosine_similarity_symmetric_witness :
  get_cosine_similarity dot_list (fun u => fsqrt (dot_list u u))
                        [fone; fzero] [fone; fone]
  = get_cosine_similarity dot_list (fun u => fsqrt (dot_list u u))
                          [fone; fone] [fone; fzero].
Proof.
  apply (cosine_similarity_symmetric dot_list (fun u => fsqrt (dot_list u u))
           [fone; fzero] [fone; fone]).
  reflexivity.
Defined.

Lemma fmul_one (s : bool) (m : positive) (e : Z) :
  bounded prec emax m e = true ->
  fmul (S754_finite s m e) fone = S754_finite s m e.
Proof.
  unfold prec, emax. intros Hb. unfold bounded in Hb.
  apply andb_true_iff in Hb. destruct Hb as [Hc He].
  unfold canonical_mantissa in Hc.
  apply Z.eqb_eq in Hc. apply Z.leb_le in He.
  unfold fmul, fone, prec, emax, SFmul. rewrite xorb_false_r, Pos.mul_comm.
  cbn [Pos.mul].
  unfold binary_round_aux, shr_fexp.
  replace (fexp 24 128
             (Zdigits2
                (Z.pos m~0~0~0~0~0~0~0~0~0~0~0~0~0~0~0~0~0~0~0~0~0~0~0)
              + (e + -23))%Z)
    with e.
  2:{ symmetry. etransitivity; [|exact Hc]. f_equal.
      unfold Zdigits2. cbn [digits2_pos]. lia. }
  replace (e - (e + -23))%Z with 23%Z by lia.
  cbn [shr shr_record_of_loc iter_pos shr_1 shr_m loc_of_shr_record
       round_nearest_even orb].
  replace (e + -23 + 23)%Z with e by lia.
  unfold Zdigits2. rewrite Hc, Z.sub_diag.
  cbn [shr shr_m].
  destruct (Z.leb_spec e (128 - 24)); [reflexivity|lia].
Qed.

Lemma fmul_finite_one (x : float) : finite_float x -> fmul x fone = x.
Proof.
  destruct x as [s|s| |s m e]; simpl; intros H; try contradiction.
  - unfold fmul, fone, SFmul. rewrite xorb_false_r. reflexivity.
  - apply fmul_one. exact H.
Qed.

Lemma fmul_finite_zero (x : float) : finite_float x -> is_zero (fmul x fzero).
Proof.
  destruct x as [s|s| |s m e]; simpl; intros H; try contradiction;
    unfold is_zero, fmul, fzero, SFmul; eauto.
Qed.

Lemma fadd_zero_finite (z x : float) :
  is_zero z -> finite_float x -> same_value (fadd z x) x.
Proof.
  intros [s ->]. destruct x as [t|t| |t m e]; simpl; intros H;
    try contradiction.
  - right. split; [|exists t; reflexivity].
    unfold fadd, SFadd. destruct s, t; eexists; reflexivity.
  - left. reflexivity.
Qed.

(** Adding zeros to an accumulator leaves its value. *)
Lemma fold_fadd_zeros (xs : list float) (acc : float) :
  Forall is_zero xs -> finite_float acc ->
  same_value (fold_left fadd xs acc) acc.
Proof.
  intros Hxs. revert acc. induction Hxs as [|x xs [t ->] Hxs IH]; intros acc Hacc.
  - left. reflexivity.
  - simpl. destruct acc as [s|s| |s m e]; simpl in Hacc; try contradiction.
    + destruct (IH (fadd (S754_zero s) (S754_zero t))) as [Heq|[Hz _]].
      * unfold fadd, SFadd. destruct s, t; exact I.
      * right. rewrite Heq. split; [|exists s; reflexivity].
        unfold fadd, SFadd. destruct s, t; eexists; reflexivity.
      * right. split; [exact Hz|exists s; reflexivity].
    + apply (IH (S754_finite s m e)). exact Hacc.
Qed.

(** The dot product of a row of numbers with a one-hot vector is the entry
    of the row at the hot position. *)
Lemma dot_list_one_hot (row : list float) (j : nat) (acc : float) :
  Forall finite_float row -> is_zero acc -> j < length row ->
  same_value
    (fold_left fadd
       (zip_with fmul row (list_set (repeat fzero (length row)) j fone)) acc)
    (nth j row fzero).
Proof.
  intros Hrow. revert j acc.
  induction Hrow as [|x row Hx Hrow IH]; intros j acc Hacc Hj.
  - simpl in Hj. lia.
  - destruct j as [|j]; cbn [length repeat list_set zip_with fold_left nth].
    + rewrite (fmul_finite_one x Hx).
      assert (Hzeros : Forall is_zero
                         (zip_with fmul row (repeat fzero (length row)))).
      { clear -Hrow. induction Hrow as [|y row Hy Hrow IH]; simpl;
          constructor; [apply fmul_finite_zero, Hy|exact IH]. }
      destruct (fadd_zero_finite acc x Hacc Hx) as [Heq|[Hz1 Hz2]].
      * rewrite Heq. apply fold_fadd_zeros; assumption.
      * right. split; [|exact Hz2]. apply fold_fadd_zero; assumption.
    + apply IH; [|simpl in Hj; lia].
      apply fadd_zero_zero; [exact Hacc|]. apply fmul_finite_zero, Hx.
Qed.

Lemma one_hot_column (n j : nat) :
  column (transpose (one_hot n j)) 0 = list_set (repeat fzero n) j fone.
Proof.
  unfold column, transpose, one_hot. cbn [entries ncols].
  rewrite map_map. cbn [map nth].
  pose proof (map_nth_seq fzero (list_set (repeat fzero n) j fone)) as H.
  rewrite list_set_length, repeat_length in H. exact H.
Qed.

(** X11.  The embedding layer is a lookup: for a matrix [E] of finite
    numbers, the product of [E] with the transposed one-hot vector of index
    [j] is one column, whose entries are those of column [j] of [E] (up to
    the sign of a zero). *)
Theorem embedding_is_column_lookup (Emat : tensor) (j : nat) :
  well_shaped Emat ->
  Forall (Forall finite_float) (entries Emat) ->
  j < ncols Emat ->
  exists ej,
    matmul Emat (transpose (one_hot (ncols Emat) j)) = Ok ej /\
    has_shape ej (nrows Emat) 1 /\
    forall r, r < nrows Emat -> same_value (entry ej r 0) (entry Emat r j).
Proof.
  intros [Hrows Hcols] Hfinite Hj. unfold matmul.
  cbn [nrows ncols transpose one_hot]. rewrite Nat.eqb_refl.
  eexists. split; [reflexivity|]. split; [split; reflexivity|].
  intros r Hr. unfold entry. cbn [entries seq map].
  rewrite <- Hrows in Hr.
  rewrite (nth_indep _ [] (map (fun _ => fzero) [0]))
    by (rewrite length_map; exact Hr).
  rewrite (map_nth (fun row => [dot_list row _]) (entries Emat) []).
  cbn [nth].
  fold (one_hot (ncols Emat) j). rewrite one_hot_column.
  assert (Hin : In (nth r (entries Emat) []) (entries Emat))
    by (apply nth_In; exact Hr).
  rewrite Forall_forall in Hcols, Hfinite.
  rewrite <- (Hcols _ Hin).
  apply dot_list_one_hot.
  - apply Hfinite, Hin.
  - apply fzero_is_zero.
  - rewrite (Hcols _ Hin). exact Hj.
Qed.

Lemma embedding_is_column_lookup_witness :
  let Emat := mkTensor 2 3 [[fone; fzero; fone]; [fzero; fone; fone]] in
  exists ej,
    matmul Emat (transpose (one_hot 3 1)) = Ok ej /\
    has_shape ej 2 1 /\
    forall r, r < 2 -> same_value (entry ej r 0) (entry Emat r 1).
Proof.
  apply (embedding_is_column_lookup
           (mkTensor 2 3 [[fone; fzero; fone]; [fzero; fone; fone]]) 1).
  - split; [reflexivity|]. repeat constructor.
  - repeat constructor.
  - simpl. lia.
Defined.

Lemma nth_error_zip_with {A B C : Type} (f : A -> B -> C) (u : list A)
    (v : list B) (i : nat) (a : A) (b : B) :
  nth_error u i = Some a -> nth_error v i = Some b ->
  nth_error (zip_with f u v) i = Some (f a b).
Proof.
  revert v i. induction u as [|x u IH]; intros [|y v] [|i]; simpl;
    try discriminate.
  - intros [= ->] [= ->]. reflexivity.
  - apply IH.
Qed.

(** X12.  An infinite or NaN entry of [E] reaches the embedding of every
    other word: in the product of [E] with the one-hot vector of index [j],
    the row of such an entry in a column [i] other than [j] comes out as
    NaN. *)
Theorem embedding_spreads_nan (Emat : tensor) (r i j : nat) :
  well_shaped Emat ->
  r < nrows Emat -> i < ncols Emat -> j < ncols Emat -> i <> j ->
  is_infinity (entry Emat r i) \/ entry Emat r i = S754_nan ->
  exists ej,
    matmul Emat (transpose (one_hot (ncols Emat) j)) = Ok ej /\
    entry ej r 0 = S754_nan.
Proof.
  intros [Hrows Hcols] Hr Hi Hj Hij Hbad. unfold matmul.
  cbn [nrows ncols transpose one_hot]. rewrite Nat.eqb_refl.
  eexists. split; [reflexivity|].
  unfold entry in *. cbn [entries seq map].
  rewrite <- Hrows in Hr.
  rewrite (nth_indep _ [] (map (fun _ => fzero) [0]))
    by (rewrite length_map; exact Hr).
  rewrite (map_nth (fun row => [dot_list row _]) (entries Emat) []).
  cbn [nth].
  fold (one_hot (ncols Emat) j). rewrite one_hot_column.
  set (row := nth r (entries Emat) []) in *.
  assert (Hlen : length row = ncols Emat).
  { rewrite Forall_forall in Hcols. apply Hcols, nth_In, Hr. }
  unfold dot_list. apply fold_fadd_nan.
  apply (nth_error_In _ i).
  assert (Hprod : fmul (nth i row fzero) fzero = S754_nan).
  { destruct Hbad as [[s ->]| ->]; reflexivity. }
  rewrite <- Hprod. apply nth_error_zip_with.
  - apply nth_error_nth'. lia.
  - rewrite nth_error_list_set.
    destruct (Nat.eqb_spec j i) as [->|_]; [contradiction|].
    rewrite (nth_error_nth' _ fzero) by (rewrite repeat_length; exact Hi).
    rewrite nth_repeat. reflexivity.
Qed.

Lemma embedding_spreads_nan_witness :
  let Emat := mkTensor 1 2 [[S754_infinity false; fone]] in
  exists ej,
    matmul Emat (transpose (one_hot 2 1)) = Ok ej /\
    entry ej 0 0 = S754_nan.
Proof.
  apply (embedding_spreads_nan
           (mkTensor 1 2 [[S754_infinity false; fone]]) 0 0 1).
  - split; [reflexivity|]. repeat constructor.
  - simpl. lia.
  - simpl. lia.
  - simpl. lia.
  - discriminate.
  - left. exists false. reflexivity.
Defined.

(** ** Contexts the network does not take *)

Lemma embed_context_mismatch (Emat : tensor) (V : nat) (c : tensor)
    (before after : list tensor) :
  ncols Emat = V -> ncols c <> V ->
  Forall (fun c => has_shape c 1 V) before ->
  forall (s : nat) (X : tensor),
    s = 0 \/ ncols X = 1 ->
    embed_context Emat X
      (combine (seq s (length (before ++ c :: after))) (before ++ c :: after))
    = Raise RuntimeError.
Proof.
  intros HE Hc Hbefore.
  induction Hbefore as [|b before [Hbr Hbc] Hbefore IH]; intros s X HX.
  - cbn [app length seq combine embed_context].
    rewrite matmul_mismatch by (simpl; congruence).
    destruct (s =? 0); reflexivity.
  - cbn [app length seq combine embed_context].
    destruct (matmul_shape Emat (transpose b)) as [ej [-> [Hr Hcj]]];
      [simpl; congruence|].
    simpl in Hcj. cbn [bind].
    destruct (Nat.eqb_spec s 0) as [->|Hs].
    + apply IH. right. congruence.
    + destruct HX as [->|HX]; [contradiction|].
      unfold cat0. rewrite HX, Hcj, Hbr. cbn [Nat.eqb bind].
      apply IH. right. reflexivity.
Qed.

Lemma broadcast_dim_one_r (n : nat) : broadcast_dim n 1 = Some n.
Proof.
  unfold broadcast_dim. destruct (Nat.eqb_spec n 1) as [->|_]; reflexivity.
Qed.

(** Adding a column to a matrix of as many rows: the column is broadcast. *)
Lemma tensor_add_column (a b : tensor) :
  nrows a = nrows b -> ncols b = 1 ->
  exists c, tensor_add a b = Ok c /\
            has_shape c (nrows a) (ncols a) /\
            exists f, entries c = tabulate (nrows a) (ncols a) f.
Proof.
  intros Hr Hc. unfold tensor_add.
  rewrite <- Hr, Hc, broadcast_dim_same, broadcast_dim_one_r.
  eexists. split; [reflexivity|]. split; [split; reflexivity|].
  eexists. reflexivity.
Qed.

Section ContextErrors.

Variables tanh_f exp_f log_f : float -> float.

(** X13.  A context with a vector of another width than the vocabulary
    size, after any number of vectors of the right shape, makes
    [forward_pass] raise, at the product with [E]. *)
Theorem forward_rejects_other_width (w : weights) (emb V e0 : nat)
    (c : tensor) (before after : list tensor) :
  model_shapes w emb V ->
  Forall (fun c => has_shape c 1 V) before ->
  ncols c <> V ->
  forward tanh_f exp_f log_f e0 w (before ++ c :: after) = Raise RuntimeError.
Proof.
  intros [[_ HEc] _] Hbefore Hc. unfold forward, enumerate.
  rewrite (embed_context_mismatch (wE w) V c before after HEc Hc Hbefore)
    by (left; reflexivity).
  reflexivity.
Qed.

(** X14.  With an empty context [forward_pass] raises unless the embedding
    length is 256, and then it returns a tensor of [vocabulary_size] rows
    and no column, on which the loss of a training step raises. *)
Theorem forward_on_empty_context (w : weights) (emb V e0 : nat) :
  model_shapes w emb V ->
  (e0 <> 256 -> forward tanh_f exp_f log_f e0 w [] = Raise RuntimeError) /\
  (e0 = 256 ->
     (exists y, forward tanh_f exp_f log_f e0 w [] = Ok y /\ has_shape y V 0) /\
     forall target, exists e,
       loss_of tanh_f exp_f log_f e0 (target, []) w = Raise e).
Proof.
  intros [_ [[H1r H1c] [[Hb1r Hb1c] [[H2r H2c] [Hb2r Hb2c]]]]].
  unfold forward, enumerate. cbn [length seq combine embed_context bind].
  split.
  - intros Hne. rewrite matmul_mismatch; [reflexivity|].
    cbn [nrows]. congruence.
  - intros ->.
    assert (Hfw : exists y f,
      forward tanh_f exp_f log_f 256 w [] = Ok y /\ has_shape y V 0 /\
      entries y = tabulate V 0 f).
    { unfold forward, enumerate. cbn [length seq combine embed_context bind].
      destruct (matmul_shape (ww1 w) (mkTensor 256 0 (repeat [] 256)))
        as [h_a [-> [Har Hac]]]; [exact H1c|].
      cbn [bind]. cbn [ncols] in Hac.
      destruct (tensor_add_column h_a (wb1 w))
        as [h_b [-> [[Hbr Hbc] _]]]; [congruence|exact Hb1c|].
      cbn [bind].
      destruct (matmul_shape (ww2 w) (tensor_map tanh_f h_b))
        as [y_a [-> [Hyr Hyc]]]; [simpl; congruence|].
      cbn [bind]. simpl in Hyc.
      destruct (tensor_add_column y_a (wb2 w))
        as [y_b [-> [[Hzr Hzc] _]]]; [congruence|exact Hb2c|].
      cbn [bind].
      assert (HyV : nrows y_b = V) by congruence.
      assert (Hy0 : ncols y_b = 0) by congruence.
      eexists. eexists. split; [reflexivity|].
      unfold log_softmax0. cbn [nrows ncols entries].
      rewrite HyV, Hy0. split; [split; reflexivity|reflexivity]. }
    destruct Hfw as [y [f [Hy [[Hyr Hyc] Hentries]]]]. split.
    + exists y. unfold forward, enumerate in Hy.
      cbn [length seq combine embed_context bind] in Hy.
      split; [exact Hy|split; assumption].
    + intros target. unfold loss_of. cbn [fst snd]. rewrite Hy. cbn [bind].
      unfold row_at. rewrite Hyr, Hentries.
      destruct (Nat.ltb_spec target V) as [Hlt|Hge].
      * rewrite (nth_error_tabulate V 0 f target Hlt). cbn [bind seq map].
        eexists. reflexivity.
      * eexists. reflexivity.
Qed.

End ContextErrors.

(** ** Construction and training keep the tensors whole *)

Lemma tabulate_well_shaped (r c : nat) (f : nat -> nat -> float) :
  well_shaped (mkTensor r c (tabulate r c f)).
Proof.
  unfold well_shaped, tabulate. cbn [entries nrows ncols]. split.
  - rewrite length_map, length_seq. reflexivity.
  - apply Forall_forall. intros row Hrow.
    apply in_map_iff in Hrow. destruct Hrow as [i [<- _]].
    rewrite length_map, length_seq. reflexivity.
Qed.

Section Construction.

Variable normal_draw : nat -> nat -> nat -> float.

Lemma initialize_parameter_whole (r c g : nat) :
  0 < r + c ->
  exists t g',
    initialize_parameter normal_draw (r, c) g = Ok (t, g') /\
    has_shape t r c /\ well_shaped t.
Proof.
  intros Hpos. unfold initialize_parameter.
  destruct (Nat.eqb_spec (c + r) 0) as [Hz|_]; [lia|].
  eexists. eexists. split; [reflexivity|]. split; [split; reflexivity|].
  apply tabulate_well_shaped.
Qed.

(** X15.  [NLM.__init__] raises only for a vocabulary size and an embedding
    length that are both zero, a [ZeroDivisionError] from the Xavier
    initialisation of [E].  In every other case it returns a model whose five
    tensors have the shapes of the script, each with as many entries as its
    shape says, and no gradient yet. *)
Theorem NLM_init_whole (vocabulary_size emb_length k g : nat) :
  (vocabulary_size + emb_length = 0 ->
     NLM_init normal_draw vocabulary_size emb_length k g
     = Raise ZeroDivisionError) /\
  (0 < vocabulary_size + emb_length ->
     exists model g',
       NLM_init normal_draw vocabulary_size emb_length k g = Ok (model, g') /\
       embedding_length model = emb_length /\
       model_shapes (params model) emb_length vocabulary_size /\
       weights_all well_shaped (params model) /\
       grads model = None).
Proof.
  split.
  - intros Hz. assert (vocabulary_size = 0) as -> by lia.
    assert (emb_length = 0) as -> by lia. reflexivity.
  - intros Hpos. unfold NLM_init.
    destruct (initialize_parameter_whole emb_length vocabulary_size g)
      as [tE [gE [-> [HE WE]]]]; [lia|].
    cbn [bind fst snd].
    destruct (initialize_parameter_whole 256 256 gE)
      as [t1 [g1 [-> [H1 W1]]]]; [lia|].
    cbn [bind fst snd].
    destruct (initialize_parameter_whole 256 1 g1)
      as [t2 [g2 [-> [H2 W2]]]]; [lia|].
    cbn [bind fst snd].
    destruct (initialize_parameter_whole vocabulary_size 256 g2)
      as [t3 [g3 [-> [H3 W3]]]]; [lia|].
    cbn [bind fst snd].
    destruct (initialize_parameter_whole vocabulary_size 1 g3)
      as [t4 [g4 [-> [H4 W4]]]]; [lia|].
    cbn [bind fst snd].
    eexists. eexists. split; [reflexivity|]. split; [reflexivity|].
    split; [|split; [|reflexivity]].
    + repeat split; cbn [params wE ww1 wb1 ww2 wb2];
        first [apply HE|apply H1|apply H2|apply H3|apply H4].
    + unfold weights_all. cbn [params wE ww1 wb1 ww2 wb2]. tauto.
Qed.

End Construction.

Lemma NLM_init_whole_witness :
  NLM_init (fun _ _ _ => fzero) 0 0 4 0 = Raise ZeroDivisionError /\
  exists model g',
    NLM_init (fun _ _ _ => fzero) 3 64 4 0 = Ok (model, g') /\
    embedding_length model = 64 /\
    model_shapes (params model) 64 3 /\
    weights_all well_shaped (params model) /\
    grads model = None.
Proof.
  split.
  - apply (proj1 (NLM_init_whole (fun _ _ _ => fzero) 0 0 4 0)). reflexivity.
  - apply (proj2 (NLM_init_whole (fun _ _ _ => fzero) 3 64 4 0)). lia.
Defined.

Lemma zip_with_length {A B C : Type} (f : A -> B -> C) (l : list A)
    (m : list B) :
  length l = length m -> length (zip_with f l m) = length l.
Proof.
  revert m. induction l as [|a l IH]; intros [|b m]; simpl; intros H;
    try discriminate; [reflexivity|].
  f_equal. apply IH. lia.
Qed.

Lemma zip_rows_length (f : float -> float -> float) (c : nat)
    (l m : list (list float)) :
  Forall (fun row => length row = c) l ->
  Forall (fun row => length row = c) m ->
  Forall (fun row => length row = c) (zip_with (zip_with f) l m).
Proof.
  intros Hl. revert m. induction Hl as [|a l Ha Hl IH]; intros m Hm.
  - constructor.
  - destruct Hm as [|b m Hb Hm]; simpl; constructor.
    + rewrite zip_with_length; congruence.
    + apply IH, Hm.
Qed.

Lemma tensor_zip_well_shaped (f : float -> float -> float) (a b : tensor) :
  well_shaped a -> well_shaped b -> same_shape a b ->
  well_shaped (tensor_zip f a b) /\ same_shape (tensor_zip f a b) a.
Proof.
  unfold well_shaped, same_shape, shape, tensor_zip.
  intros [Har Hac] [Hbr Hbc] [= Hr Hc]. cbn [entries nrows ncols].
  split; [|reflexivity]. split.
  - rewrite zip_with_length; congruence.
  - apply zip_rows_length; [exact Hac|]. rewrite Hc. exact Hbc.
Qed.

Lemma tensor_map_well_shaped (f : float -> float) (a : tensor) :
  well_shaped a ->
  well_shaped (tensor_map f a) /\ same_shape (tensor_map f a) a.
Proof.
  unfold well_shaped, same_shape, shape, tensor_map.
  intros [Hr Hc]. cbn [entries nrows ncols]. split; [|reflexivity]. split.
  - rewrite length_map. exact Hr.
  - apply Forall_forall. intros row Hrow.
    apply in_map_iff in Hrow. destruct Hrow as [r [<- Hin]].
    rewrite length_map. rewrite Forall_forall in Hc. apply Hc, Hin.
Qed.

Lemma descend_well_shaped (learning_rate : float) (p g : tensor) :
  well_shaped p -> well_shaped g -> same_shape g p ->
  well_shaped (descend learning_rate p g) /\
  same_shape (descend learning_rate p g) p.
Proof.
  intros Hp Hg Hs. unfold descend.
  destruct (tensor_map_well_shaped (fmul learning_rate) g Hg) as [Hm Hms].
  apply tensor_zip_well_shaped; [exact Hp|exact Hm|].
  unfold same_shape in *. congruence.
Qed.

Lemma accumulate_fits (old : option weights) (g w : weights) :
  match old with
  | None => True
  | Some acc => weights_rel same_shape acc w /\ weights_all well_shaped acc
  end ->
  weights_rel same_shape g w -> weights_all well_shaped g ->
  weights_rel same_shape (accumulate old g) w /\
  weights_all well_shaped (accumulate old g).
Proof.
  destruct old as [acc|]; cbn [accumulate]; [|tauto].
  intros [[A1 [A2 [A3 [A4 A5]]]] [B1 [B2 [B3 [B4 B5]]]]]
         [G1 [G2 [G3 [G4 G5]]]] [W1 [W2 [W3 [W4 W5]]]].
  unfold weights_rel, weights_all, weights_zip.
  cbn [wE ww1 wb1 ww2 wb2].
  assert (Hz : forall a g p, well_shaped a -> well_shaped g ->
                 same_shape a p -> same_shape g p ->
                 same_shape (tensor_zip fadd a g) p /\
                 well_shaped (tensor_zip fadd a g)).
  { intros a g0 p Ha Hg Hap Hgp.
    destruct (tensor_zip_well_shaped fadd a g0 Ha Hg) as [Hw Hs].
    - unfold same_shape in *. congruence.
    - split; [unfold same_shape in *; congruence|exact Hw]. }
  destruct (Hz _ _ _ B1 W1 A1 G1), (Hz _ _ _ B2 W2 A2 G2),
           (Hz _ _ _ B3 W3 A3 G3), (Hz _ _ _ B4 W4 A4 G4),
           (Hz _ _ _ B5 W5 A5 G5).
  tauto.
Qed.

Section TrainingShapes.

Variables tanh_f exp_f log_f : float -> float.
Variable differentiate : (weights -> result float) -> weights -> weights.
Hypothesis differentiate_fits : gradient_contract differentiate.

Lemma train_step_whole (learning_rate : float) (m m' : NLM)
    (pair : training_pair) :
  weights_all well_shaped (params m) -> grads_fit m ->
  train_step tanh_f exp_f log_f differentiate learning_rate m pair = Ok m' ->
  embedding_length m' = embedding_length m /\
  weights_rel same_shape (params m') (params m) /\
  weights_all well_shaped (params m') /\
  grads_fit m'.
Proof.
  intros Hw Hfit. unfold train_step.
  destruct (loss_of tanh_f exp_f log_f (embedding_length m) pair (params m));
    cbn [bind]; [|discriminate].
  intros [= <-]. cbn [embedding_length params].
  destruct (differentiate_fits
              (loss_of tanh_f exp_f log_f (embedding_length m) pair)
              (params m) Hw) as [Hgs Hgw].
  destruct (accumulate_fits (grads m) _ (params m) Hfit Hgs Hgw)
    as [[G1 [G2 [G3 [G4 G5]]]] [A1 [A2 [A3 [A4 A5]]]]].
  destruct Hw as [W1 [W2 [W3 [W4 W5]]]].
  destruct (descend_well_shaped learning_rate _ _ W1 A1 G1) as [D1 S1].
  destruct (descend_well_shaped learning_rate _ _ W2 A2 G2) as [D2 S2].
  destruct (descend_well_shaped learning_rate _ _ W3 A3 G3) as [D3 S3].
  destruct (descend_well_shaped learning_rate _ _ W4 A4 G4) as [D4 S4].
  destruct (descend_well_shaped learning_rate _ _ W5 A5 G5) as [D5 S5].
  split; [reflexivity|].
  split; [unfold weights_rel, weights_zip; cbn [wE ww1 wb1 ww2 wb2]; tauto|].
  split; [unfold weights_all, weights_zip; cbn [wE ww1 wb1 ww2 wb2]; tauto|].
  unfold grads_fit. cbn [grads params].
  unfold weights_rel, weights_all, weights_map, weights_zip, zero_.
  cbn [wE ww1 wb1 ww2 wb2].
  destruct (tensor_map_well_shaped (fun _ => fzero) _ A1) as [Z1 T1].
  destruct (tensor_map_well_shaped (fun _ => fzero) _ A2) as [Z2 T2].
  destruct (tensor_map_well_shaped (fun _ => fzero) _ A3) as [Z3 T3].
  destruct (tensor_map_well_shaped (fun _ => fzero) _ A4) as [Z4 T4].
  destruct (tensor_map_well_shaped (fun _ => fzero) _ A5) as [Z5 T5].
  unfold same_shape in *.
  split; [repeat split; congruence|tauto].
Qed.

(** X16.  When differentiation returns gradients of the shapes of the
    parameters, training keeps the model whole: after every example the
    embedding length and the shape of each of the five parameters are those
    of the model [train] was given, each parameter has as many entries as
    its shape says, and so have the accumulators. *)
Theorem train_keeps_shapes (model : NLM) (corpus : list (list string))
    (vocabulary : Dict.t nat) (learning_rate : float) (tape : rng) :
  weights_all well_shaped (params model) -> grads_fit model ->
  Forall (fun m =>
            embedding_length m = embedding_length model /\
            weights_rel same_shape (params m) (params model) /\
            weights_all well_shaped (params m) /\
            grads_fit m)
         (train_history
            (train tanh_f exp_f log_f differentiate model corpus vocabulary
                   learning_rate tape)).
Proof.
  intros Hw Hfit. unfold train.
  generalize (fst (yielded (generate_training_pairs corpus vocabulary 4 tape))).
  generalize (snd (yielded (generate_training_pairs corpus vocabulary 4 tape))).
  intros stop0 pairs.
  assert (Hloop : forall m,
            embedding_length m = embedding_length model ->
            weights_rel same_shape (params m) (params model) ->
            weights_all well_shaped (params m) -> grads_fit m ->
            Forall (fun m =>
                      embedding_length m = embedding_length model /\
                      weights_rel same_shape (params m) (params model) /\
                      weights_all well_shaped (params m) /\
                      grads_fit m)
                   (fst (train_loop tanh_f exp_f log_f differentiate
                                    learning_rate m pairs))).
  { induction pairs as [|pair rest IH]; intros m He Hs Hm Hg;
      cbn [train_loop].
    - constructor.
    - destruct (train_step tanh_f exp_f log_f differentiate learning_rate
                           m pair) as [m'|e] eqn:Hstep; [|constructor].
      destruct (train_step_whole learning_rate m m' pair Hm Hg Hstep)
        as [He' [Hs' [Hm' Hg']]].
      assert (Hs'' : weights_rel same_shape (params m') (params model)).
      { unfold weights_rel, same_shape in *.
        repeat split; (etransitivity; [apply Hs'|apply Hs]). }
      specialize (IH m' (eq_trans He' He) Hs'' Hm' Hg').
      destruct (train_loop tanh_f exp_f log_f differentiate learning_rate
                           m' rest) as [history stop].
      cbn [fst] in *. constructor; [|exact IH].
      split; [congruence|]. split; [exact Hs''|]. split; assumption. }
  specialize (Hloop model eq_refl).
  destruct (train_loop tanh_f exp_f log_f differentiate learning_rate model
                       pairs) as [history stop].
  cbn [train_history fst] in *. apply Hloop; [|exact Hw|exact Hfit].
  unfold weights_rel, same_shape. tauto.
Qed.

End TrainingShapes.

Lemma zeros_well_shaped (r c : nat) : well_shaped (zeros r c).
Proof.
  unfold well_shaped, zeros. cbn [entries nrows ncols]. split.
  - apply repeat_length.
  - apply Forall_forall. intros row Hrow.
    apply repeat_spec in Hrow. subst row. apply repeat_length.
Qed.

Lemma train_keeps_shapes_witness :
  let model :=
    mkNLM 64 (mkWeights (zeros 64 3) (zeros 256 256) (zeros 256 1)
                        (zeros 3 256) (zeros 3 1)) None in
  let vocabulary := [("</s>", 0); ("<s>", 1); ("a", 2)] in
  Forall (fun m =>
            embedding_length m = 64 /\
            weights_rel same_shape (params m) (params model) /\
            weights_all well_shaped (params m) /\
            grads_fit m)
         (train_history
            (train (fun x => x) (fun x => x) (fun x => x) (fun _ w => w)
                   model [["a"; "a"]] vocabulary fone [])).
Proof.
  intros model vocabulary.
  assert (Hcontract : gradient_contract (fun _ w => w)).
  { intros loss w Hw. split; [|exact Hw].
    unfold weights_rel, same_shape. tauto. }
  apply (train_keeps_shapes (fun x => x) (fun x => x) (fun x => x)
           (fun _ w => w) Hcontract model [["a"; "a"]] vocabulary fone []).
  - unfold weights_all, model. cbn [params wE ww1 wb1 ww2 wb2].
    repeat split; apply zeros_well_shaped.
  - exact I.
Defined.

(** ** Word similarity and the columns of the embedding matrix *)

Lemma pair_similarity_cases (torch_dot : list float -> list float -> float)
    (torch_norm : list float -> float) (embedding_matrix : tensor)
    (vocabulary : Dict.t nat) (unk : nat) (pairs : string * string) :
  Dict.get vocabulary "<unk>" = Some unk ->
  pair_similarity torch_dot torch_norm embedding_matrix vocabulary pairs
  = if (resolve vocabulary unk (fst pairs) <? ncols embedding_matrix)
       && (resolve vocabulary unk (snd pairs) <? ncols embedding_matrix)
    then Ok (cosine torch_dot torch_norm
               (column embedding_matrix (resolve vocabulary unk (fst pairs)))
               (column embedding_matrix (resolve vocabulary unk (snd pairs))))
    else Raise IndexError.
Proof.
  intros Hunk. unfold pair_similarity.
  rewrite !(word_index_resolve vocabulary unk) by exact Hunk. cbn [bind].
  unfold column_at.
  destruct (resolve vocabulary unk (fst pairs) <? ncols embedding_matrix);
    cbn [bind andb]; [|reflexivity].
  destruct (resolve vocabulary unk (snd pairs) <? ncols embedding_matrix);
    cbn [bind]; [|reflexivity].
  apply get_cosine_similarity_ok.
  rewrite !column_length. reflexivity.
Qed.

Lemma mapM_index_error {A B : Type} (f : A -> result B) (l : list A) :
  (forall a, In a l -> (exists b, f a = Ok b) \/ f a = Raise IndexError) ->
  (exists a, In a l /\ f a = Raise IndexError) ->
  mapM f l = Raise IndexError.
Proof.
  induction l as [|a l IH]; intros Hall [x [Hin Hx]].
  - destruct Hin.
  - simpl. destruct (Hall a (or_introl eq_refl)) as [[b Hb]|Ha].
    + rewrite Hb. cbn [bind]. rewrite IH; [reflexivity| |].
      * intros a' Ha'. apply Hall. right. exact Ha'.
      * destruct Hin as [->|Hin]; [congruence|]. exists x. split; assumption.
    + rewrite Ha. reflexivity.
Qed.

Section WordSimilarityErrors.

Variable torch_dot : list float -> list float -> float.
Variable torch_norm : list float -> float.
Variable SpearmanrResult : Type.
Variable spearmanr : list float -> list float -> result SpearmanrResult.

(** X17.  With ["<unk>"] in the vocabulary, [evaluate_wordsim] raises
    [IndexError], and never reaches [spearmanr], as soon as a word of some
    pair resolves to an index that is not a column of the embedding
    matrix. *)
Theorem evaluate_wordsim_index_error (word_pairs : list (string * string))
    (gold_scores : list float) (embedding_matrix : tensor)
    (vocabulary : Dict.t nat) (unk : nat) :
  Dict.get vocabulary "<unk>" = Some unk ->
  (exists pairs, In pairs word_pairs /\
     (ncols embedding_matrix <= resolve vocabulary unk (fst pairs) \/
      ncols embedding_matrix <= resolve vocabulary unk (snd pairs))) ->
  evaluate_wordsim torch_dot torch_norm SpearmanrResult spearmanr
                   word_pairs gold_scores embedding_matrix vocabulary
  = Raise IndexError.
Proof.
  intros Hunk [pairs [Hin Hbad]]. unfold evaluate_wordsim.
  rewrite mapM_index_error; [reflexivity| |].
  - intros p _. rewrite (pair_similarity_cases _ _ _ _ unk) by exact Hunk.
    destruct (_ && _); [left; eexists; reflexivity|right; reflexivity].
  - exists pairs. split; [exact Hin|].
    rewrite (pair_similarity_cases _ _ _ _ unk) by exact Hunk.
    destruct Hbad as [Hbad|Hbad].
    + destruct (Nat.ltb_spec (resolve vocabulary unk (fst pairs))
                             (ncols embedding_matrix)); [lia|reflexivity].
    + destruct (Nat.ltb_spec (resolve vocabulary unk (snd pairs))
                             (ncols embedding_matrix)); [lia|].
      rewrite andb_false_r. reflexivity.
Qed.

End WordSimilarityErrors.

Lemma evaluate_wordsim_index_error_witness :
  let vocabulary := [("</s>", 0); ("<s>", 1); ("<unk>", 2); ("cat", 3)] in
  evaluate_wordsim dot_list (fun u => fsqrt (dot_list u u))
                   (list float) (fun predicted _ => Ok predicted)
                   [("cat", "dog")] [fone]
                   (mkTensor 1 3 [[fone; fone; fone]]) vocabulary
  = Raise IndexError.
Proof.
  apply (evaluate_wordsim_index_error dot_list
           (fun u => fsqrt (dot_list u u)) (list float)
           (fun predicted _ => Ok predicted) [("cat", "dog")] [fone]
           (mkTensor 1 3 [[fone; fone; fone]])
           [("</s>", 0); ("<s>", 1); ("<unk>", 2); ("cat", 3)] 2).
  - reflexivity.
  - exists ("cat", "dog"). split; [left; reflexivity|].
    left. apply Nat.leb_le. reflexivity.
Defined.

(** ** The script from the corpus to the trained model *)

Lemma build_vocabulary_inv (corpus corpus' : list (list string))
    (v : Dict.t nat) :
  build_vocabulary corpus = Ok (corpus', v) ->
  corpus' = map (map (unk_if_single (words_of corpus))) corpus /\
  v = vocabulary_dict (vocabulary_list (get_word_counts corpus')).
Proof.
  unfold build_vocabulary. rewrite replace_rare_words_total. cbn [bind].
  intros [= <- <-]. split; reflexivity.
Qed.

(** The vocabulary of a corpus without literal markers has an index, below
    its size, for every token of its padded sentences. *)
Lemma own_vocabulary_covers (corpus : list (list string)) (k : nat)
    (sent : list string) :
  no_boundary_marker corpus -> In sent corpus ->
  covers (vocabulary_dict (vocabulary_list (get_word_counts corpus)))
         (pad_sentence k sent).
Proof.
  intros Hno Hsent w Hw.
  set (l := vocabulary_list (get_word_counts corpus)).
  assert (Hin : In w l).
  { apply (Permutation_in _ (permuted_vocabulary_list _)), in_or_app.
    unfold pad_sentence in Hw. apply in_app_or in Hw.
    destruct Hw as [Hw|Hw].
    - apply repeat_spec in Hw. subst w. right. left. reflexivity.
    - apply in_app_or in Hw. destruct Hw as [Hw|[<-|[]]].
      + left. apply get_word_counts_keys, in_words_of.
        exists sent. split; assumption.
      + right. simpl. tauto. }
  pose proof (vocabulary_list_NoDup corpus Hno) as Hnd. fold l in Hnd.
  destruct (find_last w l) as [i|] eqn:Hf.
  - exists i. rewrite vocabulary_dict_get. split; [exact Hf|].
    rewrite vocabulary_dict_len, nodup_fixed_point by exact Hnd.
    apply nth_error_Some. rewrite (find_last_nth _ _ _ Hf). discriminate.
  - apply find_last_none_iff in Hf. contradiction.
Qed.

Lemma own_vocabulary_size (corpus : list (list string)) :
  0 < Dict.len (vocabulary_dict (vocabulary_list (get_word_counts corpus))).
Proof.
  assert (Hin : In "<s>" (vocabulary_list (get_word_counts corpus))).
  { apply (Permutation_in _ (permuted_vocabulary_list _)), in_or_app.
    right. left. reflexivity. }
  apply vocabulary_dict_contains, DictFacts.contains_iff in Hin.
  unfold Dict.len, Dict.keys in *.
  destruct (vocabulary_dict (vocabulary_list (get_word_counts corpus)));
    [destruct Hin|simpl; lia].
Qed.

(** X18.  The preprocessing and the sampler fit together: on a corpus
    without a literal ["<s>"] or ["</s>"], a run of the sampler over the
    rewritten corpus with the vocabulary built from it raises nothing, and
    yields as many pairs as the corpus has words and sentences, for every
    window size and every shuffle. *)
Theorem pipeline_sampler_completes (corpus corpus' : list (list string))
    (vocabulary : Dict.t nat) (k : nat) (tape : rng) :
  no_boundary_marker corpus ->
  build_vocabulary corpus = Ok (corpus', vocabulary) ->
  let s := generate_training_pairs corpus' vocabulary k tape in
  snd (yielded s) = None /\
  length (fst (yielded s)) = length (words_of corpus) + length corpus.
Proof.
  intros Hno Hbuild s.
  apply build_vocabulary_inv in Hbuild. destruct Hbuild as [Hc Hv].
  assert (Hno' : no_boundary_marker corpus').
  { rewrite Hc. apply replaced_no_boundary_marker, Hno. }
  destruct (sampler_epoch_covered corpus' vocabulary k tape)
    as [Hstop Hlen].
  - intros sent Hsent. split.
    + rewrite Hv. apply own_vocabulary_covers; assumption.
    + apply (Hno' sent Hsent).
  - split; [exact Hstop|]. unfold s. rewrite Hlen, Hc.
    rewrite words_of_map, !length_map. reflexivity.
Qed.

Lemma pipeline_sampler_completes_witness :
  let corpus := [["the"; "cat"; "the"; "cat"; "sat"]; ["the"; "cat"]] in
  exists corpus' vocabulary,
    build_vocabulary corpus = Ok (corpus', vocabulary) /\
    let s := generate_training_pairs corpus' vocabulary 4 [0] in
    snd (yielded s) = None /\ length (fst (yielded s)) = 7 + 2.
Proof.
  eexists. eexists. split; [reflexivity|].
  apply (pipeline_sampler_completes
           [["the"; "cat"; "the"; "cat"; "sat"]; ["the"; "cat"]]).
  - intros sent [<-|[<-|[]]]; simpl; intuition discriminate.
  - reflexivity.
Defined.

Lemma expected_pair_fits (vocabulary : Dict.t nat) (sent : list string)
    (index : nat) :
  covers vocabulary sent -> index < length sent ->
  pair_fits (Dict.len vocabulary) (expected_pair vocabulary 4 sent index).
Proof.
  intros Hc Hi. unfold pair_fits, expected_pair. cbn [fst snd].
  split; [|split].
  - unfold index_of.
    destruct (Hc (nth index sent "")) as [i [-> Hlt]]; [apply nth_In, Hi|].
    exact Hlt.
  - unfold preceding. rewrite !length_map, length_seq. reflexivity.
  - apply Forall_forall. intros c Hin.
    apply in_map_iff in Hin. destruct Hin as [w [<- _]].
    split; reflexivity.
Qed.

Lemma covered_pairs_fit (vocabulary : Dict.t nat) (corpus : list (list string)) :
  (forall sent, In sent corpus -> covers vocabulary (pad_sentence 4 sent)) ->
  Forall (pair_fits (Dict.len vocabulary))
         (fst (pairs_of_corpus vocabulary 4 corpus)).
Proof.
  intros Hc. rewrite pairs_of_corpus_covered by exact Hc. cbn [fst].
  apply Forall_forall. intros p Hp.
  apply in_concat in Hp. destruct Hp as [ps [Hps Hp]].
  apply in_map_iff in Hps. destruct Hps as [sent [<- Hsent]].
  rewrite (pairs_of_sentence_covered vocabulary 4 sent (Hc sent Hsent)) in Hp.
  cbn [fst] in Hp. apply in_map_iff in Hp. destruct Hp as [i [<- Hi]].
  unfold target_positions in Hi. apply filter_In in Hi.
  destruct Hi as [Hi _]. apply in_seq in Hi.
  apply expected_pair_fits; [apply Hc, Hsent|lia].
Qed.

Section Pipeline.

Variable normal_draw : nat -> nat -> nat -> float.
Variables tanh_f exp_f log_f : float -> float.
Variable differentiate : (weights -> result float) -> weights -> weights.

(** X19.  The whole script fits together: on a corpus without a literal
    ["<s>"] or ["</s>"], a model made for the size of the vocabulary with
    the embedding length 64 of the script goes through an epoch of [train]
    without an exception.  The models it passes through are a run of
    gradient-descent steps over the pairs of the sampler, one step for
    every pair and in their order, to the end of the sequence: one for
    every word and one more for every sentence of the corpus, each leaving
    the accumulators at zero. *)
Theorem pipeline_train_completes (corpus corpus' : list (list string))
    (vocabulary : Dict.t nat) (k g g' : nat) (model : NLM)
    (learning_rate : float) (tape : rng) :
  no_boundary_marker corpus ->
  build_vocabulary corpus = Ok (corpus', vocabulary) ->
  NLM_init normal_draw (Dict.len vocabulary) 64 k g = Ok (model, g') ->
  let r := train tanh_f exp_f log_f differentiate model corpus' vocabulary
                 learning_rate tape in
  train_stop r = None /\
  sgd_run tanh_f exp_f log_f differentiate learning_rate model
          (fst (yielded (generate_training_pairs corpus' vocabulary 4 tape)))
          (train_history r) None /\
  Forall accumulators_zero (train_history r) /\
  length (train_history r) = length (words_of corpus) + length corpus.
Proof.
  intros Hno Hbuild Hinit r.
  apply build_vocabulary_inv in Hbuild. destruct Hbuild as [Hc Hv].
  assert (Hno' : no_boundary_marker corpus').
  { rewrite Hc. apply replaced_no_boundary_marker, Hno. }
  assert (Hcov : forall sent, In sent corpus' ->
            covers vocabulary (pad_sentence 4 sent) /\ ~ In "<s>" sent).
  { intros sent Hsent. split.
    - rewrite Hv. apply own_vocabulary_covers; assumption.
    - apply (Hno' sent Hsent). }
  destruct (sampler_epoch_covered corpus' vocabulary 4 tape Hcov)
    as [Hstop Hlen].
  destruct (NLM_init_ok normal_draw (Dict.len vocabulary) 64 k g)
    as [m [g0 [Hm [Hemb [Hgrads Hshapes]]]]].
  { rewrite Hv. apply own_vocabulary_size. }
  rewrite Hinit in Hm. injection Hm as <- <-.
  assert (Hclear : accumulators_clear model).
  { unfold accumulators_clear. rewrite Hgrads. exact I. }
  destruct (train_loop_run tanh_f exp_f log_f differentiate learning_rate
              (fst (yielded (generate_training_pairs corpus' vocabulary 4 tape)))
              model Hclear)
    as [Hrun Hzero].
  assert (Hfits : Forall (pair_fits (Dict.len vocabulary))
            (fst (yielded (generate_training_pairs corpus' vocabulary 4 tape)))).
  { unfold generate_training_pairs.
    pose proof (shuffle_Permutation corpus' tape) as Hp.
    destruct (shuffle corpus' tape) as [shuffled tape']. cbn [fst] in Hp.
    cbn [yielded]. apply covered_pairs_fit.
    intros sent Hsent. apply Hcov.
    apply (Permutation_in _ (Permutation_sym Hp)). exact Hsent. }
  destruct (train_loop_total tanh_f exp_f log_f differentiate learning_rate
              (Dict.len vocabulary) _ Hfits model Hemb Hshapes)
    as [Hloop Hcount].
  unfold r, train.
  destruct (train_loop tanh_f exp_f log_f differentiate learning_rate model
              (fst (yielded (generate_training_pairs corpus' vocabulary 4 tape))))
    as [history stop].
  cbn [fst snd] in Hloop, Hcount, Hrun, Hzero. subst stop.
  cbn [train_stop train_history]. split; [exact Hstop|].
  split; [exact Hrun|]. split; [exact Hzero|].
  rewrite Hcount, Hlen, Hc, words_of_map, !length_map. reflexivity.
Qed.

End Pipeline.

Lemma pipeline_train_completes_witness :
  exists corpus' vocabulary model g',
    build_vocabulary [["a"; "b"; "a"]; ["a"]] = Ok (corpus', vocabulary) /\
    NLM_init (fun _ _ _ => fzero) (Dict.len vocabulary) 64 4 0
    = Ok (model, g') /\
    let r := train (fun x => x) (fun x => x) (fun x => x) (fun _ w => w)
                   model corpus' vocabulary fone [1] in
    train_stop r = None /\
    sgd_run (fun x => x) (fun x => x) (fun x => x) (fun _ w => w) fone model
            (fst (yielded (generate_training_pairs corpus' vocabulary 4 [1])))
            (train_history r) None /\
    Forall accumulators_zero (train_history r) /\
    length (train_history r) = 4 + 2.
Proof.
  destruct (NLM_init_ok (fun _ _ _ => fzero) 4 64 4 0)
    as [model [g' [Hinit _]]]; [lia|].
  exists [["a"; "<unk>"; "a"]; ["a"]],
         [("</s>", 0); ("<s>", 1); ("<unk>", 2); ("a", 3)], model, g'.
  split; [reflexivity|]. split; [exact Hinit|].
  apply (pipeline_train_completes (fun _ _ _ => fzero)
           (fun x => x) (fun x => x) (fun x => x) (fun _ w => w)
           [["a"; "b"; "a"]; ["a"]] [["a"; "<unk>"; "a"]; ["a"]]
           [("</s>", 0); ("<s>", 1); ("<unk>", 2); ("a", 3)] 4 0 g' model
           fone [1]).
  - intros sent [<-|[<-|[]]]; simpl; intuition discriminate.
  - reflexivity.
  - exact Hinit.
Defined.

Lemma forward_rejects_other_width_witness :
  let w := mkWeights (zeros 64 3) (zeros 256 256) (zeros 256 1)
                     (zeros 3 256) (zeros 3 1) in
  forward (fun x => x) (fun x => x) (fun x => x) 64 w
          ([one_hot 3 0] ++ one_hot 5 0 :: [one_hot 3 1; one_hot 3 2])
  = Raise RuntimeError.
Proof.
  apply (forward_rejects_other_width (fun x => x) (fun x => x) (fun x => x)
           (mkWeights (zeros 64 3) (zeros 256 256) (zeros 256 1)
                      (zeros 3 256) (zeros 3 1))
           64 3 64 (one_hot 5 0) [one_hot 3 0] [one_hot 3 1; one_hot 3 2]).
  - repeat split.
  - repeat constructor.
  - discriminate.
Defined.

Lemma forward_on_empty_context_witness :
  let w := mkWeights (zeros 256 3) (zeros 256 256) (zeros 256 1)
                     (zeros 3 256) (zeros 3 1) in
  forward (fun x => x) (fun x => x) (fun x => x) 64 w [] = Raise RuntimeError /\
  exists y,
    forward (fun x => x) (fun x => x) (fun x => x) 256 w [] = Ok y /\
    has_shape y 3 0.
Proof.
  assert (Hshapes : model_shapes
            (mkWeights (zeros 256 3) (zeros 256 256) (zeros 256 1)
                       (zeros 3 256) (zeros 3 1)) 256 3)
    by (repeat split).
  split.
  - apply (proj1 (forward_on_empty_context (fun x => x) (fun x => x)
                    (fun x => x) _ 256 3 64 Hshapes)).
    discriminate.
  - apply (proj2 (forward_on_empty_context (fun x => x) (fun x => x)
                    (fun x => x) _ 256 3 256 Hshapes)).
    reflexivity.
Defined.
